(** * Semantic-analysis core of the X / Jule front end: shallow embedding

    The sources embedded here are
    - [src/unnamed/part_000]        package lex     (the lexer),
    - [src/parser/types.go]         package parser  (type predicates, first [readyType]),
    - [src/parser/parser.go]        package parser  (expression evaluator, statement checker),
    - [src/src/sema/eval.go]        package sema    (the later evaluator),
    - [src/src/constant/lit/bytes.go] package lit   (byte and rune literals).

    Every definition names the Go function it is translated from.  Go values
    are embedded as follows: [int] as [Z]; [string] as [string] (bytes) or,
    in the lexer, as the list of code points it encodes; slices as [list],
    and as an index into a store of arrays where the code writes through
    them ([readyType]);
    structs as records; [interface{}] payloads as inductive types; a nil
    pointer result as [None].  Diagnostics are kept as the error keys that
    are pushed, in push order. *)

From Stdlib Require Import ZArith List String Ascii Bool Lia.
Import ListNotations.

#[local] Open Scope string_scope.
#[local] Open Scope list_scope.
#[local] Open Scope Z_scope.

(** ** Generic helpers *)

(** Membership of a string in a finite list of literals: a Go [case "a", "b":]. *)
Definition oneOf (s : string) (cases : list string) : bool :=
  existsb (String.eqb s) cases.

(** Go's [len] of a slice, as an [int]. *)
Definition len {A : Type} (l : list A) : Z := Z.of_nat (List.length l).

(** Go's [s[i]] on a slice; [None] stands for the run-time panic. *)
Definition index {A : Type} (l : list A) (i : Z) : option A :=
  if i <? 0 then None else nth_error l (Z.to_nat i).

Lemma oneOf_In (s : string) (cases : list string) :
  oneOf s cases = true <-> In s cases.
Proof.
  unfold oneOf. rewrite existsb_exists. split.
  - intros [x [Hin Heq]]. apply String.eqb_eq in Heq. now subst.
  - intros Hin. exists s. split; [assumption | apply String.eqb_refl].
Qed.

Lemma len_nonneg {A : Type} (l : list A) : 0 <= len l.
Proof. unfold len. lia. Qed.

Lemma len_app {A : Type} (l1 l2 : list A) : len (l1 ++ l2) = len l1 + len l2.
Proof. unfold len. rewrite length_app. lia. Qed.

Lemma index_app_l {A : Type} (l1 l2 : list A) (i : Z) :
  i < len l1 -> index (l1 ++ l2) i = index l1 i.
Proof.
  unfold index, len. intros Hi. destruct (i <? 0) eqn:E; [reflexivity|].
  apply Z.ltb_ge in E. apply nth_error_app1. lia.
Qed.

Lemma index_app_r {A : Type} (l1 l2 : list A) (i : Z) :
  len l1 <= i -> index (l1 ++ l2) i = index l2 (i - len l1).
Proof.
  unfold index, len. intros Hi.
  destruct (i <? 0) eqn:E.
  - apply Z.ltb_lt in E. lia.
  - replace (i - Z.of_nat (List.length l1) <? 0) with false
      by (symmetry; apply Z.ltb_ge; lia).
    rewrite nth_error_app2 by lia. f_equal. lia.
Qed.

Lemma index_Some_range {A : Type} (l : list A) (i : Z) (a : A) :
  index l i = Some a -> 0 <= i < len l.
Proof.
  unfold index, len. destruct (i <? 0) eqn:E; [discriminate|].
  apply Z.ltb_ge in E. intros H.
  assert (Hlt : (Z.to_nat i < List.length l)%nat)
    by (apply nth_error_Some; congruence).
  lia.
Qed.

(** Go's [s[n:]] and [s[:n]] on strings (byte offsets); [None] is the panic
    for an offset outside [0, len(s)]. *)
Definition strlen (s : string) : Z := Z.of_nat (String.length s).

Definition sliceFrom (s : string) (n : Z) : option string :=
  if (n <? 0) || (strlen s <? n) then None
  else Some (String.substring (Z.to_nat n) (String.length s - Z.to_nat n) s).

Definition sliceTo (s : string) (n : Z) : option string :=
  if (n <? 0) || (strlen s <? n) then None
  else Some (String.substring 0 (Z.to_nat n) s).

(** [s != "" && s[0] == c]. *)
Definition firstByteIs (s : string) (c : ascii) : bool :=
  match s with
  | EmptyString => false
  | String a _ => Ascii.eqb a c
  end.

(** How a call ends: it returns, it panics (index out of range, failed type
    assertion), or the model's fuel ran out before it returned. *)
Inductive Outcome (A : Type) : Type :=
| Returned (a : A)
| Panicked
| OutOfFuel.
Arguments Returned {A} a.
Arguments Panicked {A}.
Arguments OutOfFuel {A}.

(** * The AST and token data shared by [types.go] and [parser.go] *)
Module Ast.

(** [lex.Token.Id]: the token classes the parser tests for. *)
Inductive TokenId : Type :=
| NA | Id | Operator | Brace | Value | Comma | New | OtherId.

Definition TokenId_eqb (a b : TokenId) : bool :=
  match a, b with
  | NA, NA | Id, Id | Operator, Operator | Brace, Brace
  | Value, Value | Comma, Comma | New, New | OtherId, OtherId => true
  | _, _ => false
  end.

(** [lex.Token]. *)
Record Token : Type := mkToken {
  TId : TokenId;
  Kind : string;
  Row : Z;
  Column : Z
}.

Definition noToken : Token := mkToken NA "" 0 0.

(** [xlog.CompilerLog] as pushed by [pusherrtok]: position and error key
    (the message is the table entry [x.Errors[key]]). *)
Record CompilerLog : Type := mkLog {
  LogRow : Z;
  LogColumn : Z;
  LogKey : string
}.

(** The primitive type codes of package [x] ([x.Void], [x.I8], ...; the
    function code is [x.Function] in types.go and [x.Func] in parser.go). *)
Inductive TypeCode : Type :=
| Void | I8 | I16 | I32 | I64 | U8 | U16 | U32 | U64 | Bool | Str
| F32 | F64 | Any | Rune | Name | Func | Nil | Size.

Definition TypeCode_eqb (a b : TypeCode) : bool :=
  match a, b with
  | Void, Void | I8, I8 | I16, I16 | I32, I32 | I64, I64
  | U8, U8 | U16, U16 | U32, U32 | U64, U64 | Bool, Bool | Str, Str
  | F32, F32 | F64, F64 | Any, Any | Rune, Rune | Name, Name
  | Func, Func | Nil, Nil | Size, Size => true
  | _, _ => false
  end.

(** [ast.DataType] ([ast.DataTypeAST] in types.go).  [Tag] is an
    [interface{}]: empty, a function ([ast.Func]) or the list of types of a
    multi-typed return.  Of the function only the signature is kept in the
    tag; no function embedded here reads a body through a type. *)
Inductive DataType : Type :=
| mkDataType (Token : Token) (Code : TypeCode) (Value : string)
             (MultiTyped : bool) (Tag : TagValue)
with TagValue : Type :=
| TagNil
| TagFunc (f : FuncSig)
| TagTypes (ts : list DataType)
with FuncSig : Type :=
| mkFuncSig (FToken : Token) (FId : string) (Params : list Param)
            (RetType : DataType)
with Param : Type :=
| mkParam (PToken : Token) (PId : string) (PConst : bool) (PVolatile : bool)
              (PVariadic : bool) (PType : DataType).

Definition Token_of (dt : DataType) : Token := let (t, _, _, _, _) := dt in t.
Definition Code (dt : DataType) : TypeCode := let (_, c, _, _, _) := dt in c.
Definition TValue (dt : DataType) : string := let (_, _, v, _, _) := dt in v.
Definition MultiTyped (dt : DataType) : bool := let (_, _, _, m, _) := dt in m.
Definition Tag (dt : DataType) : TagValue := let (_, _, _, _, g) := dt in g.

Definition setValue (dt : DataType) (v : string) : DataType :=
  mkDataType (Token_of dt) (Code dt) v (MultiTyped dt) (Tag dt).
Definition setCode (dt : DataType) (c : TypeCode) : DataType :=
  mkDataType (Token_of dt) c (TValue dt) (MultiTyped dt) (Tag dt).
Definition setTag (dt : DataType) (g : TagValue) : DataType :=
  mkDataType (Token_of dt) (Code dt) (TValue dt) (MultiTyped dt) g.

Definition Params (f : FuncSig) : list Param := let (_, _, ps, _) := f in ps.
Definition RetType (f : FuncSig) : DataType := let (_, _, _, r) := f in r.
Definition FId (f : FuncSig) : string := let (_, i, _, _) := f in i.
Definition FToken (f : FuncSig) : Token := let (t, _, _, _) := f in t.
Definition setParams (f : FuncSig) (ps : list Param) : FuncSig :=
  mkFuncSig (FToken f) (FId f) ps (RetType f).

Definition PType (p : Param) : DataType := let (_, _, _, _, _, t) := p in t.
Definition setPType (p : Param) (t : DataType) : Param :=
  let (tok, i, c, v, va, _) := p in mkParam tok i c v va t.

(** The zero value of [ast.DataType]. *)
Definition zeroDataType : DataType := mkDataType noToken Void "" false TagNil.

(** [ast.Type]: a type alias declaration [type Id Type]. *)
Record TypeDecl : Type := mkTypeDecl {
  TypeToken : Token;
  TypeId : string;
  TypeType : DataType
}.

End Ast.

(** * Package parser, [src/parser/types.go] *)
Module Types.
Import Ast.

(** [typeIsVoidReturn] (types.go:9). *)
Definition typeIsVoidReturn (t : DataType) : bool :=
  TypeCode_eqb (Code t) Void && negb (MultiTyped t).

(** [typeOfArrayElements] (types.go:13): drops the two bytes of "[]"; the
    slice expression panics on a shorter lexeme. *)
Definition typeOfArrayElements (t : DataType) : option DataType :=
  match sliceFrom (TValue t) 2 with
  | Some v => Some (setValue t v)
  | None => None
  end.

(** [typeIsPointer] (types.go:19). *)
Definition typeIsPointer (t : DataType) : bool := firstByteIs (TValue t) "*"%char.

(** [typeIsArray] (types.go:26). *)
Definition typeIsArray (t : DataType) : bool := firstByteIs (TValue t) "["%char.

(** [typeIsSingle] (types.go:33). *)
Definition typeIsSingle (dt : DataType) : bool :=
  negb (typeIsPointer dt) && negb (typeIsArray dt) &&
  negb (TypeCode_eqb (Code dt) Func).

(** [typeIsNilCompatible] (types.go:59). *)
Definition typeIsNilCompatible (t : DataType) : bool :=
  TypeCode_eqb (Code t) Func || typeIsPointer t.

(** [checkArrayCompatiblity] (types.go:63). *)
Definition checkArrayCompatiblity (arrT t : DataType) : bool :=
  if TypeCode_eqb (Code t) Nil then true
  else String.eqb (TValue arrT) (TValue t).

Section Compatibility.

(** [x.TypesAreCompatible], the primitive table of package [x]; the package
    is not part of the sources, the table is a parameter. *)
Variable xTypesAreCompatible : TypeCode -> TypeCode -> bool -> bool.

(** [typesAreCompatible] (types.go:70). *)
Definition typesAreCompatible (t1 t2 : DataType) (ignoreany : bool) : bool :=
  if typeIsArray t1 || typeIsArray t2 then
    if typeIsArray t2 then checkArrayCompatiblity t2 t1
    else checkArrayCompatiblity t1 t2
  else if typeIsNilCompatible t1 || typeIsNilCompatible t2 then
    TypeCode_eqb (Code t1) Nil || TypeCode_eqb (Code t2) Nil
  else xTypesAreCompatible (Code t1) (Code t2) ignoreany.

End Compatibility.

(** The claim's predicate, in the words of the specification:
    "nil-compatible(t) = pointer, slice, or Func". *)
Definition spec_nilCompatible (t : DataType) : bool :=
  typeIsPointer t || typeIsArray t || TypeCode_eqb (Code t) Func.

(** The type the evaluator gives the literal [nil]: code [Nil], empty lexeme. *)
Definition nilType : DataType := mkDataType noToken Nil "" false TagNil.

End Types.

(** * Package parser, [src/parser/parser.go] *)
Module Parser.
Import Ast.

(** [Parser.pusherrtok], on the log list of the parser. *)
Definition pusherrtok (logs : list CompilerLog) (token : Token) (key : string)
  : list CompilerLog :=
  logs ++ [mkLog (Row token) (Column token) key].

(** *** [typeById] (parser.go:390) *)

(** The first declaration of [types] (that is [p.Types]) with that
    identifier, returned as a pointer to a copy ([&t] of the range
    variable); [None] is the nil pointer. *)
Definition typeById (types : list TypeDecl) (id : string) : option TypeDecl :=
  find (fun t => String.eqb (TypeId t) id) types.

(** *** [nextOperator] (parser.go:624) *)

(** The five local variables of [nextOperator]. *)
Record Precedences : Type := mkPrec {
  precedence5 : Z;
  precedence4 : Z;
  precedence3 : Z;
  precedence2 : Z;
  precedence1 : Z
}.

Definition noPrecedence : Precedences := mkPrec (-1) (-1) (-1) (-1) (-1).

(** One iteration of the [for i, part := range tokens] loop. *)
Definition nextOperatorStep (i : Z) (part : list Token)
    (st : Precedences * list CompilerLog) : Precedences * list CompilerLog :=
  let (pr, logs) := st in
  match part with
  | [tok] =>
      if negb (TokenId_eqb (TId tok) Operator) then st
      else if oneOf (Kind tok) ["*"; "/"; "%"; "<<"; ">>"; "&"] then
        (mkPrec i (precedence4 pr) (precedence3 pr) (precedence2 pr) (precedence1 pr), logs)
      else if oneOf (Kind tok) ["+"; "-"; "|"; "^"] then
        (mkPrec (precedence5 pr) i (precedence3 pr) (precedence2 pr) (precedence1 pr), logs)
      else if oneOf (Kind tok) ["=="; "!="; "<"; "<="; ">"; ">="] then
        (mkPrec (precedence5 pr) (precedence4 pr) i (precedence2 pr) (precedence1 pr), logs)
      else if oneOf (Kind tok) ["&&"] then
        (mkPrec (precedence5 pr) (precedence4 pr) (precedence3 pr) i (precedence1 pr), logs)
      else if oneOf (Kind tok) ["||"] then
        (mkPrec (precedence5 pr) (precedence4 pr) (precedence3 pr) (precedence2 pr) i, logs)
      else (pr, pusherrtok logs tok "invalid_operator")
  | _ => st
  end.

(** The loop, from index [i] on. *)
Fixpoint nextOperatorLoop (i : Z) (tokens : list (list Token))
    (st : Precedences * list CompilerLog) : Precedences * list CompilerLog :=
  match tokens with
  | [] => st
  | part :: rest => nextOperatorLoop (i + 1) rest (nextOperatorStep i part st)
  end.

(** The final [switch]. *)
Definition nextOperatorPick (pr : Precedences) : Z :=
  if negb (precedence5 pr =? -1) then precedence5 pr
  else if negb (precedence4 pr =? -1) then precedence4 pr
  else if negb (precedence3 pr =? -1) then precedence3 pr
  else if negb (precedence2 pr =? -1) then precedence2 pr
  else precedence1 pr.

(** [func (p *Parser) nextOperator(tokens [][]lex.Token) int]: the index
    returned and the parser's logs afterwards. *)
Definition nextOperator (logs : list CompilerLog) (tokens : list (list Token))
  : Z * list CompilerLog :=
  let (pr, logs') := nextOperatorLoop 0 tokens (noPrecedence, logs) in
  (nextOperatorPick pr, logs').

(** The precedence level the [switch] of [nextOperator] gives a process:
    [Some 5] for the multiplicative group down to [Some 1] for [||], [None]
    for an operand, a process of several tokens or an unknown operator. *)
Definition operatorLevel (part : list Token) : option Z :=
  match part with
  | [tok] =>
      if negb (TokenId_eqb (TId tok) Operator) then None
      else if oneOf (Kind tok) ["*"; "/"; "%"; "<<"; ">>"; "&"] then Some 5
      else if oneOf (Kind tok) ["+"; "-"; "|"; "^"] then Some 4
      else if oneOf (Kind tok) ["=="; "!="; "<"; "<="; ">"; ">="] then Some 3
      else if oneOf (Kind tok) ["&&"] then Some 2
      else if oneOf (Kind tok) ["||"] then Some 1
      else None
  | _ => None
  end.

(** The selection rule in the words of the specification: "the
    highest-precedence remaining; ties are resolved left-to-right by
    leftmost occurrence". *)
Definition highestLevel (tokens : list (list Token)) : option Z :=
  fold_right (fun part acc =>
                match operatorLevel part, acc with
                | Some l, Some m => Some (Z.max l m)
                | Some l, None => Some l
                | None, _ => acc
                end) None tokens.

Fixpoint firstAtLevel (l : Z) (i : Z) (tokens : list (list Token)) : Z :=
  match tokens with
  | [] => -1
  | part :: rest =>
      match operatorLevel part with
      | Some m => if m =? l then i else firstAtLevel l (i + 1) rest
      | None => firstAtLevel l (i + 1) rest
      end
  end.

Definition spec_nextOperator (tokens : list (list Token)) : Z :=
  match highestLevel tokens with
  | Some l => firstAtLevel l 0 tokens
  | None => -1
  end.

(** The field of [Precedences] that belongs to a level. *)
Definition precedenceAt (l : Z) (pr : Precedences) : Z :=
  if l =? 5 then precedence5 pr
  else if l =? 4 then precedence4 pr
  else if l =? 3 then precedence3 pr
  else if l =? 2 then precedence2 pr
  else precedence1 pr.

(** What the loop leaves in the variable of level [l]: the index of the
    last process of that level, or the initial value. *)
Fixpoint lastAtLevel (l : Z) (i : Z) (tokens : list (list Token)) (d : Z) : Z :=
  match tokens with
  | [] => d
  | part :: rest =>
      lastAtLevel l (i + 1) rest
        (match operatorLevel part with
         | Some m => if m =? l then i else d
         | None => d
         end)
  end.

(** Operand and operator tokens for examples. *)
Definition operand (name : string) : list Token := [mkToken Id name 1 1].
Definition operator (kind : string) : list Token := [mkToken Operator kind 1 1].

End Parser.

(** * [Parser.readyType] of [parser.go], over the arrays it writes *)
Module ParserHeap.
Import Ast Parser.

#[local] Close Scope Z_scope.

(** [readyType] writes while it reads: [funAST := dt.Tag.(ast.Func)] copies
    the struct, but the copy's [Params] slice has the array of the original
    behind it, so [funAST.Params[index].Type = ...] changes the parameter
    types that [dt.Tag], every other copy of the function, and the alias
    declarations of [p.Types] (of which [typeById] hands out copies) see.
    The types of this module keep that sharing; the types of [Ast] above
    are the same data where nothing is written through a slice.

    [ast.DataType] and [ast.Func] as Go holds them: everything is a value
    but the parameters of a function, which are a slice.  [Params] is the
    index in the store of the array behind the slice; a slice is taken to
    cover its whole array ([readyType] and the builders of parameter lists
    never cut one), and an index without an array is the nil slice.  The
    first [readyType], of [types.go], is the same function without the
    [err] flag and its diagnostic, that is with [err = false]. *)
Inductive HType : Type :=
| mkHType (Token : Token) (Code : TypeCode) (Value : string)
          (MultiTyped : bool) (Tag : HTag)
with HTag : Type :=
| HTagNil
| HTagFunc (f : HFunc)
| HTagTypes (ts : list HType)
with HFunc : Type :=
| mkHFunc (FToken : Token) (FId : string) (Params : nat) (RetType : HType).

Definition Token_of (dt : HType) : Token := let (t, _, _, _, _) := dt in t.
Definition Code (dt : HType) : TypeCode := let (_, c, _, _, _) := dt in c.
Definition Value (dt : HType) : string := let (_, _, v, _, _) := dt in v.
Definition MultiTyped (dt : HType) : bool := let (_, _, _, m, _) := dt in m.
Definition Tag (dt : HType) : HTag := let (_, _, _, _, g) := dt in g.
Definition setValue (dt : HType) (v : string) : HType :=
  mkHType (Token_of dt) (Code dt) v (MultiTyped dt) (Tag dt).

Definition Params (f : HFunc) : nat := let (_, _, ps, _) := f in ps.
Definition RetType (f : HFunc) : HType := let (_, _, _, r) := f in r.

(** [ast.Parameter]. *)
Record HParam : Type := mkHParam {
  PToken : Token;
  PId : string;
  PConst : bool;
  PVolatile : bool;
  PVariadic : bool;
  PType : HType
}.

Definition setPType (p : HParam) (t : HType) : HParam :=
  mkHParam (PToken p) (PId p) (PConst p) (PVolatile p) (PVariadic p) t.

(** [ast.Type]: a type alias declaration. *)
Record HTypeDecl : Type := mkHTypeDecl {
  TypeToken : Token;
  TypeId : string;
  TypeType : HType
}.

(** The store: the arrays behind the parameter slices. *)
Definition Heap : Type := list (list HParam).

(** The array a slice refers to. *)
Definition lookup (h : Heap) (l : nat) : list HParam := nth l h [].

Definition setAt {A : Type} (xs : list A) (i : nat) (a : A) : list A :=
  firstn i xs ++ a :: skipn (S i) xs.

(** [params[index].Type = t] for the slice [l]; [None] is the panic of an
    index out of range. *)
Definition writeType (h : Heap) (l index : nat) (t : HType) : option Heap :=
  match nth_error (lookup h l) index with
  | None => None
  | Some p => Some (setAt h l (setAt (lookup h l) index (setPType p t)))
  end.

Section ReadyType.

(** [ast.Func.DataTypeString], the lexeme of a function type, which reads
    the function through the store; package [ast] is not part of the
    sources. *)
Variable DataTypeString : Heap -> HFunc -> string.

(** [p.Types]. *)
Variable types : list HTypeDecl.

(** [typeById] (parser.go:390): a pointer to a copy of the first
    declaration with that identifier; the copy shares the arrays of the
    declaration. *)
Definition typeById (id : string) : option HTypeDecl :=
  find (fun t => String.eqb (TypeId t) id) types.

(** The loop [for index, param := range funAST.Params] of [readyType] over
    the slice [l], from [index] on, for [remaining] more elements: the
    element is read when its turn comes, its type is resolved, and the
    result is written into the array. *)
Fixpoint readyParams
    (ready : Heap -> HType -> Outcome (HType * bool * list CompilerLog * Heap))
    (l index remaining : nat) (h : Heap) : Outcome (list CompilerLog * Heap) :=
  match remaining with
  | O => Returned ([], h)
  | S remaining' =>
      match nth_error (lookup h l) index with
      | None => Panicked
      | Some param =>
          match ready h (PType param) with
          | Returned (t, _, pushed, h1) =>
              match writeType h1 l index t with
              | None => Panicked
              | Some h2 =>
                  match readyParams ready l (S index) remaining' h2 with
                  | Returned (pushed', h3) => Returned (pushed ++ pushed', h3)
                  | Panicked => Panicked
                  | OutOfFuel => OutOfFuel
                  end
              end
          | Panicked => Panicked
          | OutOfFuel => OutOfFuel
          end
      end
  end.

(** [func (p *Parser) readyType(dt ast.DataType, err bool) (ast.DataType, bool)]
    (parser.go:2292).  The result carries the type returned, [ok], the
    diagnostics the call appends to the parser's logs, and the store
    afterwards.  The recursion through aliases need not end (an alias may
    name itself), hence the fuel.

    In the [x.Name] case [t.Type.Value = ...] changes the copy [typeById]
    returned, not the declaration.  In the [x.Func] case the resolved
    parameter types are written into the array; the resolved result type is
    assigned to the local copy [funAST] and lost, but what the call wrote
    into the arrays it reached stays.  The new lexeme is computed from
    [dt.Tag] in the store after both.  A [dt.Tag] that is not a function
    makes the type assertion panic, and so does a lexeme shorter than the
    name of the token in the slice expression. *)
Fixpoint readyType (fuel : nat) (h : Heap) (dt : HType) (err : bool)
  : Outcome (HType * bool * list CompilerLog * Heap) :=
  match fuel with
  | O => OutOfFuel
  | S fuel' =>
      if String.eqb (Value dt) "" then Returned (dt, true, [], h)
      else
        match Code dt with
        | Name =>
            match typeById (Kind (Token_of dt)) with
            | None =>
                Returned (dt, false,
                          if err then pusherrtok [] (Token_of dt) "invalid_type_source"
                          else [], h)
            | Some t =>
                match sliceTo (Value dt)
                              (strlen (Value dt) - strlen (Kind (Token_of dt))) with
                | None => Panicked
                | Some pre =>
                    readyType fuel' h
                      (setValue (TypeType t) (String.append pre (Value (TypeType t))))
                      err
                end
            end
        | Func =>
            match Tag dt with
            | HTagFunc funAST =>
                match readyParams (fun h0 t => readyType fuel' h0 t err)
                                  (Params funAST) 0
                                  (List.length (lookup h (Params funAST))) h with
                | Returned (pushed, h1) =>
                    match readyType fuel' h1 (RetType funAST) err with
                    | Returned (_, _, pushed', h2) =>
                        Returned (setValue dt (DataTypeString h2 funAST), true,
                                  pushed ++ pushed', h2)
                    | Panicked => Panicked
                    | OutOfFuel => OutOfFuel
                    end
                | Panicked => Panicked
                | OutOfFuel => OutOfFuel
                end
            | _ => Panicked
            end
        | _ => Returned (dt, true, [], h)
        end
  end.

End ReadyType.

End ParserHeap.

(** * Facts about the predicates of [types.go] *)
Module TypesFacts.
Import Ast Types.

Lemma TypeCode_eqb_eq (a b : TypeCode) : TypeCode_eqb a b = true <-> a = b.
Proof.
  split.
  - destruct a, b; simpl; intros H; try reflexivity; discriminate.
  - intros ->. destruct b; reflexivity.
Qed.

Lemma TypeCode_eqb_refl (a : TypeCode) : TypeCode_eqb a a = true.
Proof. destruct a; reflexivity. Qed.

(** A lexeme cannot start with both "*" and "[". *)
Lemma pointer_not_array (t : DataType) :
  typeIsPointer t = true -> typeIsArray t = false.
Proof.
  unfold typeIsPointer, typeIsArray, firstByteIs.
  destruct (TValue t) as [|a r]; [discriminate|].
  intros H. apply Ascii.eqb_eq in H. subst a. reflexivity.
Qed.

(** The array case of [typesAreCompatible] accepts a [Nil]-coded other side. *)
Lemma array_accepts_nil (xc : TypeCode -> TypeCode -> bool -> bool)
    (t : DataType) (ignoreany : bool) :
  typeIsArray t = true -> typesAreCompatible xc t nilType ignoreany = true.
Proof.
  intros Harr. unfold typesAreCompatible. rewrite Harr. reflexivity.
Qed.

(** The nil-compatible case does as well. *)
Lemma nilCompatible_accepts_nil (xc : TypeCode -> TypeCode -> bool -> bool)
    (t : DataType) (ignoreany : bool) :
  typeIsNilCompatible t = true -> typesAreCompatible xc t nilType ignoreany = true.
Proof.
  intros Hnil. unfold typesAreCompatible.
  destruct (typeIsArray t) eqn:Harr; [reflexivity|].
  cbn [orb]. change (typeIsArray nilType) with false. cbn [orb].
  rewrite Hnil. cbn [orb]. change (Code nilType) with Nil.
  rewrite TypeCode_eqb_refl. apply orb_true_r.
Qed.

(** C4, as the code has it: the predicate [typeIsNilCompatible] holds
    exactly for pointer types and function types, and not for array or slice
    types as such.  Array and slice types accept a [nil] source all the same,
    through the array case that [typesAreCompatible] tries first; pointer and
    function types accept it through the nil-compatible case; for every other
    type the answer is the one of the primitive table [x.TypesAreCompatible]. *)
Theorem typeIsNilCompatible_pointer_or_func
    (xc : TypeCode -> TypeCode -> bool -> bool) (t : DataType) (ignoreany : bool) :
  (typeIsNilCompatible t = true <-> (typeIsPointer t = true \/ Code t = Func))
  /\ (typeIsArray t = true -> typesAreCompatible xc t nilType ignoreany = true)
  /\ (typeIsNilCompatible t = true -> typesAreCompatible xc t nilType ignoreany = true)
  /\ (typeIsArray t = false -> typeIsNilCompatible t = false ->
      typesAreCompatible xc t nilType ignoreany = xc (Code t) Nil ignoreany).
Proof.
  split; [|split; [|split]].
  - unfold typeIsNilCompatible. rewrite orb_true_iff, TypeCode_eqb_eq. tauto.
  - apply array_accepts_nil.
  - apply nilCompatible_accepts_nil.
  - intros Harr Hnil. unfold typesAreCompatible.
    rewrite Harr, Hnil. reflexivity.
Qed.

(** C4 as stated fails on an array type such as [[]i32]: the specification's
    predicate holds of it, [typeIsNilCompatible] does not. *)
Lemma typeIsNilCompatible_rejects_array :
  spec_nilCompatible (mkDataType noToken I32 "[]i32" false TagNil) = true
  /\ typeIsNilCompatible (mkDataType noToken I32 "[]i32" false TagNil) = false.
Proof. split; reflexivity. Qed.

End TypesFacts.

(** * Facts about [Parser.nextOperator] *)
Module ParserOperatorFacts.
Import Ast Parser.

Lemma operatorLevel_range (part : list Token) (l : Z) :
  operatorLevel part = Some l -> 1 <= l <= 5.
Proof.
  unfold operatorLevel. destruct part as [|tok [|? ?]]; try discriminate.
  repeat match goal with
         | |- context [if ?b then _ else _] => destruct b
         end; intros H; inversion H; lia.
Qed.

(** Each iteration writes [i] into the variable of the process's level and
    leaves the four others alone. *)
Lemma nextOperatorStep_precedenceAt (l i : Z) (part : list Token)
    (pr : Precedences) (logs : list CompilerLog) :
  1 <= l <= 5 ->
  precedenceAt l (fst (nextOperatorStep i part (pr, logs))) =
  match operatorLevel part with
  | Some m => if m =? l then i else precedenceAt l pr
  | None => precedenceAt l pr
  end.
Proof.
  intros Hl. unfold nextOperatorStep, operatorLevel.
  destruct part as [|tok [|? ?]]; try reflexivity.
  assert (Hcases : l = 1 \/ l = 2 \/ l = 3 \/ l = 4 \/ l = 5) by lia.
  repeat match goal with
         | |- context [if ?b then _ else _] =>
             match b with
             | context [oneOf] => destruct b
             | context [TokenId_eqb] => destruct b
             end
         end; simpl;
    destruct Hcases as [-> | [-> | [-> | [-> | ->]]]]; reflexivity.
Qed.

Lemma nextOperatorLoop_precedenceAt (l : Z) (tokens : list (list Token)) :
  1 <= l <= 5 ->
  forall i pr logs,
    precedenceAt l (fst (nextOperatorLoop i tokens (pr, logs))) =
    lastAtLevel l i tokens (precedenceAt l pr).
Proof.
  intros Hl. induction tokens as [|part rest IH]; intros i pr logs.
  - reflexivity.
  - cbn [nextOperatorLoop lastAtLevel].
    destruct (nextOperatorStep i part (pr, logs)) as [pr' logs'] eqn:Hstep.
    rewrite IH. f_equal.
    pose proof (nextOperatorStep_precedenceAt l i part pr logs Hl) as H.
    rewrite Hstep in H. exact H.
Qed.

Lemma index_cons_0 {A : Type} (a : A) (l : list A) : index (a :: l) 0 = Some a.
Proof. reflexivity. Qed.

Lemma index_cons_pos {A : Type} (a : A) (l : list A) (k : Z) :
  1 <= k -> index (a :: l) k = index l (k - 1).
Proof.
  intros Hk. unfold index.
  replace (k <? 0) with false by (symmetry; apply Z.ltb_ge; lia).
  replace (k - 1 <? 0) with false by (symmetry; apply Z.ltb_ge; lia).
  replace (Z.to_nat k) with (S (Z.to_nat (k - 1))) by lia. reflexivity.
Qed.

(** [r] is the rightmost index, counted from [i], of a process of level [l]. *)
Definition rightmostAt (l i : Z) (tokens : list (list Token)) (r : Z) : Prop :=
  exists part,
    index tokens (r - i) = Some part /\ operatorLevel part = Some l /\
    forall k part', index tokens k = Some part' ->
                    operatorLevel part' = Some l -> i + k <= r.

Definition noneAt (l : Z) (tokens : list (list Token)) : Prop :=
  forall k part, index tokens k = Some part -> operatorLevel part = Some l -> False.

Lemma lastAtLevel_spec (l : Z) (tokens : list (list Token)) :
  forall i d,
    (lastAtLevel l i tokens d = d /\ noneAt l tokens)
    \/ rightmostAt l i tokens (lastAtLevel l i tokens d).
Proof.
  induction tokens as [|part rest IH]; intros i d.
  - left. split; [reflexivity|]. intros k part Hk _.
    unfold index in Hk. destruct (k <? 0); [discriminate|].
    destruct (Z.to_nat k); discriminate.
  - cbn [lastAtLevel].
    set (d' := match operatorLevel part with
               | Some m => if m =? l then i else d
               | None => d
               end).
    destruct (IH (i + 1) d') as [[Hr Hnone] | [part0 [Hidx [Hlvl Hmax]]]].
    + rewrite Hr.
      destruct (operatorLevel part) as [m|] eqn:Hpart.
      * destruct (m =? l) eqn:Hm.
        -- apply Z.eqb_eq in Hm. subst m. right. exists part.
           subst d'. cbn. replace (i - i) with 0 by lia.
           split; [apply index_cons_0|]. split; [assumption|].
           intros k part' Hk Hl'.
           destruct (Z_lt_le_dec k 1) as [Hlt|Hge].
           ++ apply index_Some_range in Hk. lia.
           ++ rewrite index_cons_pos in Hk by assumption.
              exfalso. exact (Hnone _ _ Hk Hl').
        -- left. subst d'. cbn. split; [reflexivity|].
           intros k part' Hk Hl'.
           destruct (Z_lt_le_dec k 1) as [Hlt|Hge].
           ++ pose proof (index_Some_range _ _ _ Hk) as Hrange.
              assert (k = 0) by lia. subst k. rewrite index_cons_0 in Hk.
              inversion Hk; subst part'. rewrite Hpart in Hl'.
              inversion Hl'; subst. rewrite Z.eqb_refl in Hm. discriminate.
           ++ rewrite index_cons_pos in Hk by assumption.
              exact (Hnone _ _ Hk Hl').
      * left. subst d'. cbn. split; [reflexivity|].
        intros k part' Hk Hl'.
        destruct (Z_lt_le_dec k 1) as [Hlt|Hge].
        -- pose proof (index_Some_range _ _ _ Hk) as Hrange.
           assert (k = 0) by lia. subst k. rewrite index_cons_0 in Hk.
           inversion Hk; subst part'. congruence.
        -- rewrite index_cons_pos in Hk by assumption.
           exact (Hnone _ _ Hk Hl').
    + right. exists part0.
      pose proof (index_Some_range _ _ _ Hidx) as Hrange.
      split; [|split; [assumption|]].
      * rewrite index_cons_pos by lia.
        replace (lastAtLevel l (i + 1) rest d' - i - 1)
          with (lastAtLevel l (i + 1) rest d' - (i + 1)) by lia.
        exact Hidx.
      * intros k part' Hk Hl'.
        destruct (Z_lt_le_dec k 1) as [Hlt|Hge].
        -- pose proof (index_Some_range _ _ _ Hk). lia.
        -- rewrite index_cons_pos in Hk by assumption.
           specialize (Hmax _ _ Hk Hl'). lia.
Qed.

(** From index 0 and initial value -1: either the variable is still -1 and
    no process has the level, or it holds the rightmost such index. *)
Lemma lastAtLevel_from_start (l : Z) (tokens : list (list Token)) :
  (lastAtLevel l 0 tokens (-1) = -1 /\ noneAt l tokens)
  \/ (0 <= lastAtLevel l 0 tokens (-1) /\
      rightmostAt l 0 tokens (lastAtLevel l 0 tokens (-1))).
Proof.
  destruct (lastAtLevel_spec l tokens 0 (-1)) as [H | H]; [left; exact H|].
  right. split; [|exact H].
  destruct H as [part [Hidx _]]. apply index_Some_range in Hidx. lia.
Qed.

Lemma rightmostAt_nonneg (l : Z) (tokens : list (list Token)) (r : Z) :
  rightmostAt l 0 tokens r -> 0 <= r.
Proof.
  intros [part [Hidx _]]. apply index_Some_range in Hidx. lia.
Qed.

(** The variables after the loop, level by level. *)
Lemma nextOperator_variables (logs : list CompilerLog) (tokens : list (list Token)) (l : Z) :
  1 <= l <= 5 ->
  precedenceAt l (fst (nextOperatorLoop 0 tokens (noPrecedence, logs))) =
  lastAtLevel l 0 tokens (-1).
Proof.
  intros Hl. rewrite nextOperatorLoop_precedenceAt by assumption.
  f_equal. unfold precedenceAt, noPrecedence. simpl.
  repeat match goal with |- context [if ?b then _ else _] => destruct b end;
    reflexivity.
Qed.

(** C1, as the code has it: [nextOperator] returns -1 exactly when no
    process is a recognised binary operator; otherwise it returns the index of
    a process whose precedence level is the highest one present, and among
    the processes of that level it returns the rightmost one (the loop
    overwrites the level's variable at every later occurrence). *)
Theorem nextOperator_highest_rightmost
    (logs : list CompilerLog) (tokens : list (list Token)) :
  (fst (nextOperator logs tokens) = -1 /\
   forall k part, index tokens k = Some part -> operatorLevel part = None)
  \/
  (exists part l,
      index tokens (fst (nextOperator logs tokens)) = Some part /\
      operatorLevel part = Some l /\
      forall k part' l',
        index tokens k = Some part' -> operatorLevel part' = Some l' ->
        l' <= l /\ (l' = l -> k <= fst (nextOperator logs tokens))).
Proof.
  unfold nextOperator.
  destruct (nextOperatorLoop 0 tokens (noPrecedence, logs)) as [pr logs'] eqn:Hloop.
  assert (Hvar : forall l, 1 <= l <= 5 -> precedenceAt l pr = lastAtLevel l 0 tokens (-1)).
  { intros l Hl. pose proof (nextOperator_variables logs tokens l Hl) as H.
    rewrite Hloop in H. exact H. }
  pose proof (Hvar 5 ltac:(lia)) as H5. pose proof (Hvar 4 ltac:(lia)) as H4.
  pose proof (Hvar 3 ltac:(lia)) as H3. pose proof (Hvar 2 ltac:(lia)) as H2.
  pose proof (Hvar 1 ltac:(lia)) as H1.
  cbn in H5, H4, H3, H2, H1. cbn [fst].
  (* [found l]: the branch of the final switch that returns the variable of
     level [l], every higher level being absent. *)
  assert (found : forall l r,
             1 <= l <= 5 -> r = lastAtLevel l 0 tokens (-1) ->
             rightmostAt l 0 tokens r ->
             (forall m, l < m <= 5 -> noneAt m tokens) ->
             exists part l0,
               index tokens r = Some part /\ operatorLevel part = Some l0 /\
               forall k part' l', index tokens k = Some part' ->
                                  operatorLevel part' = Some l' ->
                                  l' <= l0 /\ (l' = l0 -> k <= r)).
  { intros l r Hl Hr [part [Hidx [Hlvl Hmax]]] Habove.
    exists part, l. replace (r - 0) with r in Hidx by lia.
    split; [assumption|]. split; [assumption|].
    intros k part' l' Hk Hl'.
    pose proof (operatorLevel_range _ _ Hl') as Hrange.
    destruct (Z_lt_le_dec l l') as [Hgt|Hle].
    - exfalso. apply (Habove l' ltac:(lia) k part' Hk Hl').
    - split; [assumption|]. intros ->. specialize (Hmax _ _ Hk Hl'). lia. }
  unfold nextOperatorPick. rewrite H5, H4, H3, H2, H1.
  destruct (lastAtLevel_from_start 5 tokens) as [[E5 N5] | [P5 R5]].
  2:{ right. replace (negb (lastAtLevel 5 0 tokens (-1) =? -1)) with true
        by (symmetry; apply negb_true_iff, Z.eqb_neq; lia).
      apply (found 5 _ ltac:(lia) eq_refl R5). intros m Hm. lia. }
  replace (negb (lastAtLevel 5 0 tokens (-1) =? -1)) with false
    by (symmetry; apply negb_false_iff, Z.eqb_eq; lia).
  destruct (lastAtLevel_from_start 4 tokens) as [[E4 N4] | [P4 R4]].
  2:{ right. replace (negb (lastAtLevel 4 0 tokens (-1) =? -1)) with true
        by (symmetry; apply negb_true_iff, Z.eqb_neq; lia).
      apply (found 4 _ ltac:(lia) eq_refl R4).
      intros m Hm. assert (m = 5) by lia. subst m. assumption. }
  replace (negb (lastAtLevel 4 0 tokens (-1) =? -1)) with false
    by (symmetry; apply negb_false_iff, Z.eqb_eq; lia).
  destruct (lastAtLevel_from_start 3 tokens) as [[E3 N3] | [P3 R3]].
  2:{ right. replace (negb (lastAtLevel 3 0 tokens (-1) =? -1)) with true
        by (symmetry; apply negb_true_iff, Z.eqb_neq; lia).
      apply (found 3 _ ltac:(lia) eq_refl R3).
      intros m Hm. assert (m = 5 \/ m = 4) as [-> | ->] by lia; assumption. }
  replace (negb (lastAtLevel 3 0 tokens (-1) =? -1)) with false
    by (symmetry; apply negb_false_iff, Z.eqb_eq; lia).
  destruct (lastAtLevel_from_start 2 tokens) as [[E2 N2] | [P2 R2]].
  2:{ right. replace (negb (lastAtLevel 2 0 tokens (-1) =? -1)) with true
        by (symmetry; apply negb_true_iff, Z.eqb_neq; lia).
      apply (found 2 _ ltac:(lia) eq_refl R2).
      intros m Hm. assert (m = 5 \/ m = 4 \/ m = 3) as [-> | [-> | ->]] by lia;
        assumption. }
  replace (negb (lastAtLevel 2 0 tokens (-1) =? -1)) with false
    by (symmetry; apply negb_false_iff, Z.eqb_eq; lia).
  destruct (lastAtLevel_from_start 1 tokens) as [[E1 N1] | [P1 R1]].
  2:{ right. apply (found 1 _ ltac:(lia) eq_refl R1).
      intros m Hm.
      assert (m = 5 \/ m = 4 \/ m = 3 \/ m = 2) as [-> | [-> | [-> | ->]]] by lia;
        assumption. }
  left. split; [lia|].
  intros k part Hk. destruct (operatorLevel part) as [l|] eqn:Hl; [|reflexivity].
  exfalso. pose proof (operatorLevel_range _ _ Hl) as Hrange.
  assert (l = 5 \/ l = 4 \/ l = 3 \/ l = 2 \/ l = 1)
    as [-> | [-> | [-> | [-> | ->]]]] by lia;
    [ apply (N5 k part) | apply (N4 k part) | apply (N3 k part)
    | apply (N2 k part) | apply (N1 k part) ]; assumption.
Qed.

(** C1 as stated fails on [a + b - c]: the two operators share level 4; the
    specification's rule picks the leftmost one (index 1), [nextOperator]
    returns the rightmost one (index 3). *)
Lemma nextOperator_not_leftmost :
  fst (nextOperator []
         [operand "a"; operator "+"; operand "b"; operator "-"; operand "c"]) = 3
  /\ spec_nextOperator
       [operand "a"; operator "+"; operand "b"; operator "-"; operand "c"] = 1.
Proof. split; reflexivity. Qed.

End ParserOperatorFacts.

(** * Facts about [Parser.readyType] *)
Module ReadyTypeFacts.
Import Ast Parser ParserHeap.

#[local] Close Scope Z_scope.

(** ** The store *)

Lemma setAt_length {A : Type} (xs : list A) (i : nat) (a : A) :
  i < List.length xs -> List.length (setAt xs i a) = List.length xs.
Proof.
  intros Hi. unfold setAt. rewrite length_app. cbn [List.length].
  rewrite length_firstn, length_skipn. lia.
Qed.

Lemma nth_error_setAt_same {A : Type} (xs : list A) (i : nat) (a : A) :
  i < List.length xs -> nth_error (setAt xs i a) i = Some a.
Proof.
  intros Hi. unfold setAt. rewrite nth_error_app2 by (rewrite length_firstn; lia).
  rewrite length_firstn. replace (i - Nat.min i (List.length xs)) with 0 by lia.
  reflexivity.
Qed.

Lemma nth_error_setAt_other {A : Type} (xs : list A) (i j : nat) (a : A) :
  j <> i -> i < List.length xs -> nth_error (setAt xs i a) j = nth_error xs j.
Proof.
  revert i j. induction xs as [|x xs IH]; intros i j Hne Hi; [cbn in Hi; lia|].
  destruct i as [|i]; destruct j as [|j]; try reflexivity; try lia.
  unfold setAt in *. cbn [firstn skipn app nth_error].
  apply IH; [lia | cbn in Hi; lia].
Qed.

Lemma setAt_same {A : Type} (xs : list A) (i : nat) (a : A) :
  nth_error xs i = Some a -> setAt xs i a = xs.
Proof.
  revert i. induction xs as [|x xs IH]; intros i H.
  - destruct i; discriminate.
  - destruct i as [|i]; cbn in H.
    + injection H as ->. reflexivity.
    + unfold setAt in *. cbn [firstn skipn app]. f_equal. apply IH. exact H.
Qed.

Lemma nth_setAt_same {A : Type} (xs : list A) (i : nat) (a d : A) :
  i < List.length xs -> nth i (setAt xs i a) d = a.
Proof.
  intros Hi. apply nth_error_nth. apply nth_error_setAt_same. exact Hi.
Qed.

Lemma nth_setAt_other {A : Type} (xs : list A) (i j : nat) (a d : A) :
  j <> i -> i < List.length xs -> nth j (setAt xs i a) d = nth j xs d.
Proof.
  intros Hne Hi. pose proof (nth_error_setAt_other xs i j a Hne Hi) as H.
  destruct (nth_error xs j) as [x|] eqn:Hx.
  - rewrite (nth_error_nth _ _ d H), (nth_error_nth _ _ d Hx). reflexivity.
  - apply nth_error_None in H. apply nth_error_None in Hx.
    rewrite !nth_overflow by assumption. reflexivity.
Qed.

Lemma lookup_nonempty (h : Heap) (l i : nat) (p : HParam) :
  nth_error (lookup h l) i = Some p -> l < List.length h.
Proof.
  intros H. destruct (Nat.lt_ge_cases l (List.length h)) as [Hl | Hl]; [exact Hl|].
  unfold lookup in H. rewrite nth_overflow in H by exact Hl.
  destruct i; discriminate.
Qed.

Lemma setPType_same (p : HParam) : setPType p (PType p) = p.
Proof. destruct p. reflexivity. Qed.

Lemma PType_setPType (p : HParam) (t : HType) : PType (setPType p t) = t.
Proof. reflexivity. Qed.

(** Writing the type an element already has changes nothing. *)
Lemma writeType_same (h : Heap) (l i : nat) (p : HParam) :
  nth_error (lookup h l) i = Some p -> writeType h l i (PType p) = Some h.
Proof.
  intros H. unfold writeType. rewrite H, setPType_same.
  rewrite (setAt_same (lookup h l) i p H).
  apply f_equal. apply setAt_same. unfold lookup.
  apply nth_error_nth'. exact (lookup_nonempty h l i p H).
Qed.

Lemma lookup_writeType_same (h h' : Heap) (l i : nat) (t : HType) :
  writeType h l i t = Some h' ->
  exists p, nth_error (lookup h l) i = Some p /\
            lookup h' l = setAt (lookup h l) i (setPType p t).
Proof.
  unfold writeType. destruct (nth_error (lookup h l) i) as [p|] eqn:Hp; [|discriminate].
  intros H. injection H as <-. exists p. split; [reflexivity|].
  unfold lookup at 1. apply nth_setAt_same. exact (lookup_nonempty h l i p Hp).
Qed.

Lemma lookup_writeType_other (h h' : Heap) (l i l' : nat) (t : HType) :
  writeType h l i t = Some h' -> l' <> l -> lookup h' l' = lookup h l'.
Proof.
  unfold writeType. destruct (nth_error (lookup h l) i) as [p|] eqn:Hp; [|discriminate].
  intros H Hne. injection H as <-. unfold lookup.
  apply nth_setAt_other; [exact Hne | exact (lookup_nonempty h l i p Hp)].
Qed.

Section Facts.

Variable DataTypeString : Heap -> HFunc -> string.
Variable types : list HTypeDecl.
Variable err : bool.

#[local] Abbreviation typeById := (ParserHeap.typeById types).
#[local] Abbreviation readyType := (ParserHeap.readyType DataTypeString types).

(** One unfolding of the fuel. *)
Lemma readyType_S (n : nat) (h : Heap) (dt : HType) (e : bool) :
  readyType (S n) h dt e =
  if String.eqb (Value dt) "" then Returned (dt, true, [], h)
  else
    match Code dt with
    | Name =>
        match typeById (Kind (Token_of dt)) with
        | None =>
            Returned (dt, false,
                      if e then pusherrtok [] (Token_of dt) "invalid_type_source"
                      else [], h)
        | Some t =>
            match sliceTo (Value dt)
                          (strlen (Value dt) - strlen (Kind (Token_of dt))) with
            | None => Panicked
            | Some pre =>
                readyType n h
                  (setValue (TypeType t) (String.append pre (Value (TypeType t)))) e
            end
        end
    | Func =>
        match Tag dt with
        | HTagFunc funAST =>
            match readyParams (fun h0 t => readyType n h0 t e)
                              (Params funAST) 0
                              (List.length (lookup h (Params funAST))) h with
            | Returned (pushed, h1) =>
                match readyType n h1 (RetType funAST) e with
                | Returned (_, _, pushed', h2) =>
                    Returned (setValue dt (DataTypeString h2 funAST), true,
                              pushed ++ pushed', h2)
                | Panicked => Panicked
                | OutOfFuel => OutOfFuel
                end
            | Panicked => Panicked
            | OutOfFuel => OutOfFuel
            end
        | _ => Panicked
        end
    | _ => Returned (dt, true, [], h)
    end.
Proof. reflexivity. Qed.

(** The parameter loop returns the same when the resolver it is given
    returns the same wherever the old one returned. *)
Lemma readyParams_mono
    (ready1 ready2 : Heap -> HType -> Outcome (HType * bool * list CompilerLog * Heap))
    (l : nat) :
  (forall h t y, ready1 h t = Returned y -> ready2 h t = Returned y) ->
  forall remaining index h z,
    readyParams ready1 l index remaining h = Returned z ->
    readyParams ready2 l index remaining h = Returned z.
Proof.
  intros Hready. induction remaining as [|rem IH]; intros index h z H; [exact H|].
  cbn [readyParams] in H |- *.
  destruct (nth_error (lookup h l) index) as [param|]; [|discriminate].
  destruct (ready1 h (PType param)) as [[[[t ok] pushed] h1]| |] eqn:H1;
    try discriminate.
  rewrite (Hready _ _ _ H1).
  destruct (writeType h1 l index t) as [h2|]; [|discriminate].
  destruct (readyParams ready1 l (S index) rem h2) as [[pushed' h3]| |] eqn:H2;
    try discriminate.
  rewrite (IH _ _ _ H2). exact H.
Qed.

(** More fuel does not change a call that returned. *)
Lemma readyType_more_fuel (n : nat) :
  forall h dt e y, readyType n h dt e = Returned y -> readyType (S n) h dt e = Returned y.
Proof.
  induction n as [|n IH]; intros h dt e y H; [discriminate|].
  rewrite readyType_S in H. rewrite readyType_S.
  destruct (String.eqb (Value dt) ""); [exact H|].
  destruct (Code dt); try exact H.
  - destruct (typeById (Kind (Token_of dt))) as [t|]; [|exact H].
    destruct (sliceTo _ _) as [pre|]; [|exact H].
    apply IH. exact H.
  - destruct (Tag dt) as [|funAST|ts]; try exact H.
    destruct (readyParams (fun h0 t => readyType n h0 t e) (Params funAST) 0
                (List.length (lookup h (Params funAST))) h)
      as [[pushed h1]| |] eqn:Hp; try discriminate.
    rewrite (readyParams_mono _ (fun h0 t => readyType (S n) h0 t e) _
               (fun h0 t y Ht => IH h0 t e y Ht) _ _ _ _ Hp).
    destruct (readyType n h1 (RetType funAST) e) as [[[[rt rok] pushed'] h2]| |] eqn:Hr;
      try discriminate.
    rewrite (IH _ _ _ _ Hr). exact H.
Qed.

Lemma readyType_fuel_le (n m : nat) (h : Heap) (dt : HType) (e : bool)
    (y : HType * bool * list CompilerLog * Heap) :
  n <= m -> readyType n h dt e = Returned y -> readyType m h dt e = Returned y.
Proof.
  intros Hle H. induction Hle as [|m Hle IH]; [exact H|].
  apply readyType_more_fuel. exact IH.
Qed.

(** Two calls that return, with whatever fuel, return the same. *)
Lemma readyType_deterministic (n m : nat) (h : Heap) (dt : HType) (e : bool)
    (y z : HType * bool * list CompilerLog * Heap) :
  readyType n h dt e = Returned y -> readyType m h dt e = Returned z -> y = z.
Proof.
  intros Hn Hm. destruct (Nat.le_ge_cases n m) as [Hle | Hle].
  - rewrite (readyType_fuel_le n m h dt e y Hle Hn) in Hm. congruence.
  - rewrite (readyType_fuel_le m n h dt e z Hle Hm) in Hn. congruence.
Qed.

(** ** Calls that leave the store as it is *)

(** [stable m h u res ok]: within depth [m], [readyType] on [u] in the
    store [h] finds every parameter type it meets already equal to its
    resolved form, so that it writes nothing new, and it returns [res] and
    [ok]. *)
Fixpoint stable (m : nat) (h : Heap) (u res : HType) (ok : bool) : Prop :=
  match m with
  | O => False
  | S m' =>
      if String.eqb (Value u) "" then res = u /\ ok = true
      else
        match Code u with
        | Name =>
            match typeById (Kind (Token_of u)) with
            | None => res = u /\ ok = false
            | Some t =>
                match sliceTo (Value u)
                              (strlen (Value u) - strlen (Kind (Token_of u))) with
                | None => False
                | Some pre =>
                    stable m' h
                      (setValue (TypeType t) (String.append pre (Value (TypeType t))))
                      res ok
                end
            end
        | Func =>
            match Tag u with
            | HTagFunc f =>
                Forall (fun p => exists ok', stable m' h (PType p) (PType p) ok')
                       (lookup h (Params f))
                /\ (exists r' ok', stable m' h (RetType f) r' ok')
                /\ res = setValue u (DataTypeString h f) /\ ok = true
            | _ => False
            end
        | _ => res = u /\ ok = true
        end
  end.

(** The arrays such a call reads. *)
Fixpoint footprint (m : nat) (h : Heap) (u : HType) : list nat :=
  match m with
  | O => []
  | S m' =>
      if String.eqb (Value u) "" then []
      else
        match Code u with
        | Name =>
            match typeById (Kind (Token_of u)) with
            | None => []
            | Some t =>
                match sliceTo (Value u)
                              (strlen (Value u) - strlen (Kind (Token_of u))) with
                | None => []
                | Some pre =>
                    footprint m' h
                      (setValue (TypeType t) (String.append pre (Value (TypeType t))))
                end
            end
        | Func =>
            match Tag u with
            | HTagFunc f =>
                Params f
                :: flat_map (fun p => footprint m' h (PType p)) (lookup h (Params f))
                ++ footprint m' h (RetType f)
            | _ => []
            end
        | _ => []
        end
  end.

Lemma readyParams_stable (n : nat) (h : Heap) (l : nat) :
  (forall p, In p (lookup h l) ->
             exists ok lg, readyType n h (PType p) err = Returned (PType p, ok, lg, h)) ->
  forall remaining index,
    index + remaining = List.length (lookup h l) ->
    exists lg,
      readyParams (fun h0 t => readyType n h0 t err) l index remaining h
      = Returned (lg, h).
Proof.
  intros Hall. induction remaining as [|rem IH]; intros index Hlen.
  - exists []. reflexivity.
  - cbn [readyParams].
    destruct (nth_error (lookup h l) index) as [param|] eqn:Hp.
    2:{ apply nth_error_None in Hp. lia. }
    destruct (Hall param (nth_error_In _ _ Hp)) as (ok & lg & Hrun).
    rewrite Hrun, (writeType_same h l index param Hp).
    destruct (IH (S index) ltac:(lia)) as [lg' Hrest].
    rewrite Hrest. eexists. reflexivity.
Qed.

(** Such a call is a call of [readyType] that returns the store it was
    given. *)
Lemma stable_sound (m : nat) :
  forall h u res ok,
    stable m h u res ok ->
    exists lg, readyType m h u err = Returned (res, ok, lg, h).
Proof.
  induction m as [|m IH]; intros h u res ok H; [contradiction|].
  rewrite readyType_S. cbn [stable] in H.
  destruct (String.eqb (Value u) "").
  { destruct H as [-> ->]. eexists. reflexivity. }
  destruct (Code u); try (destruct H as [-> ->]; eexists; reflexivity).
  - destruct (typeById (Kind (Token_of u))) as [t|].
    + destruct (sliceTo _ _) as [pre|]; [|contradiction]. apply IH. exact H.
    + destruct H as [-> ->]. eexists. reflexivity.
  - destruct (Tag u) as [|f|ts]; try contradiction.
    destruct H as (Hparams & (r' & ok' & Hret) & -> & ->).
    destruct (readyParams_stable m h (Params f)) with
      (remaining := List.length (lookup h (Params f))) (index := 0) as [lg1 Hloop].
    { intros p Hin. rewrite Forall_forall in Hparams.
      destruct (Hparams p Hin) as [okp Hp]. destruct (IH _ _ _ _ Hp) as [lg Hrun].
      exists okp, lg. exact Hrun. }
    { reflexivity. }
    rewrite Hloop. destruct (IH _ _ _ _ Hret) as [lg2 Hrun]. rewrite Hrun.
    eexists. reflexivity.
Qed.

Lemma stable_more_fuel (m : nat) :
  forall h u res ok, stable m h u res ok -> stable (S m) h u res ok.
Proof.
  induction m as [|m IH]; intros h u res ok H; [contradiction|].
  cbn [stable] in H. change (stable (S (S m)) h u res ok) with
    (if String.eqb (Value u) "" then res = u /\ ok = true
     else
       match Code u with
       | Name =>
           match typeById (Kind (Token_of u)) with
           | None => res = u /\ ok = false
           | Some t =>
               match sliceTo (Value u)
                             (strlen (Value u) - strlen (Kind (Token_of u))) with
               | None => False
               | Some pre =>
                   stable (S m) h
                     (setValue (TypeType t) (String.append pre (Value (TypeType t))))
                     res ok
               end
           end
       | Func =>
           match Tag u with
           | HTagFunc f =>
               Forall (fun p => exists ok', stable (S m) h (PType p) (PType p) ok')
                      (lookup h (Params f))
               /\ (exists r' ok', stable (S m) h (RetType f) r' ok')
               /\ res = setValue u (DataTypeString h f) /\ ok = true
           | _ => False
           end
       | _ => res = u /\ ok = true
       end).
  destruct (String.eqb (Value u) ""); [exact H|].
  destruct (Code u); try exact H.
  - destruct (typeById (Kind (Token_of u))) as [t|]; [|exact H].
    destruct (sliceTo _ _) as [pre|]; [|exact H]. apply IH. exact H.
  - destruct (Tag u) as [|f|ts]; try exact H.
    destruct H as (Hparams & (r' & ok' & Hret) & Hres).
    split; [|split; [|exact Hres]].
    + eapply Forall_impl; [|exact Hparams].
      intros p [okp Hp]. exists okp. apply IH. exact Hp.
    + exists r', ok'. apply IH. exact Hret.
Qed.

(** The entries of an array such a call reads are resolved. *)
Lemma stable_entries (m : nat) :
  forall h u res ok l,
    stable m h u res ok -> In l (footprint m h u) ->
    forall p, In p (lookup h l) ->
              exists m' ok', stable m' h (PType p) (PType p) ok'.
Proof.
  induction m as [|m IH]; intros h u res ok l H Hin p Hp; [contradiction|].
  cbn [stable] in H. cbn [footprint] in Hin.
  destruct (String.eqb (Value u) ""); [contradiction|].
  destruct (Code u); try contradiction.
  - destruct (typeById (Kind (Token_of u))) as [t|]; [|contradiction].
    destruct (sliceTo _ _) as [pre|]; [|contradiction].
    exact (IH _ _ _ _ _ H Hin p Hp).
  - destruct (Tag u) as [|f|ts]; try contradiction.
    destruct H as (Hparams & (r' & ok' & Hret) & _).
    rewrite Forall_forall in Hparams.
    destruct Hin as [<- | Hin].
    + destruct (Hparams p Hp) as [okp Hs]. exists m, okp. exact Hs.
    + apply in_app_or in Hin. destruct Hin as [Hin | Hin].
      * apply in_flat_map in Hin. destruct Hin as (q & Hq & Hin).
        destruct (Hparams q Hq) as [okq Hs]. exact (IH _ _ _ _ _ Hs Hin p Hp).
      * exact (IH _ _ _ _ _ Hret Hin p Hp).
Qed.

(** The lexeme of a function type depends on the store through the
    function's own parameter array. *)
Hypothesis DataTypeString_local :
  forall h h' f,
    lookup h' (Params f) = lookup h (Params f) ->
    DataTypeString h' f = DataTypeString h f.

(** A store that agrees on the arrays read gives the same call. *)
Lemma stable_agree (m : nat) :
  forall h h' u res ok,
    stable m h u res ok ->
    (forall l, In l (footprint m h u) -> lookup h' l = lookup h l) ->
    stable m h' u res ok /\ footprint m h' u = footprint m h u.
Proof.
  induction m as [|m IH]; intros h h' u res ok H Hagree; [contradiction|].
  cbn [stable footprint] in H, Hagree |- *.
  destruct (String.eqb (Value u) ""); [split; [exact H | reflexivity]|].
  destruct (Code u); try (split; [exact H | reflexivity]).
  - destruct (typeById (Kind (Token_of u))) as [t|]; [|split; [exact H | reflexivity]].
    destruct (sliceTo _ _) as [pre|]; [|contradiction].
    exact (IH _ _ _ _ _ H Hagree).
  - destruct (Tag u) as [|f|ts]; try contradiction.
    destruct H as (Hparams & (r' & ok' & Hret) & -> & ->).
    assert (Hl : lookup h' (Params f) = lookup h (Params f))
      by (apply Hagree; left; reflexivity).
    rewrite Forall_forall in Hparams.
    assert (Hps : forall p, In p (lookup h (Params f)) ->
                    (exists okp, stable m h' (PType p) (PType p) okp) /\
                    footprint m h' (PType p) = footprint m h (PType p)).
    { intros p Hp. destruct (Hparams p Hp) as [okp Hs].
      destruct (IH h h' _ _ _ Hs) as [Hs' Hf'].
      - intros l Hin. apply Hagree. right. apply in_or_app. left.
        apply in_flat_map. exists p. split; assumption.
      - split; [exists okp; exact Hs' | exact Hf']. }
    destruct (IH h h' _ _ _ Hret) as [Hret' Hfret].
    { intros l Hin. apply Hagree. right. apply in_or_app. right. exact Hin. }
    rewrite Hl. split.
    + split; [|split; [|split; [|reflexivity]]].
      * apply Forall_forall. intros p Hp. exact (proj1 (Hps p Hp)).
      * exists r', ok'. exact Hret'.
      * rewrite (DataTypeString_local h h' f Hl). reflexivity.
    + f_equal. f_equal; [|exact Hfret].
      clear - Hps. induction (lookup h (Params f)) as [|p ps IHp]; [reflexivity|].
      cbn [flat_map]. rewrite (proj2 (Hps p (or_introl eq_refl))).
      f_equal. apply IHp. intros q Hq. apply Hps. right. exact Hq.
Qed.


(** ** What a call may change *)

(** A call changes no array that a call leaving the store as it is reads:
    whatever it writes there is the resolved type already in place. *)
Definition preserves (n : nat) : Prop :=
  forall h t r ok lg h',
    readyType n h t err = Returned (r, ok, lg, h') ->
    forall m u res oku,
      stable m h u res oku ->
      forall l, In l (footprint m h u) -> lookup h' l = lookup h l.

Lemma readyParams_preserves (n : nat) (l : nat) :
  preserves n ->
  forall remaining index h lg h',
    readyParams (fun h0 t => readyType n h0 t err) l index remaining h
    = Returned (lg, h') ->
    forall m u res oku,
      stable m h u res oku ->
      forall l0, In l0 (footprint m h u) -> lookup h' l0 = lookup h l0.
Proof.
  intros Hpres. induction remaining as [|rem IH]; intros index h lg h' H m u res oku Hs l0 Hl0.
  - injection H as _ <-. reflexivity.
  - cbn [readyParams] in H.
    destruct (nth_error (lookup h l) index) as [param|] eqn:Hp; [|discriminate].
    destruct (readyType n h (PType param) err) as [[[[t okt] pushed] h1]| |] eqn:Hrun;
      try discriminate.
    destruct (writeType h1 l index t) as [h2|] eqn:Hw; [|discriminate].
    destruct (readyParams _ l (S index) rem h2) as [[pushed' h3]| |] eqn:Hrest;
      try discriminate.
    injection H as _ <-.
    pose proof (Hpres _ _ _ _ _ _ Hrun _ _ _ _ Hs) as H1.
    assert (H2 : forall l1, In l1 (footprint m h u) -> lookup h2 l1 = lookup h l1).
    { destruct (in_dec Nat.eq_dec l (footprint m h u)) as [Hin | Hout].
      - destruct (stable_entries _ _ _ _ _ _ Hs Hin param (nth_error_In _ _ Hp))
          as (m' & ok' & Hsp).
        destruct (stable_sound _ _ _ _ _ Hsp) as [lgp Hsound].
        pose proof (readyType_deterministic _ _ _ _ _ _ _ Hrun Hsound) as Heq.
        injection Heq as -> _ _ ->.
        rewrite (writeType_same h l index param Hp) in Hw. injection Hw as <-.
        reflexivity.
      - intros l1 Hl1. rewrite <- (H1 l1 Hl1).
        apply (lookup_writeType_other h1 h2 l index l1 t Hw).
        intros ->. contradiction. }
    destruct (stable_agree m h h2 u res oku Hs H2) as [Hs2 Hf2].
    rewrite (IH _ _ _ _ Hrest m u res oku Hs2 l0); [apply H2; exact Hl0|].
    rewrite Hf2. exact Hl0.
Qed.

Lemma readyType_preserves (n : nat) : preserves n.
Proof.
  induction n as [|n IH]; intros h t r ok lg h' H m u res oku Hs l Hl; [discriminate|].
  rewrite readyType_S in H.
  destruct (String.eqb (Value t) ""); [injection H as _ _ _ <-; reflexivity|].
  destruct (Code t); try (injection H as _ _ _ <-; reflexivity).
  - destruct (typeById (Kind (Token_of t))) as [td|];
      [|injection H as _ _ _ <-; reflexivity].
    destruct (sliceTo _ _) as [pre|]; [|discriminate].
    exact (IH _ _ _ _ _ _ H _ _ _ _ Hs l Hl).
  - destruct (Tag t) as [|f|ts]; try discriminate.
    destruct (readyParams _ (Params f) 0 _ h) as [[pushed h1]| |] eqn:Hloop;
      try discriminate.
    destruct (readyType n h1 (RetType f) err) as [[[[r' ok'] pushed'] h2]| |] eqn:Hret;
      try discriminate.
    injection H as _ _ _ <-.
    pose proof (readyParams_preserves n (Params f) IH _ _ _ _ _ Hloop _ _ _ _ Hs) as H1.
    destruct (stable_agree m h h1 u res oku Hs H1) as [Hs1 Hf1].
    rewrite (IH _ _ _ _ _ _ Hret _ _ _ _ Hs1 l); [apply H1; exact Hl|].
    rewrite Hf1. exact Hl.
Qed.


Lemma stable_after_call (n : nat) (h : Heap) (t r : HType) (ok : bool)
    (lg : list CompilerLog) (h' : Heap) (m : nat) (u res : HType) (oku : bool) :
  readyType n h t err = Returned (r, ok, lg, h') ->
  stable m h u res oku ->
  stable m h' u res oku /\ footprint m h' u = footprint m h u.
Proof.
  intros Hrun Hs. apply stable_agree; [exact Hs|].
  exact (readyType_preserves n _ _ _ _ _ _ Hrun _ _ _ _ Hs).
Qed.

(** A call changes no array whose entries are all resolved. *)
Lemma readyType_keeps_resolved (n : nat) (h : Heap) (t r : HType) (ok : bool)
    (lg : list CompilerLog) (h' : Heap) (m : nat) (l : nat) :
  readyType n h t err = Returned (r, ok, lg, h') ->
  (forall p, In p (lookup h l) -> exists okp, stable m h (PType p) (PType p) okp) ->
  lookup h' l = lookup h l.
Proof.
  intros Hrun Hall.
  pose (u := mkHType noToken Func "fn" false
               (HTagFunc (mkHFunc noToken "" l
                            (mkHType noToken Void "" false HTagNil)))).
  assert (Hs : stable (S (S m)) h u (setValue u (DataTypeString h
                 (mkHFunc noToken "" l (mkHType noToken Void "" false HTagNil)))) true).
  { cbn [stable u Value Code Tag String.eqb Params RetType].
    split; [|split; [|split; reflexivity]].
    - apply Forall_forall. intros p Hp. destruct (Hall p Hp) as [okp Hsp].
      exists okp. apply stable_more_fuel. exact Hsp.
    - eexists. exists true. split; reflexivity. }
  apply (readyType_preserves n _ _ _ _ _ _ Hrun _ _ _ _ Hs).
  left. reflexivity.
Qed.

(** ** Stores without cycles *)

(** [rank] orders the arrays: an array holds function types over arrays of
    smaller rank only, so that no parameter list reaches itself. *)
Variable rank : nat -> nat.

(** [Bounded k t]: the arrays [readyType] loops over from [t], through the
    aliases it follows, have a rank below [k]. *)
Inductive Bounded (k : nat) : HType -> Prop :=
| Bounded_plain (t : HType) :
    Code t <> Name -> Code t <> Func -> Bounded k t
| Bounded_unknown (t : HType) :
    Code t = Name -> typeById (Kind (Token_of t)) = None -> Bounded k t
| Bounded_alias (t : HType) (td : HTypeDecl) :
    Code t = Name -> typeById (Kind (Token_of t)) = Some td ->
    Bounded k (TypeType td) -> Bounded k t
| Bounded_func (t : HType) (f : HFunc) :
    Code t = Func -> Tag t = HTagFunc f ->
    rank (Params f) < k -> Bounded k (RetType f) -> Bounded k t
| Bounded_nofunc (t : HType) :
    Code t = Func -> (forall f, Tag t <> HTagFunc f) -> Bounded k t.

Definition WF (h : Heap) : Prop :=
  forall l p, In p (lookup h l) -> Bounded (rank l) (PType p).

Lemma Bounded_setValue (k : nat) (t : HType) (v : string) :
  Bounded k t -> Bounded k (setValue t v).
Proof.
  intros H. destruct t as [tok c val mt tag]. inversion H; subst.
  - apply Bounded_plain; assumption.
  - apply Bounded_unknown; assumption.
  - eapply Bounded_alias; eassumption.
  - eapply Bounded_func; eassumption.
  - apply Bounded_nofunc; assumption.
Qed.

Lemma Bounded_alias_inv (k : nat) (t : HType) (td : HTypeDecl) :
  Bounded k t -> Code t = Name -> typeById (Kind (Token_of t)) = Some td ->
  Bounded k (TypeType td).
Proof.
  intros H Hc Ht. inversion H; subst; try congruence.
Qed.

Lemma Bounded_func_inv (k : nat) (t : HType) (f : HFunc) :
  Bounded k t -> Code t = Func -> Tag t = HTagFunc f ->
  rank (Params f) < k /\ Bounded k (RetType f).
Proof.
  intros H Hc Ht. inversion H; subst; try congruence.
  replace f with f0 by congruence. split; assumption.
Qed.

Lemma In_setAt {A : Type} (xs : list A) (i : nat) (a x : A) :
  In x (setAt xs i a) -> x = a \/ In x xs.
Proof.
  unfold setAt. intros H. apply in_app_or in H. destruct H as [H | [H | H]].
  - right. rewrite <- (firstn_skipn i xs). apply in_or_app. left. exact H.
  - left. symmetry. exact H.
  - right. rewrite <- (firstn_skipn (S i) xs). apply in_or_app. right. exact H.
Qed.

Lemma WF_writeType (h h' : Heap) (l i : nat) (t : HType) :
  WF h -> Bounded (rank l) t -> writeType h l i t = Some h' -> WF h'.
Proof.
  intros Hwf Hb Hw l' p Hp.
  destruct (Nat.eq_dec l' l) as [-> | Hne].
  - destruct (lookup_writeType_same h h' l i t Hw) as (q & Hq & Hl).
    rewrite Hl in Hp. apply In_setAt in Hp. destruct Hp as [-> | Hp].
    + rewrite PType_setPType. exact Hb.
    + exact (Hwf l p Hp).
  - rewrite (lookup_writeType_other h h' l i l' t Hw Hne) in Hp. exact (Hwf l' p Hp).
Qed.

(** What a call on a type bounded by [k] leaves alone: the arrays of rank
    [k] and more. *)
Definition framed (n : nat) : Prop :=
  forall h t k r ok lg h',
    WF h -> Bounded k t ->
    readyType n h t err = Returned (r, ok, lg, h') ->
    WF h' /\ Bounded k r /\ (forall l, k <= rank l -> lookup h' l = lookup h l).

Lemma readyParams_framed (n : nat) (l : nat) :
  framed n ->
  forall remaining index h lg h',
    WF h ->
    readyParams (fun h0 t => readyType n h0 t err) l index remaining h
    = Returned (lg, h') ->
    WF h' /\
    (forall l', rank l <= rank l' -> l' <> l -> lookup h' l' = lookup h l') /\
    List.length (lookup h' l) = List.length (lookup h l) /\
    (forall j, j < index -> nth_error (lookup h' l) j = nth_error (lookup h l) j).
Proof.
  intros Hfr. induction remaining as [|rem IH]; intros index h lg h' Hwf H.
  - injection H as _ <-. repeat split; try reflexivity; exact Hwf.
  - cbn [readyParams] in H.
    destruct (nth_error (lookup h l) index) as [param|] eqn:Hp; [|discriminate].
    destruct (readyType n h (PType param) err) as [[[[t okt] pushed] h1]| |] eqn:Hrun;
      try discriminate.
    destruct (writeType h1 l index t) as [h2|] eqn:Hw; [|discriminate].
    destruct (readyParams _ l (S index) rem h2) as [[pushed' h3]| |] eqn:Hrest;
      try discriminate.
    injection H as _ <-.
    destruct (Hfr _ _ (rank l) _ _ _ _ Hwf (Hwf l param (nth_error_In _ _ Hp)) Hrun)
      as (Hwf1 & Hbt & Hsame1).
    pose proof (WF_writeType h1 h2 l index t Hwf1 Hbt Hw) as Hwf2.
    destruct (IH (S index) h2 _ _ Hwf2 Hrest) as (Hwf3 & Hsame3 & Hlen3 & Hpre3).
    destruct (lookup_writeType_same h1 h2 l index t Hw) as (q & Hq & Hl2).
    rewrite (Hsame1 l (le_n _)) in Hq, Hl2.
    assert (Hi : index < List.length (lookup h l))
      by (apply nth_error_Some; congruence).
    split; [exact Hwf3|]. split; [|split].
    + intros l' Hr Hne. rewrite (Hsame3 l' Hr Hne).
      rewrite (lookup_writeType_other h1 h2 l index l' t Hw Hne).
      apply Hsame1. exact Hr.
    + rewrite Hlen3, Hl2. apply setAt_length. exact Hi.
    + intros j Hj. rewrite (Hpre3 j (Nat.lt_lt_succ_r _ _ Hj)), Hl2.
      apply nth_error_setAt_other; [lia | exact Hi].
Qed.

Lemma readyType_framed (n : nat) : framed n.
Proof.
  induction n as [|n IH]; intros h t k r ok lg h' Hwf Hb H; [discriminate|].
  rewrite readyType_S in H.
  destruct (String.eqb (Value t) "");
    [injection H as <- _ _ <-; repeat split; auto|].
  destruct (Code t) eqn:Hc;
    try (injection H as <- _ _ <-; repeat split; auto; fail).
  - destruct (typeById (Kind (Token_of t))) as [td|] eqn:Htd;
      [|injection H as <- _ _ <-; repeat split; auto].
    destruct (sliceTo _ _) as [pre|]; [|discriminate].
    apply (IH _ _ k _ _ _ _ Hwf) in H; [exact H|].
    apply Bounded_setValue. exact (Bounded_alias_inv k t td Hb Hc Htd).
  - destruct (Tag t) as [|f|ts] eqn:Htag; try discriminate.
    destruct (readyParams _ (Params f) 0 _ h) as [[pushed h1]| |] eqn:Hloop;
      try discriminate.
    destruct (readyType n h1 (RetType f) err) as [[[[r' ok'] pushed'] h2]| |] eqn:Hret;
      try discriminate.
    injection H as <- _ _ <-.
    destruct (Bounded_func_inv k t f Hb Hc Htag) as [Hrank Hbret].
    destruct (readyParams_framed n (Params f) IH _ _ _ _ _ Hwf Hloop)
      as (Hwf1 & Hsame1 & _ & _).
    destruct (IH _ _ k _ _ _ _ Hwf1 Hbret Hret) as (Hwf2 & _ & Hsame2).
    split; [exact Hwf2|]. split; [apply Bounded_setValue; exact Hb|].
    intros l Hl. rewrite (Hsame2 l Hl). apply Hsame1; [lia|].
    intros ->. lia.
Qed.

(** The arrays read from a bounded type have a rank below the bound. *)
Lemma footprint_rank (m : nat) :
  forall h u k l, WF h -> Bounded k u -> In l (footprint m h u) -> rank l < k.
Proof.
  induction m as [|m IH]; intros h u k l Hwf Hb Hin; [contradiction|].
  cbn [footprint] in Hin.
  destruct (String.eqb (Value u) ""); [contradiction|].
  destruct (Code u) eqn:Hc; try contradiction.
  - destruct (typeById (Kind (Token_of u))) as [td|] eqn:Htd; [|contradiction].
    destruct (sliceTo _ _) as [pre|]; [|contradiction].
    refine (IH h _ k l Hwf _ Hin).
    apply Bounded_setValue. exact (Bounded_alias_inv k u td Hb Hc Htd).
  - destruct (Tag u) as [|f|ts] eqn:Htag; try contradiction.
    destruct (Bounded_func_inv k u f Hb Hc Htag) as [Hrank Hbret].
    destruct Hin as [<- | Hin]; [exact Hrank|].
    apply in_app_or in Hin. destruct Hin as [Hin | Hin].
    + apply in_flat_map in Hin. destruct Hin as (p & Hp & Hin).
      pose proof (IH h _ _ l Hwf (Hwf _ p Hp) Hin). lia.
    + exact (IH h _ k l Hwf Hbret Hin).
Qed.

Lemma stable_after_write (h h' : Heap) (l i : nat) (t : HType) (m : nat)
    (u res : HType) (oku : bool) :
  WF h -> Bounded (rank l) u -> writeType h l i t = Some h' ->
  stable m h u res oku -> stable m h' u res oku.
Proof.
  intros Hwf Hb Hw Hs. apply (stable_agree m h h' u res oku Hs).
  intros l1 Hl1. apply (lookup_writeType_other h h' l i l1 t Hw).
  intros ->. pose proof (footprint_rank m h u (rank l) l Hwf Hb Hl1). lia.
Qed.


(** ** The result of a call is resolved *)

(** After a call the result is a type that a further call leaves as it is,
    store included; and the argument itself now resolves to that result
    without a write. *)
Definition resolves (n : nat) : Prop :=
  forall h t k r ok lg h',
    WF h -> Bounded k t ->
    readyType n h t err = Returned (r, ok, lg, h') ->
    stable n h' r r ok /\ stable n h' t r ok.

Lemma readyParams_resolves (n : nat) (l : nat) :
  resolves n ->
  forall remaining index h lg h',
    WF h ->
    (forall j p, j < index -> nth_error (lookup h l) j = Some p ->
                 exists okp, stable n h (PType p) (PType p) okp) ->
    index + remaining = List.length (lookup h l) ->
    readyParams (fun h0 t => readyType n h0 t err) l index remaining h
    = Returned (lg, h') ->
    forall p, In p (lookup h' l) -> exists okp, stable n h' (PType p) (PType p) okp.
Proof.
  intros Hres. induction remaining as [|rem IH]; intros index h lg h' Hwf Hpre Hlen H.
  - injection H as _ <-. intros p Hp. apply In_nth_error in Hp. destruct Hp as [j Hj].
    apply (Hpre j p); [|exact Hj].
    assert (j < List.length (lookup h l)) by (apply nth_error_Some; congruence). lia.
  - cbn [readyParams] in H.
    destruct (nth_error (lookup h l) index) as [param|] eqn:Hp; [|discriminate].
    destruct (readyType n h (PType param) err) as [[[[t okt] pushed] h1]| |] eqn:Hrun;
      try discriminate.
    destruct (writeType h1 l index t) as [h2|] eqn:Hw; [|discriminate].
    destruct (readyParams _ l (S index) rem h2) as [[pushed' h3]| |] eqn:Hrest;
      try discriminate.
    injection H as _ <-.
    pose proof (Hwf l param (nth_error_In _ _ Hp)) as Hbp.
    destruct (readyType_framed n _ _ (rank l) _ _ _ _ Hwf Hbp Hrun)
      as (Hwf1 & Hbt & Hsame1).
    destruct (Hres _ _ (rank l) _ _ _ _ Hwf Hbp Hrun) as [Hst _].
    pose proof (WF_writeType h1 h2 l index t Hwf1 Hbt Hw) as Hwf2.
    destruct (lookup_writeType_same h1 h2 l index t Hw) as (q & Hq & Hl2).
    rewrite (Hsame1 l (le_n _)) in Hq, Hl2.
    assert (Hi : index < List.length (lookup h l))
      by (apply nth_error_Some; congruence).
    refine (IH (S index) h2 pushed' h3 Hwf2 _ _ Hrest).
    + intros j p Hj Hjp. rewrite Hl2 in Hjp.
      destruct (Nat.eq_dec j index) as [-> | Hne].
      * rewrite (nth_error_setAt_same _ _ _ Hi) in Hjp. injection Hjp as <-.
        rewrite PType_setPType. exists okt.
        exact (stable_after_write h1 h2 l index t n t t okt Hwf1 Hbt Hw Hst).
      * rewrite (nth_error_setAt_other _ _ _ _ Hne Hi) in Hjp.
        destruct (Hpre j p ltac:(lia) Hjp) as [okp Hsp]. exists okp.
        apply (stable_after_write h1 h2 l index t n _ _ okp Hwf1); [|exact Hw|].
        -- exact (Hwf l p (nth_error_In _ _ Hjp)).
        -- exact (proj1 (stable_after_call n h _ _ _ _ h1 n _ _ okp Hrun Hsp)).
    + rewrite Hl2, (setAt_length _ _ _ Hi). lia.
Qed.

Lemma setValue_setValue (t : HType) (v w : string) :
  setValue (setValue t v) w = setValue t w.
Proof. destruct t. reflexivity. Qed.

Lemma readyType_resolves (n : nat) : resolves n.
Proof.
  induction n as [|n IH]; intros h t k r ok lg h' Hwf Hb H; [discriminate|].
  rewrite readyType_S in H. cbn [stable].
  destruct (String.eqb (Value t) "") eqn:Hv.
  { injection H as <- <- _ <-. rewrite Hv. repeat split. }
  destruct (Code t) eqn:Hc;
    try (injection H as <- <- _ <-; rewrite Hv, Hc; repeat split; fail).
  - destruct (typeById (Kind (Token_of t))) as [td|] eqn:Htd.
    + destruct (sliceTo _ _) as [pre|]; [|discriminate].
      assert (Hbt : Bounded k (setValue (TypeType td)
                                 (String.append pre (Value (TypeType td)))))
        by (apply Bounded_setValue; exact (Bounded_alias_inv k t td Hb Hc Htd)).
      destruct (IH _ _ k _ _ _ _ Hwf Hbt H) as [HA HB].
      split; [|exact HB].
      exact (stable_more_fuel n h' r r ok HA).
    + injection H as <- <- _ <-. rewrite Hv, Hc, Htd. repeat split.
  - destruct (Tag t) as [|f|ts] eqn:Htag; try discriminate.
    destruct (readyParams _ (Params f) 0 _ h) as [[pushed h1]| |] eqn:Hloop;
      try discriminate.
    destruct (readyType n h1 (RetType f) err) as [[[[r' ok'] pushed'] h2]| |] eqn:Hret;
      try discriminate.
    injection H as <- <- _ <-.
    destruct (Bounded_func_inv k t f Hb Hc Htag) as [Hrank Hbret].
    destruct (readyParams_framed n (Params f) (readyType_framed n) _ _ _ _ _ Hwf Hloop)
      as (Hwf1 & _ & _ & _).
    assert (Hps1 : forall p, In p (lookup h1 (Params f)) ->
                     exists okp, stable n h1 (PType p) (PType p) okp).
    { refine (readyParams_resolves n (Params f) IH _ 0 h pushed h1 Hwf _ _ Hloop).
      - intros j p Hj. lia.
      - reflexivity. }
    pose proof (readyType_keeps_resolved n h1 _ _ _ _ h2 n (Params f) Hret Hps1) as Hl2.
    assert (Hps2 : Forall (fun p => exists okp, stable n h2 (PType p) (PType p) okp)
                          (lookup h2 (Params f))).
    { apply Forall_forall. intros p Hp. rewrite Hl2 in Hp.
      destruct (Hps1 p Hp) as [okp Hsp]. exists okp.
      exact (proj1 (stable_after_call n h1 _ _ _ _ h2 n _ _ okp Hret Hsp)). }
    destruct (IH _ _ k _ _ _ _ Hwf1 Hbret Hret) as [_ HB].
    split.
    + destruct (String.eqb (Value (setValue t (DataTypeString h2 f))) "");
        [split; reflexivity|].
      change (Code (setValue t (DataTypeString h2 f))) with (Code t).
      change (Tag (setValue t (DataTypeString h2 f))) with (Tag t).
      rewrite Hc, Htag. split; [exact Hps2|]. split; [exists r', ok'; exact HB|].
      split; [|reflexivity]. rewrite setValue_setValue. reflexivity.
    + split; [exact Hps2|]. split; [exists r', ok'; exact HB|].
      split; reflexivity.
Qed.

(** C5: [readyType] is idempotent.  When [readyType(t)] returns [r] and [ok],
    [readyType(r)] returns [r] and the same [ok] again, within the same
    recursion depth, and it leaves every array as the first call left it:
    each write of the second call puts a resolved type where it already
    stands.  This is shown for a store whose parameter arrays do not reach
    themselves ([WF], with [t] bounded by some rank; every type built from
    source text is of this kind, a parameter list being a fresh array), and
    for a lexeme function [DataTypeString] that reads the store through the
    function's own parameter array only. *)
Theorem readyType_idempotent (fuel : nat) (h : Heap) (dt : HType) (k : nat)
    (r : HType) (ok : bool) (pushed : list CompilerLog) (h' : Heap) :
  WF h -> Bounded k dt ->
  readyType fuel h dt err = Returned (r, ok, pushed, h') ->
  exists pushed', readyType fuel h' r err = Returned (r, ok, pushed', h').
Proof.
  intros Hwf Hb H.
  destruct (readyType_resolves fuel _ _ k _ _ _ _ Hwf Hb H) as [HA _].
  exact (stable_sound fuel h' r r ok HA).
Qed.

End Facts.


(** Concrete runs, with [type A *i32] declared.  (The lexeme function used
    here for function types lists the parameter lexemes, then the lexeme of
    the result type.) *)
Definition ptrI32 : HType := mkHType (mkToken OtherId "i32" 1 6) I32 "*i32" false HTagNil.

Definition exampleTypes : list HTypeDecl := [mkHTypeDecl noToken "A" ptrI32].

Definition exampleDataTypeString (h : Heap) (f : HFunc) : string :=
  String.append "fn("
    (String.append
       (String.concat "," (map (fun p => Value (PType p)) (lookup h (Params f))))
       (String.append ")" (Value (RetType f)))).

Definition zeroHType : HType := mkHType noToken Void "" false HTagNil.

Definition nameA (row : Z) : HType := mkHType (mkToken Id "A" row 4) Name "A" false HTagNil.

Definition param (id : string) (t : HType) : HParam := mkHParam noToken id false false false t.

(** [fn(A)] over the array [l]. *)
Definition fnOfA (l : nat) : HType :=
  mkHType noToken Func "fn(A)" false (HTagFunc (mkHFunc noToken "g" l zeroHType)).

(** [fn(cb fn(x A)) fn(y A)]: the array 0 holds [x], the array 1 holds [y],
    the array 2 holds [cb]. *)
Definition exampleStore : Heap :=
  [[param "x" (nameA 3)]; [param "y" (nameA 4)]; [param "cb" (fnOfA 0)]].

Definition fnOfFn : HType :=
  mkHType noToken Func "fn(fn(A))fn(A)" false (HTagFunc (mkHFunc noToken "f" 2 (fnOfA 1))).

Definition resolvedStore : Heap :=
  [[param "x" ptrI32]; [param "y" ptrI32]; [param "cb" (setValue (fnOfA 0) "fn(*i32)")]].

(** The parameter of the result type is resolved in its array, although the
    resolved result type itself is dropped: the lexeme of the function type
    still ends in [fn(A)]. *)
Example readyType_fnOfFn :
  readyType exampleDataTypeString exampleTypes 5 exampleStore fnOfFn true =
  Returned (setValue fnOfFn "fn(fn(*i32))fn(A)", true, [], resolvedStore).
Proof. reflexivity. Qed.

(** A function type and its result type over one array: it is resolved
    once, for both. *)
Example readyType_shared_array :
  readyType exampleDataTypeString exampleTypes 4 [[param "x" (nameA 3)]]
    (mkHType noToken Func "fn(A)fn(A)" false (HTagFunc (mkHFunc noToken "f" 0 (fnOfA 0))))
    true =
  Returned (mkHType noToken Func "fn(*i32)fn(A)" false
              (HTagFunc (mkHFunc noToken "f" 0 (fnOfA 0))),
            true, [], [[param "x" ptrI32]]).
Proof. reflexivity. Qed.

(** With [type F fn(A)] declared over the array 0, resolving a use of [F]
    rewrites the parameter of the declaration, through the copy [typeById]
    returns. *)
Example readyType_alias_rewritten :
  readyType exampleDataTypeString
    [mkHTypeDecl noToken "A" ptrI32; mkHTypeDecl noToken "F" (fnOfA 0)] 5
    [[param "x" (nameA 3)]]
    (mkHType (mkToken Id "F" 7 1) Name "F" false HTagNil) true =
  Returned (setValue (fnOfA 0) "fn(*i32)", true, [], [[param "x" ptrI32]]).
Proof. reflexivity. Qed.

Lemma exampleDataTypeString_local (h h' : Heap) (f : HFunc) :
  lookup h' (Params f) = lookup h (Params f) ->
  exampleDataTypeString h' f = exampleDataTypeString h f.
Proof. intros H. unfold exampleDataTypeString. rewrite H. reflexivity. Qed.

Lemma nameA_Bounded (k : nat) (row : Z) : Bounded exampleTypes (fun l => l) k (nameA row).
Proof.
  apply (Bounded_alias exampleTypes (fun l => l) k _ (mkHTypeDecl noToken "A" ptrI32));
    try reflexivity.
  apply Bounded_plain; discriminate.
Qed.

Lemma fnOfA_Bounded (k l : nat) : l < k -> Bounded exampleTypes (fun l => l) k (fnOfA l).
Proof.
  intros Hl.
  apply (Bounded_func exampleTypes (fun l => l) k (fnOfA l) (mkHFunc noToken "g" l zeroHType));
    try reflexivity; [exact Hl|].
  apply Bounded_plain; discriminate.
Qed.

Lemma exampleStore_WF : WF exampleTypes (fun l => l) exampleStore.
Proof.
  intros l p Hp. destruct l as [|[|[|[|l]]]]; cbn in Hp; try contradiction;
    destruct Hp as [<- | []].
  - apply nameA_Bounded.
  - apply nameA_Bounded.
  - apply fnOfA_Bounded. lia.
Qed.

Lemma fnOfFn_Bounded : Bounded exampleTypes (fun l => l) 3 fnOfFn.
Proof.
  apply (Bounded_func exampleTypes (fun l => l) 3 fnOfFn
           (mkHFunc noToken "f" 2 (fnOfA 1))); try reflexivity; [cbn; lia|].
  apply fnOfA_Bounded. lia.
Qed.

Lemma readyType_idempotent_witness :
  readyType exampleDataTypeString exampleTypes 5 exampleStore fnOfFn true =
    Returned (setValue fnOfFn "fn(fn(*i32))fn(A)", true, [], resolvedStore)
  /\ exists pushed',
      readyType exampleDataTypeString exampleTypes 5 resolvedStore
        (setValue fnOfFn "fn(fn(*i32))fn(A)") true =
      Returned (setValue fnOfFn "fn(fn(*i32))fn(A)", true, pushed', resolvedStore).
Proof.
  split; [reflexivity|].
  apply (readyType_idempotent exampleDataTypeString exampleTypes true
           exampleDataTypeString_local (fun l => l) 5 exampleStore fnOfFn 3
           (setValue fnOfFn "fn(fn(*i32))fn(A)") true [] resolvedStore
           exampleStore_WF fnOfFn_Bounded).
  reflexivity.
Defined.

End ReadyTypeFacts.

(** * Diagnostics of [Parser.nextOperator] *)
Module ParserOperatorLogs.
Import Ast Parser.

(** The diagnostics one scan pushes: one [invalid_operator] for every
    process that is a single operator token of a kind outside the five
    precedence groups, in the order of the processes. *)
Definition invalidOperatorLogs (tokens : list (list Token)) : list CompilerLog :=
  flat_map (fun part =>
              match part with
              | [tok] =>
                  if TokenId_eqb (TId tok) Operator then
                    match operatorLevel part with
                    | Some _ => []
                    | None => [mkLog (Row tok) (Column tok) "invalid_operator"]
                    end
                  else []
              | _ => []
              end) tokens.

Lemma nextOperatorStep_logs (i : Z) (part : list Token) (pr : Precedences)
    (logs : list CompilerLog) :
  snd (nextOperatorStep i part (pr, logs)) = logs ++ invalidOperatorLogs [part].
Proof.
  unfold nextOperatorStep, invalidOperatorLogs, operatorLevel, pusherrtok.
  cbn [flat_map]. rewrite app_nil_r.
  destruct part as [|tok [|? ?]]; cbn [snd]; try (symmetry; apply app_nil_r).
  destruct (TokenId_eqb (TId tok) Operator); cbn [negb snd];
    [|symmetry; apply app_nil_r].
  repeat match goal with
         | |- context [if oneOf ?k ?c then _ else _] => destruct (oneOf k c)
         end; cbn [snd]; try (symmetry; apply app_nil_r); reflexivity.
Qed.

Lemma nextOperatorLoop_logs (tokens : list (list Token)) :
  forall i pr logs,
    snd (nextOperatorLoop i tokens (pr, logs)) = logs ++ invalidOperatorLogs tokens.
Proof.
  induction tokens as [|part rest IH]; intros i pr logs.
  - cbn. symmetry. apply app_nil_r.
  - cbn [nextOperatorLoop].
    destruct (nextOperatorStep i part (pr, logs)) as [pr' logs'] eqn:Hstep.
    rewrite IH.
    pose proof (nextOperatorStep_logs i part pr logs) as Hlogs.
    rewrite Hstep in Hlogs. cbn [snd] in Hlogs. rewrite Hlogs.
    rewrite <- app_assoc. f_equal.
    unfold invalidOperatorLogs. cbn [flat_map]. rewrite app_nil_r. reflexivity.
Qed.

(** X1: [nextOperator] only appends to the parser's logs: the logs it was
    called with stay in front, followed by one [invalid_operator]
    diagnostic, at the token's position, for each single operator token
    whose kind is in none of the five precedence groups (such as [=], [!]
    or [~]), in the order of the processes.  Operands and processes of
    several tokens are never reported. *)
Theorem nextOperator_logs (logs : list CompilerLog) (tokens : list (list Token)) :
  snd (nextOperator logs tokens) = logs ++ invalidOperatorLogs tokens.
Proof.
  unfold nextOperator.
  destruct (nextOperatorLoop 0 tokens (noPrecedence, logs)) as [pr logs'] eqn:Hloop.
  pose proof (nextOperatorLoop_logs tokens 0 noPrecedence logs) as H.
  rewrite Hloop in H. exact H.
Qed.

Lemma lastAtLevel_range (l : Z) (tokens : list (list Token)) :
  -1 <= lastAtLevel l 0 tokens (-1) < len tokens.
Proof.
  pose proof (len_nonneg tokens).
  destruct (ParserOperatorFacts.lastAtLevel_from_start l tokens)
    as [[E _] | [_ [part [Hidx _]]]].
  - lia.
  - apply index_Some_range in Hidx. lia.
Qed.

(** The index [nextOperator] returns is -1 or a position of the list it was
    given, so the evaluator's [processes[j]] never panics on it. *)
Theorem nextOperator_in_range (logs : list CompilerLog) (tokens : list (list Token)) :
  -1 <= fst (nextOperator logs tokens) < len tokens.
Proof.
  unfold nextOperator.
  destruct (nextOperatorLoop 0 tokens (noPrecedence, logs)) as [pr logs'] eqn:Hloop.
  cbn [fst].
  assert (Hvar : forall l, 1 <= l <= 5 -> precedenceAt l pr = lastAtLevel l 0 tokens (-1)).
  { intros l Hl.
    pose proof (ParserOperatorFacts.nextOperator_variables logs tokens l Hl) as H.
    rewrite Hloop in H. exact H. }
  pose proof (Hvar 5 ltac:(lia)) as H5. pose proof (Hvar 4 ltac:(lia)) as H4.
  pose proof (Hvar 3 ltac:(lia)) as H3. pose proof (Hvar 2 ltac:(lia)) as H2.
  pose proof (Hvar 1 ltac:(lia)) as H1.
  cbn in H5, H4, H3, H2, H1.
  pose proof (lastAtLevel_range 5 tokens). pose proof (lastAtLevel_range 4 tokens).
  pose proof (lastAtLevel_range 3 tokens). pose proof (lastAtLevel_range 2 tokens).
  pose proof (lastAtLevel_range 1 tokens).
  unfold nextOperatorPick.
  repeat match goal with
         | |- context [if ?b then _ else _] => destruct b
         end; lia.
Qed.

End ParserOperatorLogs.

(** * Further facts about [Parser.readyType] *)
Module ReadyTypeMore.
Import Ast Parser ParserHeap.

#[local] Close Scope Z_scope.

Section More.

Variable DataTypeString : Heap -> HFunc -> string.
Variable types : list HTypeDecl.

#[local] Abbreviation typeById := (ParserHeap.typeById types).
#[local] Abbreviation readyType := (ParserHeap.readyType DataTypeString types).

(** With [err] unset the parameter loop is silent when the resolver is. *)
Lemma readyParams_silent
    (ready : Heap -> HType -> Outcome (HType * bool * list CompilerLog * Heap))
    (l : nat) :
  (forall h t r ok lg h', ready h t = Returned (r, ok, lg, h') -> lg = []) ->
  forall remaining index h lg h',
    readyParams ready l index remaining h = Returned (lg, h') -> lg = [].
Proof.
  intros Hready. induction remaining as [|rem IH]; intros index h lg h' H.
  - injection H as <- _. reflexivity.
  - cbn [readyParams] in H.
    destruct (nth_error (lookup h l) index) as [param|]; [|discriminate].
    destruct (ready h (PType param)) as [[[[t ok] pushed] h1]| |] eqn:H1;
      try discriminate.
    destruct (writeType h1 l index t) as [h2|]; [|discriminate].
    destruct (readyParams ready l (S index) rem h2) as [[pushed' h3]| |] eqn:H2;
      try discriminate.
    injection H as <- _. rewrite (Hready _ _ _ _ _ _ H1), (IH _ _ _ _ H2).
    reflexivity.
Qed.

(** [readyType(dt, false)] never logs: the [invalid_type_source] diagnostic
    is pushed only when the caller asks for errors, also for the parameter
    and return types of a function type, to which [err] is handed down. *)
Theorem readyType_silent_without_err (fuel : nat) :
  forall h dt r ok pushed h',
    readyType fuel h dt false = Returned (r, ok, pushed, h') -> pushed = [].
Proof.
  induction fuel as [|n IH]; intros h dt r ok pushed h' H; [discriminate|].
  rewrite ReadyTypeFacts.readyType_S in H.
  destruct (String.eqb (Value dt) ""); [injection H as _ _ <- _; reflexivity|].
  destruct (Code dt); try (injection H as _ _ <- _; reflexivity).
  - destruct (typeById (Kind (Token_of dt))) as [t|];
      [|injection H as _ _ <- _; reflexivity].
    destruct (sliceTo _ _) as [pre|]; [|discriminate].
    apply (IH _ _ _ _ _ _ H).
  - destruct (Tag dt) as [|funAST|ts]; try discriminate.
    destruct (readyParams _ (Params funAST) 0 _ h) as [[lg1 h1]| |] eqn:Hp;
      try discriminate.
    destruct (readyType n h1 (RetType funAST) false) as [[[[rt rok] lg2] h2]| |] eqn:Hr;
      try discriminate.
    injection H as _ _ <- _.
    rewrite (readyParams_silent _ _ (fun h t r ok lg h' Ht => IH h t r ok lg h' Ht)
               _ _ _ _ _ Hp).
    rewrite (IH _ _ _ _ _ _ Hr). reflexivity.
Qed.


(** X3: An alias that names itself ([type A A], reached through [A], [*A],
    [[]A], ...) is never resolved: whatever the recursion depth allowed, the
    call has not returned and has not panicked.  In Go the recursion only
    ends when the stack is exhausted. *)
Theorem readyType_self_alias_diverges (id : string) (decl : HTypeDecl) :
  typeById id = Some decl ->
  Code (TypeType decl) = Name ->
  Kind (Token_of (TypeType decl)) = id ->
  Value (TypeType decl) = id ->
  String.eqb id "" = false ->
  forall fuel h dt err,
    Code dt = Name -> Kind (Token_of dt) = id ->
    (exists pre, Value dt = String.append pre id) ->
    readyType fuel h dt err = OutOfFuel.
Proof.
  intros Hfind Hcode Hkind Hval Hid.
  assert (Happ_empty : forall pre, String.eqb (String.append pre id) "" = false).
  { intros pre. destruct pre as [|a pre]; cbn; [exact Hid|reflexivity]. }
  assert (Hslice : forall pre,
             sliceTo (String.append pre id)
                     (strlen (String.append pre id) - strlen id) = Some pre).
  { intros pre. unfold sliceTo, strlen.
    assert (Hlen : String.length (String.append pre id)
                   = (String.length pre + String.length id)%nat).
    { clear. induction pre as [|a pre IHp]; cbn; [reflexivity|].
      f_equal. exact IHp. }
    rewrite Hlen.
    replace (Z.of_nat (String.length pre + String.length id)
             - Z.of_nat (String.length id))%Z with (Z.of_nat (String.length pre)) by lia.
    replace (Z.of_nat (String.length pre) <? 0)%Z with false
      by (symmetry; apply Z.ltb_ge; lia).
    replace (Z.of_nat (String.length pre + String.length id)
             <? Z.of_nat (String.length pre))%Z with false
      by (symmetry; apply Z.ltb_ge; lia).
    cbn [orb]. rewrite Nat2Z.id. f_equal.
    clear. induction pre as [|a pre IHp]; cbn.
    - destruct id; reflexivity.
    - f_equal. exact IHp. }
  induction fuel as [|n IH]; intros h dt err Hc Hk [pre Hv]; [reflexivity|].
  rewrite ReadyTypeFacts.readyType_S.
  rewrite Hv, Happ_empty, Hc, Hk, Hfind, Hslice.
  apply IH.
  - destruct (TypeType decl); exact Hcode.
  - destruct (TypeType decl); exact Hkind.
  - exists pre. rewrite Hval. destruct (TypeType decl); reflexivity.
Qed.

End More.

(** The hypotheses of [readyType_self_alias_diverges] hold of [type A A]. *)
Definition selfAlias : list HTypeDecl :=
  [mkHTypeDecl noToken "A" (mkHType (mkToken Id "A" 1 8) Name "A" false HTagNil)].

Lemma readyType_self_alias_diverges_witness :
  readyType (fun _ _ => "fn()") selfAlias 1000 []
    (mkHType (mkToken Id "A" 2 5) Name "*A" false HTagNil) true = OutOfFuel.
Proof.
  apply (readyType_self_alias_diverges (fun _ _ => "fn()") selfAlias "A"
           (mkHTypeDecl noToken "A" (mkHType (mkToken Id "A" 1 8) Name "A" false HTagNil)));
    try reflexivity.
  exists "*". reflexivity.
Defined.

(** [fn(B)B] with no type [B] declared: the parameter and the result both
    fail to resolve, the function type resolves all the same. *)
Definition storeOfB : Heap :=
  [[mkHParam noToken "x" false false false
      (mkHType (mkToken Id "B" 3 4) Name "B" false HTagNil)]].

Definition fnOfB : HType :=
  mkHType noToken Func "fn(B)B" false
    (HTagFunc (mkHFunc noToken "f" 0
                 (mkHType (mkToken Id "B" 3 7) Name "B" false HTagNil))).

Lemma readyType_silent_without_err_witness :
  exists r ok pushed h',
    readyType ReadyTypeFacts.exampleDataTypeString ReadyTypeFacts.exampleTypes 3
      storeOfB fnOfB false = Returned (r, ok, pushed, h')
    /\ pushed = [].
Proof.
  eexists _, _, _, _. split; [reflexivity|].
  apply (readyType_silent_without_err ReadyTypeFacts.exampleDataTypeString
           ReadyTypeFacts.exampleTypes 3 storeOfB fnOfB fnOfB true [] storeOfB).
  reflexivity.
Defined.


End ReadyTypeMore.

(** * Package lex, [src/unnamed/part_000]

    [File.Content] is a [[]rune]; [Position] indexes it.  The Go strings the
    lexer cuts out of it ([string(runes[i:])], token values, regexp matches)
    are embedded as the list of code points they encode: every string here
    comes from a [[]rune] conversion, so it is valid UTF-8, and every byte
    offset the code slices at is a code point boundary.  Byte lengths
    ([len(s)]) are kept through [bytelen]. *)
Module Lex.

Abbreviation rune := Z.
(** A Go string, as its code points. *)
Abbreviation gostring := (list Z).

(** An ASCII literal as a Go string. *)
Fixpoint str (s : string) : gostring :=
  match s with
  | EmptyString => []
  | String a r => Z.of_nat (nat_of_ascii a) :: str r
  end.

(** What [string(r)] keeps of a rune: surrogates and values outside Unicode
    become U+FFFD. *)
Definition validRune (r : rune) : bool :=
  ((0 <=? r) && (r <? 55296)) || ((57343 <? r) && (r <=? 1114111)).
Definition sanitize (r : rune) : rune := if validRune r then r else 65533.
(** [string(runes)]. *)
Definition toString (runes : list rune) : gostring := map sanitize runes.

(** [len(string(r))] for a code point of a string. *)
Definition utf8len (r : rune) : Z :=
  if r <? 128 then 1 else if r <? 2048 then 2 else if r <? 65536 then 3 else 4.
(** [len(s)]. *)
Definition bytelen (s : gostring) : Z := fold_right (fun r n => utf8len r + n) 0 s.
(** [s[0]] when [s] starts with the code point [r]: its first UTF-8 byte. *)
Definition firstByteOf (r : rune) : Z :=
  if r <? 128 then r
  else if r <? 2048 then 192 + r / 64
  else if r <? 65536 then 224 + r / 4096
  else 240 + r / 262144.

Fixpoint hasPrefix (s pre : gostring) {struct pre} : bool :=
  match pre, s with
  | [], _ => true
  | p :: pre', c :: s' => (c =? p) && hasPrefix s' pre'
  | _ :: _, [] => false
  end.

Definition gostring_eqb (a b : gostring) : bool :=
  (Nat.eqb (List.length a) (List.length b)) && hasPrefix a b.

Fixpoint takeWhile (f : rune -> bool) (s : gostring) : gostring :=
  match s with
  | [] => []
  | c :: s' => if f c then c :: takeWhile f s' else []
  end.

(** [unicode.IsSpace]: the Latin-1 spaces and the code points of the
    White_Space property above them. *)
Definition isSpace (r : rune) : bool :=
  ((9 <=? r) && (r <=? 13)) || (r =? 32) || (r =? 133) || (r =? 160)
  || (r =? 5760) || ((8192 <=? r) && (r <=? 8202)) || (r =? 8232) || (r =? 8233)
  || (r =? 8239) || (r =? 8287) || (r =? 12288).

Definition isDigit (r : rune) : bool := (48 <=? r) && (r <=? 57).
Definition isXDigit (r : rune) : bool :=
  isDigit r || ((65 <=? r) && (r <=? 70)) || ((97 <=? r) && (r <=? 102)).
Definition isOctal (r : rune) : bool := (48 <=? r) && (r <=? 55).

(** The token classes of the lexer. *)
Inductive TokenType : Type :=
| NA | SemiColon | Comma | Brace | Value | Operator | Var | Const | Type_
| Return | Name.

Definition TokenType_eqb (a b : TokenType) : bool :=
  match a, b with
  | NA, NA | SemiColon, SemiColon | Comma, Comma | Brace, Brace | Value, Value
  | Operator, Operator | Var, Var | Const, Const | Type_, Type_
  | Return, Return | Name, Name => true
  | _, _ => false
  end.

(** [lex.Token] of this version of the lexer (the struct; [Token] below is
    the method). *)
Record TokenRec : Type := mkToken {
  TType : TokenType;
  TValue : gostring;
  TColumn : Z;
  TLine : Z
}.

(** An entry of [l.Errors]: the position and the error key formatted by
    [pushError]. *)
Record LexError : Type := mkError {
  ErrLine : Z;
  ErrColumn : Z;
  ErrKey : string
}.

(** [lex.Lex]. *)
Record Lex : Type := mkLex {
  Content : list rune;
  Position : Z;
  Column : Z;
  Line : Z;
  Errors : list LexError
}.

Definition setPosition (l : Lex) (p : Z) : Lex :=
  mkLex (Content l) p (Column l) (Line l) (Errors l).
Definition setColumn (l : Lex) (c : Z) : Lex :=
  mkLex (Content l) (Position l) c (Line l) (Errors l).

(** [pushError] (part_000:13). *)
Definition pushError (l : Lex) (err : string) : Lex :=
  mkLex (Content l) (Position l) (Column l) (Line l)
        (Errors l ++ [mkError (Line l) (Column l) err]).

(** [NewLine] (part_000:212). *)
Definition NewLine (l : Lex) : Lex :=
  mkLex (Content l) (Position l) 1 (Line l + 1) (Errors l).

Section Lexer.

(** [unicode.IsLetter] and [unicode.IsPunct]: the Unicode tables of Go's
    standard library, parameters of the embedding. *)
Variable isLetter : rune -> bool.
Variable isPunct : rune -> bool.

(** [isKeyword] (part_000:32).  [rune(ln[0])] is the first byte of the
    rest, read as a code point. *)
Definition isKeyword (ln kw : gostring) : bool :=
  if negb (hasPrefix ln kw) then false
  else
    match skipn (List.length kw) ln with
    | [] => true
    | c :: _ => isSpace (firstByteOf c) || isPunct (firstByteOf c)
    end.

(** The loop of [lexName]: the longest prefix of underscores, ASCII digits
    and letters; [Position] moves by one per code point. *)
Definition isNameRune (run : rune) : bool :=
  negb (negb (run =? 95) && ((run <? 48) || (57 <? run)) && negb (isLetter run)).

(** [lexName] (part_000:49). *)
Definition lexName (l : Lex) (ln : gostring) : gostring * Lex :=
  match ln with
  | [] => ([], l)
  | c :: _ =>
      if negb (c =? 95) && negb (isLetter c) then ([], l)
      else
        let name := takeWhile isNameRune ln in
        (name, setPosition l (Position l + len name))
  end.

(** The loop of [resume] over [runes]: spaces advance [Column] and
    [Position], a newline also starts a line; the first other rune ends the
    loop with [string(runes[i:])]. *)
Fixpoint resumeLoop (runes : list rune) (l : Lex) : gostring * Lex :=
  match runes with
  | [] => ([], l)
  | r :: rest =>
      if isSpace r then
        let l1 := mkLex (Content l) (Position l + 1) (Column l + 1) (Line l) (Errors l) in
        resumeLoop rest (if r =? 10 then NewLine l1 else l1)
      else (toString runes, l)
  end.

(** [resume] (part_000:70); [None] is the panic of
    [l.File.Content[l.Position:]] for a position outside the content. *)
Definition resume (l : Lex) : option (gostring * Lex) :=
  if (Position l <? 0) || (len (Content l) <? Position l) then None
  else Some (resumeLoop (skipn (Z.to_nat (Position l)) (Content l)) l).

(** The loop of [lexLineComment], over [Content[Position:]]. *)
Fixpoint lineCommentLoop (runes : list rune) (l : Lex) : Lex :=
  match runes with
  | [] => l
  | r :: rest =>
      if r =? 10 then NewLine (setPosition l (Position l + 1))
      else lineCommentLoop rest (setPosition l (Position l + 1))
  end.

(** [lexLineComment] (part_000:89). *)
Definition lexLineComment (l : Lex) : Lex :=
  let l1 := setPosition l (Position l + 2) in
  lineCommentLoop (skipn (Z.to_nat (Position l1)) (Content l1)) l1.

(** The loop of [lexBlockComment], over [Content[Position:]]. *)
Fixpoint blockCommentLoop (runes : list rune) (l : Lex) : Lex :=
  match runes with
  | [] => pushError l "missing_block_comment"
  | run :: rest =>
      if run =? 10 then blockCommentLoop rest (setPosition (NewLine l) (Position l + 1))
      else
        let l1 := setColumn l (Column l + utf8len (sanitize run)) in
        if hasPrefix (toString runes) (str "*/") then
          setPosition (setColumn l1 (Column l1 + 2)) (Position l1 + 2)
        else blockCommentLoop rest (setPosition l1 (Position l1 + 1))
  end.

(** [lexBlockComment] (part_000:100). *)
Definition lexBlockComment (l : Lex) : Lex :=
  let l1 := setPosition l (Position l + 2) in
  blockCommentLoop (skipn (Z.to_nat (Position l1)) (Content l1)) l1.

(** [numericRegexp.FindString]: the match of
    [^((0x[[:xdigit:]]+)|(\d+((\.\d+)?((e|E)(\-|\+|)\d+)?|(\.\d+))))]
    under Go's leftmost-first rule. *)
Definition exponentMatch (s : gostring) : gostring :=
  match s with
  | e :: r =>
      if (e =? 101) || (e =? 69) then
        match r with
        | sign :: r' =>
            if ((sign =? 45) || (sign =? 43)) && negb (Nat.eqb (List.length (takeWhile isDigit r')) 0)
            then e :: sign :: takeWhile isDigit r'
            else if negb (Nat.eqb (List.length (takeWhile isDigit r)) 0)
                 then e :: takeWhile isDigit r
                 else []
        | [] => []
        end
      else []
  | [] => []
  end.

Definition fractionMatch (s : gostring) : gostring :=
  match s with
  | dot :: r =>
      if (dot =? 46) && negb (Nat.eqb (List.length (takeWhile isDigit r)) 0)
      then dot :: takeWhile isDigit r
      else []
  | [] => []
  end.

Definition decimalMatch (s : gostring) : gostring :=
  let digits := takeWhile isDigit s in
  match digits with
  | [] => []
  | _ =>
      let rest := skipn (List.length digits) s in
      let frac := fractionMatch rest in
      let rest' := skipn (List.length frac) rest in
      digits ++ frac ++ exponentMatch rest'
  end.

Definition numericMatch (s : gostring) : gostring :=
  match s with
  | 48 :: 120 :: r =>
      match takeWhile isXDigit r with
      | [] => decimalMatch s
      | h => 48 :: 120 :: h
      end
  | _ => decimalMatch s
  end.

(** [lexNumeric] (part_000:122). *)
Definition lexNumeric (l : Lex) (content : gostring) : gostring * Lex :=
  let value := numericMatch content in
  (value, setPosition l (Position l + bytelen value)).

(** [escapeSequenceRegexp.FindString]: a backslash followed by one of the
    characters backslash, quote, double quote, a, b, f, n, r, t, v; or by U
    and eight code points; or by u and four; or by x and two; or by one to
    three octal digits, as many as there are.  A code point matched by the
    regexp's dot is any but a newline. *)
Definition notNewline (r : rune) : bool := negb (r =? 10).

Definition dots (n : nat) (s : gostring) : option gostring :=
  if (Nat.leb n (List.length s)) && forallb notNewline (firstn n s)
  then Some (firstn n s) else None.

Definition escapeMatch (s : gostring) : gostring :=
  match s with
  | 92 :: c :: r =>
      if existsb (Z.eqb c) (str "\'abfnrtv") || (c =? 34) then [92; c]
      else if c =? 85 then
        match dots 8 r with Some d => 92 :: c :: d | None => [] end
      else if c =? 117 then
        match dots 4 r with Some d => 92 :: c :: d | None => [] end
      else if c =? 120 then
        match dots 2 r with Some d => 92 :: c :: d | None => [] end
      else if isOctal c then 92 :: c :: takeWhile isOctal (firstn 2 r)
      else []
  | _ => []
  end.

(** [getEscapeSequence] (part_000:130). *)
Definition getEscapeSequence (l : Lex) (content : gostring) : gostring * Lex :=
  match escapeMatch content with
  | [] => ([], pushError (setPosition l (Position l + 1)) "invalid_escape_sequence")
  | seq => (seq, setPosition l (Position l + bytelen seq))
  end.

(** [getRune] (part_000:141); [None] is the panic of [content[0]] on an
    empty string. *)
Definition getRune (l : Lex) (content : gostring) : option (gostring * Lex) :=
  match content with
  | [] => None
  | c :: _ =>
      if c =? 92 then Some (getEscapeSequence l content)
      else Some ([c], setPosition l (Position l + 1))
  end.

(** [content[index:]] for a byte offset: the code points from that offset
    on. *)
Fixpoint dropBytes (n : Z) (fuel : nat) (s : gostring) : gostring :=
  match fuel with
  | O => s
  | S fuel' =>
      if n <=? 0 then s
      else match s with
           | [] => []
           | c :: s' => dropBytes (n - utf8len c) fuel' s'
           end
  end.

(** The [for index := 0; index < len(content); index++] loop of [lexRune],
    on [content[index:]]; [fuel] bounds the iterations by the length of the
    content.  The loop ends by [return ""] after a newline ([inl]), or by
    [break] or exhaustion with the builder and count so far ([inr]). *)
Fixpoint lexRuneLoop (fuel : nat) (content sb : gostring) (count : Z) (l : Lex)
  : option (Lex + (gostring * Z * Lex)) :=
  match fuel with
  | O => Some (inr (sb, count, l))
  | S fuel' =>
      match content with
      | [] => Some (inr (sb, count, l))
      | c :: _ =>
          if c =? 10 then
            Some (inl (NewLine (setPosition (pushError l "missing_rune_end")
                                            (Position l + 1))))
          else
            match getRune l content with
            | None => None
            | Some (run, l1) =>
                let sb1 := sb ++ run in
                let length := bytelen run in
                let l2 := setColumn l1 (Column l1 + length) in
                if gostring_eqb run (str "'") then
                  Some (inr (sb1, count, setPosition l2 (Position l2 + 1)))
                else
                  lexRuneLoop fuel'
                    (dropBytes (if 1 <? length then length else 1)
                               (List.length content) content)
                    sb1 (count + 1) l2
            end
      end
  end.

(** [lexRune] (part_000:150); [content] starts with the opening quote. *)
Definition lexRune (l : Lex) (content : gostring) : option (gostring * Lex) :=
  let l0 := setColumn l (Column l + 1) in
  let content := tl content in
  match lexRuneLoop (List.length content) content (str "'") 0 l0 with
  | None => None
  | Some (inl l1) => Some ([], l1)
  | Some (inr (sb, count, l1)) =>
      if count =? 0 then Some (sb, pushError l1 "rune_empty")
      else if 1 <? count then Some (sb, pushError l1 "rune_overflow")
      else Some (sb, l1)
  end.

(** The [for index, run := range content] loop of [lexString]: the range
    clause visits every code point of [content] in turn; the assignment to
    [index] in the body does not move it. *)
Fixpoint lexStringLoop (content sb : gostring) (l : Lex)
  : option (Lex + (gostring * Lex)) :=
  match content with
  | [] => Some (inr (sb, l))
  | run :: rest =>
      if run =? 10 then
        Some (inl (NewLine (setPosition (pushError l "missing_string_end")
                                        (Position l + 1))))
      else
        match getRune l content with
        | None => None
        | Some (run', l1) =>
            let sb1 := sb ++ run' in
            let l2 := setColumn l1 (Column l1 + bytelen run') in
            if gostring_eqb run' [34] then
              Some (inr (sb1, setPosition l2 (Position l2 + 1)))
            else lexStringLoop rest sb1 l2
        end
  end.

(** [lexString] (part_000:184). *)
Definition lexString (l : Lex) (content : gostring) : option (gostring * Lex) :=
  let l0 := setColumn l (Column l + 1) in
  match lexStringLoop (tl content) [34] l0 with
  | None => None
  | Some (inl l1) => Some ([], l1)
  | Some (inr (sb, l1)) => Some (sb, l1)
  end.

(** A case of the [switch] in [Token] that sets [token.Value], [token.Type]
    and advances [Position]: whether the test is [isKeyword] (otherwise it
    is a test of the first byte or [strings.HasPrefix]), the lexeme, the
    type and the advance. *)
Record SwitchCase : Type := mkCase {
  caseKeyword : bool;
  caseLexeme : string;
  caseType : TokenType;
  caseAdvance : Z
}.

(** The cases before the literals, in source order. *)
Definition punctuationCases : list SwitchCase :=
  [ mkCase false ";" SemiColon 1; mkCase false "," Comma 1;
    mkCase false "(" Brace 1; mkCase false ")" Brace 1;
    mkCase false "{" Brace 1; mkCase false "}" Brace 1;
    mkCase false "[" Brace 1; mkCase false "]" Brace 1 ].

(** The cases after the comments, in source order. *)
Definition operatorKeywordCases : list SwitchCase :=
  [ mkCase false "<<" Operator 2; mkCase false ">>" Operator 2;
    mkCase false "==" Operator 2; mkCase false "!=" Operator 2;
    mkCase false ">=" Operator 2; mkCase false "<=" Operator 2;
    mkCase false "&&" Operator 2; mkCase false "||" Operator 2;
    mkCase false "+" Operator 1; mkCase false "-" Operator 1;
    mkCase false "*" Operator 1; mkCase false "/" Operator 1;
    mkCase false "%" Operator 1; mkCase false "~" Operator 1;
    mkCase false "&" Operator 1; mkCase false "|" Operator 1;
    mkCase false "^" Operator 1; mkCase false "!" Operator 1;
    mkCase false "<" Operator 1; mkCase false ">" Operator 1;
    mkCase false "=" Operator 1;
    mkCase true "var" Var 3; mkCase true "const" Const 5;
    mkCase true "int8" Type_ 4; mkCase true "int16" Type_ 5;
    mkCase true "int32" Type_ 5; mkCase true "int64" Type_ 5;
    mkCase true "uint8" Type_ 5; mkCase true "uint16" Type_ 6;
    mkCase true "uint32" Type_ 6; mkCase true "uint64" Type_ 6;
    mkCase true "float32" Type_ 7; mkCase true "float64" Type_ 7;
    mkCase true "ret" Return 3; mkCase true "bool" Type_ 4;
    mkCase true "rune" Type_ 4; mkCase true "str" Type_ 3;
    mkCase true "true" Value 4; mkCase true "false" Value 5 ].

Definition caseMatches (content : gostring) (c : SwitchCase) : bool :=
  if caseKeyword c then isKeyword content (str (caseLexeme c))
  else hasPrefix content (str (caseLexeme c)).

(** The first case of the list whose test holds. *)
Definition firstCase (content : gostring) (cases : list SwitchCase) : option SwitchCase :=
  find (caseMatches content) cases.

(** The statements after the [switch]: [l.Column += len(token.Value)], and
    a name gets the prefix "_". *)
Definition finishToken (tok : TokenRec) (l : Lex) : TokenRec * Lex :=
  let l' := setColumn l (Column l + bytelen (TValue tok)) in
  if TokenType_eqb (TType tok) Name
  then (mkToken Name (95 :: TValue tok) (TColumn tok) (TLine tok), l')
  else (tok, l').

Definition takeCase (c : SwitchCase) (l : Lex) : TokenRec * Lex :=
  finishToken (mkToken (caseType c) (str (caseLexeme c)) (Column l) (Line l))
              (setPosition l (Position l + caseAdvance c)).

(** [Token] (part_000:218); [None] is a panic. *)
Definition Token (l : Lex) : option (TokenRec * Lex) :=
  match resume l with
  | None => None
  | Some ([], l) => Some (mkToken NA [] 0 0, l)
  | Some (c :: rest, l) =>
      let content := c :: rest in
      match firstCase content punctuationCases with
      | Some k => Some (takeCase k l)
      | None =>
          if c =? 39 then
            match lexRune l content with
            | None => None
            | Some (v, l') => Some (mkToken Value v (Column l) (Line l), l')
            end
          else if c =? 34 then
            match lexString l content with
            | None => None
            | Some (v, l') => Some (mkToken Value v (Column l) (Line l), l')
            end
          else if hasPrefix content (str "//") then
            Some (mkToken NA [] (Column l) (Line l), lexLineComment l)
          else if hasPrefix content (str "/*") then
            Some (mkToken NA [] (Column l) (Line l), lexBlockComment l)
          else
            match firstCase content operatorKeywordCases with
            | Some k => Some (takeCase k l)
            | None =>
                let (name, l1) := lexName l content in
                match name with
                | _ :: _ => Some (finishToken (mkToken Name name (Column l) (Line l)) l1)
                | [] =>
                    let (num, l2) := lexNumeric l1 content in
                    match num with
                    | _ :: _ => Some (finishToken (mkToken Value num (Column l) (Line l)) l2)
                    | [] =>
                        let l3 := pushError l2 "invalid_token" in
                        Some (mkToken NA [] (Column l) (Line l),
                              mkLex (Content l3) (Position l3 + 1) (Column l3 + 1)
                                    (Line l3) (Errors l3))
                    end
                end
            end
      end
  end.

(** The loop of [Tokenize]. *)
Fixpoint TokenizeLoop (fuel : nat) (tokens : list TokenRec) (l : Lex)
  : Outcome (list TokenRec * Lex) :=
  if negb (Position l <? len (Content l)) then Returned (tokens, l)
  else
    match fuel with
    | O => OutOfFuel
    | S fuel' =>
        match Token l with
        | None => Panicked
        | Some (token, l') =>
            TokenizeLoop fuel'
              (if TokenType_eqb (TType token) NA then tokens else tokens ++ [token]) l'
        end
    end.

(** [Tokenize] (part_000:19). *)
Definition Tokenize (fuel : nat) (l : Lex) : Outcome (list TokenRec * Lex) :=
  TokenizeLoop fuel [] (mkLex (Content l) (Position l) (Column l) (Line l) []).

(** A lexer at the start of a source text. *)
Definition newLex (content : list rune) : Lex := mkLex content 0 1 1 [].

End Lexer.

End Lex.

(** * Facts about the lexer *)
Module LexFacts.
Import Lex.

Section Facts.

Variable isLetter : rune -> bool.
Variable isPunct : rune -> bool.

#[local] Set Default Proof Using "Type".

#[local] Abbreviation Token := (Token isLetter isPunct).
#[local] Abbreviation TokenizeLoop := (TokenizeLoop isLetter isPunct).
#[local] Abbreviation Tokenize := (Tokenize isLetter isPunct).

Lemma skipn_len_app {A : Type} (pre suffix : list A) :
  skipn (Z.to_nat (len pre)) (pre ++ suffix) = suffix.
Proof.
  unfold len. rewrite Nat2Z.id.
  induction pre as [|a pre IH]; [reflexivity|exact IH].
Qed.

(** [resume] when the lexer stands after a prefix of the content. *)
Lemma resume_at (l : Lex) (pre suffix : list rune) :
  Content l = pre ++ suffix -> Position l = len pre ->
  resume l = Some (resumeLoop suffix l).
Proof.
  intros Hc Hp. unfold resume. rewrite Hc, Hp, skipn_len_app.
  replace (len pre <? 0) with false
    by (symmetry; apply Z.ltb_ge; apply len_nonneg).
  replace (len (pre ++ suffix) <? len pre) with false
    by (symmetry; apply Z.ltb_ge; rewrite len_app; pose proof (len_nonneg suffix); lia).
  reflexivity.
Qed.

(** [l'] has the content of [l] and a position at least [k] further. *)
Definition advanced (k : Z) (l l' : Lex) : Prop :=
  Content l' = Content l /\ Position l + k <= Position l'.

Lemma advanced_refl (l : Lex) : advanced 0 l l.
Proof. split; [reflexivity|lia]. Qed.

Lemma advanced_trans (j k : Z) (l1 l2 l3 : Lex) :
  advanced j l1 l2 -> advanced k l2 l3 -> advanced (j + k) l1 l3.
Proof. intros [C1 P1] [C2 P2]. split; [congruence|lia]. Qed.

Lemma advanced_weaken (j k : Z) (l1 l2 : Lex) :
  k <= j -> advanced j l1 l2 -> advanced k l1 l2.
Proof. intros Hk [C P]. split; [assumption|lia]. Qed.

Lemma utf8len_pos (r : rune) : 1 <= utf8len r.
Proof. unfold utf8len. repeat destruct (_ <? _); lia. Qed.

Lemma bytelen_cons (c : rune) (s : gostring) :
  bytelen (c :: s) = utf8len c + bytelen s.
Proof. reflexivity. Qed.

Lemma bytelen_nonneg (s : gostring) : 0 <= bytelen s.
Proof.
  induction s as [|c s IH]; [cbn; lia|].
  rewrite bytelen_cons. pose proof (utf8len_pos c). lia.
Qed.

Lemma bytelen_cons_pos (c : rune) (s : gostring) : 1 <= bytelen (c :: s).
Proof.
  rewrite bytelen_cons. pose proof (utf8len_pos c). pose proof (bytelen_nonneg s). lia.
Qed.

(** [getEscapeSequence] moves the position on, matched or not. *)
Lemma getEscapeSequence_advanced (l : Lex) (content : gostring) :
  advanced 1 l (snd (getEscapeSequence l content)).
Proof.
  unfold getEscapeSequence. destruct (escapeMatch content) as [|c seq].
  - destruct l; split; cbn; [reflexivity|lia].
  - pose proof (bytelen_cons_pos c seq). destruct l; split; cbn in *; [reflexivity|lia].
Qed.

(** [getRune] returns on a non-empty string and moves the position on. *)
Lemma getRune_advanced (l : Lex) (c : rune) (s : gostring) :
  exists run l', getRune l (c :: s) = Some (run, l') /\ advanced 1 l l'.
Proof.
  unfold getRune. destruct (c =? 92).
  - destruct (getEscapeSequence l (c :: s)) as [run l'] eqn:H.
    exists run, l'. split; [reflexivity|].
    pose proof (getEscapeSequence_advanced l (c :: s)) as Ha.
    rewrite H in Ha. exact Ha.
  - eexists _, _. split; [reflexivity|]. destruct l; split; cbn; [reflexivity|lia].
Qed.

(** The state a run of the loop of [lexRune] ends in. *)
Definition runeLoopState (r : Lex + (gostring * Z * Lex)) : Lex :=
  match r with
  | inl l => l
  | inr (_, _, l) => l
  end.

(** The loop of [lexRune] never panics and never moves the position back;
    it moves it on when there is something to loop over. *)
Lemma lexRuneLoop_advanced (fuel : nat) :
  forall content sb count l,
    exists r, lexRuneLoop fuel content sb count l = Some r /\
              advanced (if Nat.eqb fuel 0 then 0
                        else match content with [] => 0 | _ => 1 end)
                       l (runeLoopState r).
Proof.
  induction fuel as [|n IH]; intros content sb count l.
  - eexists. split; [reflexivity|]. apply advanced_refl.
  - cbn [lexRuneLoop Nat.eqb]. destruct content as [|c s].
    { eexists. split; [reflexivity|]. apply advanced_refl. }
    destruct (c =? 10).
    { eexists. split; [reflexivity|]. destruct l; split; cbn; [reflexivity|lia]. }
    destruct (getRune_advanced l c s) as [run [l1 [Hrun Hadv]]].
    rewrite Hrun.
    destruct (gostring_eqb run (str "'")).
    + eexists. split; [reflexivity|]. destruct Hadv as [C P].
      destruct l1; split; cbn in *; [assumption|lia].
    + match goal with
      | |- context [lexRuneLoop n ?c1 ?sb1 ?k1 ?l2] =>
          destruct (IH c1 sb1 k1 l2) as [r [Hr Hadv2]]
      end.
      exists r. split; [exact Hr|].
      destruct Hadv as [C P]. destruct Hadv2 as [C2 P2].
      split.
      * rewrite C2. destruct l1; cbn in *; assumption.
      * assert (H0 : Position l1 <= Position (runeLoopState r)).
        { revert P2. destruct l1; cbn.
          repeat match goal with
                 | |- context [if ?b then _ else _] => destruct b
                 | |- context [match ?x with [] => _ | _ => _ end] => destruct x
                 end; lia. }
        lia.
Qed.

(** [lexRune] never panics and keeps the content; it moves the position on
    when anything follows the opening quote. *)
Lemma lexRune_advanced (l : Lex) (q : rune) (rest : gostring) :
  exists v l', lexRune l (q :: rest) = Some (v, l') /\
               advanced (match rest with [] => 0 | _ => 1 end) l l'.
Proof.
  unfold lexRune. cbn [tl].
  destruct (lexRuneLoop_advanced (List.length rest) rest (str "'") 0
              (setColumn l (Column l + 1))) as [r [Hr Hadv]].
  rewrite Hr.
  assert (Hadv' : advanced (match rest with [] => 0 | _ => 1 end) l (runeLoopState r)).
  { destruct rest; cbn [List.length Nat.eqb] in Hadv;
      destruct Hadv as [C P]; destruct l; split; cbn in *; assumption. }
  destruct r as [l1 | [[sb count] l1]]; cbn [runeLoopState] in Hadv'.
  - eexists _, _. split; [reflexivity|exact Hadv'].
  - destruct (count =? 0); [|destruct (1 <? count)];
      eexists _, _; (split; [reflexivity|]);
      destruct Hadv' as [C P]; destruct l1; split; cbn in *; assumption.
Qed.

Definition stringLoopState (r : Lex + (gostring * Lex)) : Lex :=
  match r with
  | inl l => l
  | inr (_, l) => l
  end.

Lemma lexStringLoop_advanced (content : gostring) :
  forall sb l,
    exists r, lexStringLoop content sb l = Some r /\
              advanced (match content with [] => 0 | _ => 1 end) l (stringLoopState r).
Proof.
  induction content as [|c s IH]; intros sb l.
  - eexists. split; [reflexivity|]. apply advanced_refl.
  - cbn [lexStringLoop]. destruct (c =? 10).
    { eexists. split; [reflexivity|]. destruct l; split; cbn; [reflexivity|lia]. }
    destruct (getRune_advanced l c s) as [run [l1 [Hrun Hadv]]].
    rewrite Hrun.
    destruct (gostring_eqb run [34]).
    + eexists. split; [reflexivity|]. destruct Hadv as [C P].
      destruct l1; split; cbn in *; [assumption|lia].
    + match goal with
      | |- context [lexStringLoop s ?sb1 ?l2] =>
          destruct (IH sb1 l2) as [r [Hr Hadv2]]
      end.
      exists r. split; [exact Hr|].
      destruct Hadv as [C P]. destruct Hadv2 as [C2 P2].
      destruct l1; split; cbn in *; [congruence|].
      destruct s; lia.
Qed.

Lemma lexString_advanced (l : Lex) (q : rune) (rest : gostring) :
  exists v l', lexString l (q :: rest) = Some (v, l') /\
               advanced (match rest with [] => 0 | _ => 1 end) l l'.
Proof.
  unfold lexString. cbn [tl].
  destruct (lexStringLoop_advanced rest [34] (setColumn l (Column l + 1)))
    as [r [Hr Hadv]].
  rewrite Hr.
  assert (Hadv' : advanced (match rest with [] => 0 | _ => 1 end) l (stringLoopState r)).
  { destruct Hadv as [C P]; destruct l; split; cbn in *; assumption. }
  destruct r as [l1 | [sb l1]]; eexists _, _; (split; [reflexivity|exact Hadv']).
Qed.

Lemma lineCommentLoop_advanced (runes : list rune) :
  forall l, advanced 0 l (lineCommentLoop runes l).
Proof.
  induction runes as [|r rest IH]; intros l; cbn [lineCommentLoop].
  - apply advanced_refl.
  - destruct (r =? 10).
    + destruct l; split; cbn; [reflexivity|lia].
    + destruct (IH (setPosition l (Position l + 1))) as [C P].
      destruct l; split; cbn in *; [assumption|lia].
Qed.

Lemma lexLineComment_advanced (l : Lex) : advanced 2 l (lexLineComment l).
Proof.
  unfold lexLineComment.
  match goal with
  | |- context [lineCommentLoop ?rs ?l1] =>
      destruct (lineCommentLoop_advanced rs l1) as [C P]
  end.
  destruct l; split; cbn in *; [assumption|lia].
Qed.

Lemma blockCommentLoop_advanced (runes : list rune) :
  forall l, advanced 0 l (blockCommentLoop runes l).
Proof.
  induction runes as [|r rest IH]; intros l; cbn [blockCommentLoop].
  - destruct l; split; cbn; [reflexivity|lia].
  - destruct (r =? 10).
    + match goal with
      | |- context [blockCommentLoop rest ?l1] => destruct (IH l1) as [C P]
      end.
      destruct l; split; cbn in *; [assumption|lia].
    + destruct (hasPrefix _ _).
      * destruct l; split; cbn; [reflexivity|lia].
      * match goal with
        | |- context [blockCommentLoop rest ?l1] => destruct (IH l1) as [C P]
        end.
        destruct l; split; cbn in *; [assumption|lia].
Qed.

Lemma lexBlockComment_advanced (l : Lex) : advanced 2 l (lexBlockComment l).
Proof.
  unfold lexBlockComment.
  match goal with
  | |- context [blockCommentLoop ?rs ?l1] =>
      destruct (blockCommentLoop_advanced rs l1) as [C P]
  end.
  destruct l; split; cbn in *; [assumption|lia].
Qed.

(** Every case of the two tables advances the position. *)
Lemma caseAdvance_pos (k : SwitchCase) :
  In k punctuationCases \/ In k operatorKeywordCases -> 1 <= caseAdvance k.
Proof.
  assert (H1 : Forall (fun k => 1 <= caseAdvance k) punctuationCases)
    by (repeat constructor; cbn; lia).
  assert (H2 : Forall (fun k => 1 <= caseAdvance k) operatorKeywordCases)
    by (repeat constructor; cbn; lia).
  rewrite Forall_forall in H1, H2. intros [H | H]; auto.
Qed.

Lemma firstCase_In (content : gostring) (cases : list SwitchCase) (k : SwitchCase) :
  firstCase isPunct content cases = Some k -> In k cases.
Proof. unfold firstCase. intros H. apply find_some in H. tauto. Qed.

Lemma finishToken_state (tok : TokenRec) (l : Lex) :
  Content (snd (finishToken tok l)) = Content l /\
  Position (snd (finishToken tok l)) = Position l.
Proof. unfold finishToken. destruct (TokenType_eqb _ _); destruct l; split; reflexivity. Qed.

Lemma takeCase_advanced (k : SwitchCase) (l : Lex) :
  advanced (caseAdvance k) l (snd (takeCase k l)).
Proof.
  unfold takeCase.
  match goal with
  | |- context [finishToken ?t ?l1] => destruct (finishToken_state t l1) as [C P]
  end.
  split; [rewrite C|rewrite P]; destruct l; cbn; [reflexivity|lia].
Qed.

Lemma lexName_advanced (l : Lex) (ln : gostring) :
  advanced (len (fst (lexName isLetter l ln))) l (snd (lexName isLetter l ln)).
Proof.
  unfold lexName. destruct ln as [|c s]; [apply advanced_refl|].
  destruct (negb (c =? 95) && negb (isLetter c)); [apply advanced_refl|].
  cbn [fst snd]. destruct l; split; cbn; [reflexivity|lia].
Qed.

Lemma lexNumeric_advanced (l : Lex) (content : gostring) :
  advanced (bytelen (fst (lexNumeric l content))) l (snd (lexNumeric l content)).
Proof. unfold lexNumeric. cbn [fst snd]. destruct l; split; cbn; [reflexivity|lia]. Qed.

(** What [resume] finds: only spaces up to the end of the content, or
    spaces and then a rune that is not one. *)
Lemma resumeLoop_cases (runes : list rune) (l : Lex) :
  (exists l', resumeLoop runes l = ([], l') /\ Content l' = Content l /\
              Position l' = Position l + len runes)
  \/ (exists ws r rest l',
         runes = ws ++ r :: rest /\ isSpace r = false /\
         resumeLoop runes l = (toString (r :: rest), l') /\
         Content l' = Content l /\ Position l' = Position l + len ws).
Proof.
  revert l. induction runes as [|r rest IH]; intros l.
  - left. exists l. cbn. repeat split. lia.
  - cbn [resumeLoop]. destruct (isSpace r) eqn:Hsp.
    + match goal with
      | |- context [resumeLoop rest ?l1] => destruct (IH l1) as [H | H]
      end.
      * destruct H as [l' [H1 [H2 H3]]]. left. exists l'.
        split; [exact H1|]. rewrite H2, H3. unfold len.
        destruct (r =? 10); destruct l; cbn [Content Position NewLine List.length];
          split; try reflexivity; lia.
      * destruct H as [ws [r' [rest' [l' [H0 [Hr' [H1 [H2 H3]]]]]]]].
        right. exists (r :: ws), r', rest', l'.
        split; [rewrite H0; reflexivity|]. split; [exact Hr'|].
        split; [exact H1|]. rewrite H2, H3. unfold len.
        destruct (r =? 10); destruct l; cbn [Content Position NewLine List.length];
          split; try reflexivity; lia.
    + right. exists [], r, rest, l. cbn. repeat split; try assumption. lia.
Qed.

Lemma sanitize_quote (r : rune) (q : rune) :
  q = 39 \/ q = 34 -> sanitize r = q -> r = q.
Proof.
  unfold sanitize. intros Hq. destruct (validRune r); [intros H; exact H|].
  destruct Hq as [-> | ->]; discriminate.
Qed.

(** A call of [Token] inside the content never panics, keeps the content,
    and moves the position on, with one exception: the lexer stands on the
    last rune of the content and that rune is a quote. *)
Lemma Token_advances_or_final_quote (l : Lex) :
  0 <= Position l < len (Content l) ->
  exists tok l',
    Token l = Some (tok, l') /\ Content l' = Content l /\
    (Position l < Position l'
     \/ (Position l = len (Content l) - 1 /\
         (last (Content l) 0 = 39 \/ last (Content l) 0 = 34))).
Proof.
  intros Hpos.
  pose (pre := firstn (Z.to_nat (Position l)) (Content l)).
  pose (runes := skipn (Z.to_nat (Position l)) (Content l)).
  assert (Hc : Content l = pre ++ runes) by (symmetry; apply firstn_skipn).
  assert (Hp : Position l = len pre).
  { unfold pre, len. rewrite length_firstn. unfold len in Hpos. lia. }
  assert (Hlen : len (Content l) = len pre + len runes) by (rewrite Hc; apply len_app).
  unfold Lex.Token. rewrite (resume_at l pre runes Hc Hp).
  destruct (resumeLoop_cases runes l)
    as [[l1 [H1 [C1 P1]]] | [ws [r [rest [l1 [Hr [Hsp [H1 [C1 P1]]]]]]]]];
    rewrite H1.
  { eexists _, l1. split; [reflexivity|]. split; [exact C1|]. left. lia. }
  assert (Hws : 0 <= len ws) by apply len_nonneg.
  cbn [toString map].
  destruct (firstCase isPunct (sanitize r :: map sanitize rest) punctuationCases)
    as [k|] eqn:Hf1.
  { pose proof (caseAdvance_pos k (or_introl (firstCase_In _ _ _ Hf1))) as Hk.
    destruct (takeCase_advanced k l1) as [C P].
    destruct (takeCase k l1) as [tok l'] eqn:Htake. cbn [snd] in C, P.
    eexists _, _. split; [reflexivity|]. split; [congruence|]. left. lia. }
  assert (Hfinal : ws = [] -> rest = [] -> sanitize r = 39 \/ sanitize r = 34 ->
                   Position l = len (Content l) - 1 /\
                   (last (Content l) 0 = 39 \/ last (Content l) 0 = 34)).
  { intros -> -> Hq. rewrite Hlen, Hr. cbn [app]. split; [cbn; lia|].
    rewrite Hc, Hr. cbn [app]. rewrite last_last.
    destruct Hq as [Hq | Hq].
    - left. apply (sanitize_quote r 39); tauto.
    - right. apply (sanitize_quote r 34); tauto. }
  destruct (sanitize r =? 39) eqn:Hq1.
  { apply Z.eqb_eq in Hq1.
    destruct (lexRune_advanced l1 (sanitize r) (map sanitize rest))
      as [v [l' [Hv [C P]]]].
    rewrite Hv. eexists _, _. split; [reflexivity|]. split; [congruence|].
    destruct rest as [|r2 rest]; cbn [map] in P.
    - destruct ws as [|w ws]; [right; apply Hfinal; tauto|].
      left. unfold len in P1. cbn [List.length] in P1. lia.
    - left. lia. }
  destruct (sanitize r =? 34) eqn:Hq2.
  { apply Z.eqb_eq in Hq2.
    destruct (lexString_advanced l1 (sanitize r) (map sanitize rest))
      as [v [l' [Hv [C P]]]].
    rewrite Hv. eexists _, _. split; [reflexivity|]. split; [congruence|].
    destruct rest as [|r2 rest]; cbn [map] in P.
    - destruct ws as [|w ws]; [right; apply Hfinal; tauto|].
      left. unfold len in P1. cbn [List.length] in P1. lia.
    - left. lia. }
  destruct (hasPrefix (sanitize r :: map sanitize rest) (str "//")).
  { destruct (lexLineComment_advanced l1) as [C P].
    eexists _, _. split; [reflexivity|]. split; [congruence|]. left. lia. }
  destruct (hasPrefix (sanitize r :: map sanitize rest) (str "/*")).
  { destruct (lexBlockComment_advanced l1) as [C P].
    eexists _, _. split; [reflexivity|]. split; [congruence|]. left. lia. }
  destruct (firstCase isPunct (sanitize r :: map sanitize rest) operatorKeywordCases)
    as [k|] eqn:Hf2.
  { pose proof (caseAdvance_pos k (or_intror (firstCase_In _ _ _ Hf2))) as Hk.
    destruct (takeCase_advanced k l1) as [C P].
    destruct (takeCase k l1) as [tok l'] eqn:Htake. cbn [snd] in C, P.
    eexists _, _. split; [reflexivity|]. split; [congruence|]. left. lia. }
  pose proof (lexName_advanced l1 (sanitize r :: map sanitize rest)) as Hname.
  destruct (lexName isLetter l1 (sanitize r :: map sanitize rest)) as [name l2].
  cbn [fst snd] in Hname. destruct Hname as [C2 P2].
  destruct name as [|n0 name].
  2:{ match goal with
      | |- context [finishToken ?t l2] =>
          destruct (finishToken_state t l2) as [C P];
          destruct (finishToken t l2) as [tok l'] eqn:Hfin
      end.
      cbn [snd] in C, P.
      eexists _, _. split; [reflexivity|]. split; [congruence|]. left.
      unfold len in P2. cbn [List.length] in P2. lia. }
  pose proof (lexNumeric_advanced l2 (sanitize r :: map sanitize rest)) as Hnum.
  destruct (lexNumeric l2 (sanitize r :: map sanitize rest)) as [num l3].
  cbn [fst snd] in Hnum. destruct Hnum as [C3 P3].
  destruct num as [|d0 num].
  2:{ match goal with
      | |- context [finishToken ?t l3] =>
          destruct (finishToken_state t l3) as [C P];
          destruct (finishToken t l3) as [tok l'] eqn:Hfin
      end.
      cbn [snd] in C, P. pose proof (bytelen_cons_pos d0 num).
      eexists _, _. split; [reflexivity|]. split; [congruence|]. left.
      cbn [len List.length] in P2. unfold len in P2. cbn in P2. lia. }
  eexists _, _. split; [reflexivity|].
  cbn [len List.length] in P2. unfold len in P2. cbn [List.length] in P2.
  change (bytelen []) with 0 in P3.
  destruct l3; cbn in *. split; [congruence|]. left. lia.
Qed.

Lemma TokenizeLoop_returns (fuel : nat) :
  forall tokens l,
    0 <= Position l ->
    len (Content l) - Position l <= Z.of_nat fuel ->
    (last (Content l) 0 =? 39) = false ->
    (last (Content l) 0 =? 34) = false ->
    exists tokens' l',
      TokenizeLoop fuel tokens l = Returned (tokens', l') /\
      Content l' = Content l /\ len (Content l) <= Position l'.
Proof.
  induction fuel as [|n IH]; intros tokens l Hpos Hfuel Hq1 Hq2;
    cbn [Lex.TokenizeLoop];
    destruct (Position l <? len (Content l)) eqn:Hlt; cbn [negb].
  - apply Z.ltb_lt in Hlt. lia.
  - apply Z.ltb_ge in Hlt. eexists _, _. split; [reflexivity|]. split; [reflexivity|lia].
  - apply Z.ltb_lt in Hlt.
    destruct (Token_advances_or_final_quote l (conj Hpos Hlt))
      as [tok [l1 [Htok [C [P | [_ [Hq | Hq]]]]]]].
    + rewrite Htok.
      match goal with
      | |- context [TokenizeLoop n ?ts l1] => destruct (IH ts l1) as [ts' [l' [H1 [C' P']]]]
      end; try (rewrite C; assumption); try lia.
      { rewrite C. lia. }
      exists ts', l'. split; [exact H1|]. split; [congruence|]. rewrite <- C. exact P'.
    + rewrite Hq in Hq1. discriminate.
    + rewrite Hq in Hq2. discriminate.
  - apply Z.ltb_ge in Hlt. eexists _, _. split; [reflexivity|]. split; [reflexivity|lia].
Qed.

(** X5: [Tokenize] returns on every source whose last rune is not a quote; it
    never panics, and it needs no more calls of [Token] than there are runes
    left.  On return the position is at or past the end of the content. *)
Theorem Tokenize_returns (l : Lex) :
  0 <= Position l ->
  (last (Content l) 0 =? 39) = false ->
  (last (Content l) 0 =? 34) = false ->
  exists tokens l',
    Tokenize (Z.to_nat (len (Content l) - Position l)) l = Returned (tokens, l') /\
    Content l' = Content l /\ len (Content l) <= Position l'.
Proof.
  intros Hpos Hq1 Hq2. unfold Lex.Tokenize.
  destruct (TokenizeLoop_returns (Z.to_nat (len (Content l) - Position l)) []
              (mkLex (Content l) (Position l) (Column l) (Line l) []))
    as [tokens [l' H]]; cbn [Content Position]; try assumption; try lia.
  exists tokens, l'. exact H.
Qed.

(** X6: Every call of [Token] made with the position inside the content returns
    a token, keeps the content, and moves the position forward, unless the
    lexer stands on the last rune of the content and that rune is ['] or a
    double quote. *)
Theorem Token_advances (l : Lex) :
  0 <= Position l < len (Content l) ->
  (Position l =? len (Content l) - 1) && 
  ((last (Content l) 0 =? 39) || (last (Content l) 0 =? 34)) = false ->
  exists tok l',
    Token l = Some (tok, l') /\ Content l' = Content l /\ Position l < Position l'.
Proof.
  intros Hpos Hnot.
  destruct (Token_advances_or_final_quote l Hpos)
    as [tok [l' [Htok [C [P | [Hlast Hq]]]]]].
  - exists tok, l'. repeat split; assumption.
  - exfalso. apply andb_false_iff in Hnot. destruct Hnot as [H | H].
    + apply Z.eqb_neq in H. contradiction.
    + apply orb_false_iff in H. destruct H as [H1 H2].
      apply Z.eqb_neq in H1. apply Z.eqb_neq in H2. tauto.
Qed.

(** Equality of results, component by component. *)
Ltac lex_eq :=
  unfold setPosition, setColumn, pushError, NewLine;
  cbn [Content Position Column Line Errors];
  repeat match goal with
         | |- Some _ = Some _ => f_equal
         | |- inr _ = inr _ => f_equal
         | |- inl _ = inl _ => f_equal
         | |- (_, _) = (_, _) => f_equal
         | |- mkLex _ _ _ _ _ = mkLex _ _ _ _ _ => f_equal
         | |- mkError _ _ _ = mkError _ _ _ => f_equal
         | |- mkToken _ _ _ _ = mkToken _ _ _ _ => f_equal
         | |- _ ++ _ = _ ++ _ => f_equal
         | |- _ :: _ = _ :: _ => f_equal
         end; try lia; try reflexivity.

(** A code point of a rune or string literal that is neither a newline, a
    backslash nor the quote [q]. *)
Definition plainRune (q : rune) (c : rune) : bool :=
  negb (c =? 10) && negb (c =? 92) && negb (c =? q).

Lemma dropBytes_one (c : rune) (s : gostring) :
  dropBytes (if 1 <? bytelen [c] then bytelen [c] else 1)
            (List.length (c :: s)) (c :: s) = s.
Proof.
  change (bytelen [c]) with (utf8len c + 0). rewrite Z.add_0_r.
  pose proof (utf8len_pos c) as Hu.
  replace (if 1 <? utf8len c then utf8len c else 1) with (utf8len c)
    by (destruct (1 <? utf8len c) eqn:E; [reflexivity|apply Z.ltb_ge in E; lia]).
  cbn [List.length dropBytes].
  replace (utf8len c <=? 0) with false by (symmetry; apply Z.leb_gt; lia).
  rewrite Z.sub_diag. destruct s; reflexivity.
Qed.

Lemma plainRune_facts (q c : rune) :
  plainRune q c = true -> (c =? 10) = false /\ (c =? 92) = false /\ (c =? q) = false.
Proof.
  unfold plainRune. rewrite !andb_true_iff, !negb_true_iff.
  intros [[H1 H2] H3]. repeat split; assumption.
Qed.

Lemma gostring_eqb_single (c q : rune) : gostring_eqb [c] [q] = (c =? q).
Proof. unfold gostring_eqb. cbn. apply andb_true_r. Qed.

Lemma bytelen_app (a b : gostring) : bytelen (a ++ b) = bytelen a + bytelen b.
Proof.
  induction a as [|c a IH]; [reflexivity|].
  cbn [app]. rewrite !bytelen_cons, IH. lia.
Qed.

(** The loop of [lexRune] over plain code points up to the closing quote. *)
Lemma lexRuneLoop_plain (rest : gostring) (cs : gostring) :
  forallb (plainRune 39) cs = true ->
  forall fuel sb count l,
    (List.length (cs ++ 39%Z :: rest) <= fuel)%nat ->
    lexRuneLoop fuel (cs ++ 39 :: rest) sb count l =
    Some (inr (sb ++ cs ++ [39], count + len cs,
               mkLex (Content l) (Position l + len cs + 2)
                     (Column l + bytelen cs + 1) (Line l) (Errors l))).
Proof.
  induction cs as [|c cs IH]; intros Hplain fuel sb count l Hfuel.
  - destruct fuel as [|fuel]; [cbn in Hfuel; lia|].
    cbn [app lexRuneLoop]. change (str "'") with [39].
    cbn. destruct l. lex_eq.
  - cbn [forallb] in Hplain. apply andb_true_iff in Hplain.
    destruct Hplain as [Hc Hcs].
    destruct (plainRune_facts _ _ Hc) as [H10 [H92 H39]].
    destruct fuel as [|fuel]; [cbn in Hfuel; lia|].
    cbn [app lexRuneLoop getRune]. rewrite H10, H92.
    cbn zeta. change (str "'") with [39]. rewrite gostring_eqb_single, H39.
    pose proof (dropBytes_one c (cs ++ 39 :: rest)) as Hdrop.
    cbn [app List.length] in Hdrop |- *. rewrite Hdrop.
    rewrite IH; [|assumption|cbn [app List.length] in Hfuel; lia].
    unfold len. cbn [List.length]. rewrite <- !app_assoc. cbn [app].
    lex_eq. rewrite !bytelen_cons. change (bytelen []) with 0. lia.
Qed.

(** X7: A rune literal of plain code points, closed on its line: the value is
    the literal with its quotes, the position ends behind the closing quote,
    and the only diagnostic depends on the number of code points: none
    gives [rune_empty], two or more give [rune_overflow], exactly one gives
    nothing. *)
Theorem lexRune_plain (l : Lex) (cs rest : gostring) :
  forallb (plainRune 39) cs = true ->
  lexRune l (39 :: cs ++ 39 :: rest) =
  Some (39 :: cs ++ [39],
        mkLex (Content l) (Position l + len cs + 2)
              (Column l + bytelen cs + 2) (Line l)
              (Errors l ++
               match cs with
               | [] => [mkError (Line l) (Column l + 2) "rune_empty"]
               | [_] => []
               | _ => [mkError (Line l) (Column l + bytelen cs + 2) "rune_overflow"]
               end)).
Proof.
  intros Hplain. unfold lexRune. cbn [tl].
  rewrite (lexRuneLoop_plain rest cs Hplain); [|lia].
  cbn [Content Position Column Line Errors setColumn].
  change (str "'") with [39]. cbn [app].
  destruct cs as [|c1 [|c2 cs]].
  - cbn. lex_eq.
  - change (len [c1]) with 1.
    replace (0 + 1 =? 0) with false by reflexivity.
    replace (1 <? 0 + 1) with false by reflexivity.
    rewrite app_nil_r. lex_eq.
  - unfold len. cbn [List.length].
    replace (0 + Z.of_nat (S (S (List.length cs))) =? 0) with false
      by (symmetry; apply Z.eqb_neq; lia).
    replace (1 <? 0 + Z.of_nat (S (S (List.length cs)))) with true
      by (symmetry; apply Z.ltb_lt; lia).
    lex_eq.
Qed.

(** The loop of [lexRune] over plain code points up to a newline. *)
Lemma lexRuneLoop_newline (rest : gostring) (cs : gostring) :
  forallb (plainRune 39) cs = true ->
  forall fuel sb count l,
    (List.length (cs ++ 10%Z :: rest) <= fuel)%nat ->
    lexRuneLoop fuel (cs ++ 10 :: rest) sb count l =
    Some (inl (mkLex (Content l) (Position l + len cs + 1) 1 (Line l + 1)
                     (Errors l ++ [mkError (Line l) (Column l + bytelen cs)
                                           "missing_rune_end"]))).
Proof.
  induction cs as [|c cs IH]; intros Hplain fuel sb count l Hfuel.
  - destruct fuel as [|fuel]; [cbn in Hfuel; lia|].
    cbn [app lexRuneLoop]. replace (10 =? 10) with true by reflexivity.
    destruct l. change (bytelen []) with 0. change (len []) with 0. lex_eq.
  - cbn [forallb] in Hplain. apply andb_true_iff in Hplain.
    destruct Hplain as [Hc Hcs].
    destruct (plainRune_facts _ _ Hc) as [H10 [H92 H39]].
    destruct fuel as [|fuel]; [cbn in Hfuel; lia|].
    cbn [app lexRuneLoop getRune]. rewrite H10, H92.
    cbn zeta. change (str "'") with [39]. rewrite gostring_eqb_single, H39.
    pose proof (dropBytes_one c (cs ++ 10 :: rest)) as Hdrop.
    cbn [app List.length] in Hdrop |- *. rewrite Hdrop.
    rewrite IH; [|assumption|cbn [app List.length] in Hfuel; lia].
    unfold len. cbn [List.length].
    lex_eq; rewrite !bytelen_cons; change (bytelen []) with 0; lia.
Qed.

Lemma toString_app (a b : list rune) : toString (a ++ b) = toString a ++ toString b.
Proof. apply map_app. Qed.

(** X8: An unterminated rune literal.  With the lexer on a quote that is
    followed by plain code points and then a newline, [Token] returns a
    [Value] token whose value is empty, logs [missing_rune_end] and starts a
    new line; the opening quote was never counted in [Position], so the
    position it leaves is the one of the newline itself, which the next
    call will skip as a space and count as a line a second time. *)
Theorem Token_unterminated_rune (l : Lex) (pre cs rest : list rune) :
  Content l = pre ++ 39 :: cs ++ 10 :: rest ->
  Position l = len pre ->
  forallb (plainRune 39) (toString cs) = true ->
  exists l',
    Token l = Some (mkToken Value [] (Column l) (Line l), l') /\
    Position l' = len pre + len cs + 1 /\
    index (Content l') (Position l') = Some 10 /\
    Line l' = Line l + 1 /\
    Errors l' = Errors l ++ [mkError (Line l) (Column l + 1 + bytelen (toString cs))
                                     "missing_rune_end"].
Proof.
  intros Hc Hp Hplain. unfold Lex.Token.
  rewrite (resume_at l pre (39 :: cs ++ 10 :: rest) Hc Hp).
  cbn [resumeLoop]. replace (isSpace 39) with false by reflexivity.
  cbn [toString map]. change (sanitize 39) with 39.
  fold (toString (cs ++ 10 :: rest)). rewrite toString_app.
  cbn [toString map]. change (sanitize 10) with 10. fold (toString rest) (toString cs).
  replace (firstCase isPunct (39 :: toString cs ++ 10 :: toString rest) punctuationCases)
    with (@None SwitchCase) by reflexivity.
  replace (39 =? 39) with true by reflexivity.
  unfold lexRune. cbn [tl].
  rewrite (lexRuneLoop_newline (toString rest) (toString cs) Hplain); [|lia].
  eexists. split; [reflexivity|].
  cbn [Content Position Column Line Errors setColumn].
  assert (Hlen : len (toString cs) = len cs)
    by (unfold len, toString; rewrite length_map; reflexivity).
  rewrite Hlen, Hp, Hc. split; [reflexivity|]. split; [|split; [reflexivity|lex_eq]].
  rewrite index_app_r by (pose proof (len_nonneg cs); lia).
  replace (len pre + len cs + 1 - len pre) with (1 + len cs) by lia.
  rewrite ParserOperatorFacts.index_cons_pos by (pose proof (len_nonneg cs); lia).
  replace (1 + len cs - 1) with (len cs) by lia.
  rewrite index_app_r by lia. rewrite Z.sub_diag. reflexivity.
Qed.

(** The loop of [lexString] over plain code points: each is appended to the
    builder and moves the position by one. *)
Lemma lexStringLoop_plain (cs tail : gostring) :
  forallb (plainRune 34) cs = true ->
  forall sb l,
    lexStringLoop (cs ++ tail) sb l =
    lexStringLoop tail (sb ++ cs)
      (mkLex (Content l) (Position l + len cs) (Column l + bytelen cs)
             (Line l) (Errors l)).
Proof.
  induction cs as [|c cs IH]; intros Hplain sb l.
  - cbn [app]. rewrite app_nil_r. change (len []) with 0. change (bytelen []) with 0.
    destruct l. cbn [Content Position Column Line Errors].
    rewrite !Z.add_0_r. reflexivity.
  - cbn [forallb] in Hplain. apply andb_true_iff in Hplain.
    destruct Hplain as [Hc Hcs].
    destruct (plainRune_facts _ _ Hc) as [H10 [H92 H34]].
    cbn [app lexStringLoop getRune]. rewrite H10, H92. cbn zeta.
    rewrite gostring_eqb_single, H34. rewrite (IH Hcs).
    rewrite <- app_assoc. cbn [app]. f_equal.
    unfold len. cbn [List.length]. lex_eq.
    rewrite !bytelen_cons. change (bytelen []) with 0. lia.
Qed.

(** The closing quote ends the loop. *)
Lemma lexStringLoop_close (rest sb : gostring) (l : Lex) :
  lexStringLoop (34 :: rest) sb l =
  Some (inr (sb ++ [34],
             mkLex (Content l) (Position l + 2) (Column l + 1) (Line l) (Errors l))).
Proof. cbn. destruct l. lex_eq. Qed.

(** A string literal of plain code points, closed on its line: the value
    is the literal with its quotes, no diagnostic is pushed, and the
    position ends behind the closing quote. *)
Theorem lexString_plain (l : Lex) (cs rest : gostring) :
  forallb (plainRune 34) cs = true ->
  lexString l (34 :: cs ++ 34 :: rest) =
  Some (34 :: cs ++ [34],
        mkLex (Content l) (Position l + len cs + 2)
              (Column l + bytelen cs + 2) (Line l) (Errors l)).
Proof.
  intros Hplain. unfold lexString. cbn [tl].
  rewrite (lexStringLoop_plain cs (34 :: rest) Hplain), lexStringLoop_close.
  cbn [app]. lex_eq.
Qed.

(** The escapes of one letter that do not end the string: a backslash
    followed by a quote or one of a, b, f, n, r, t, v. *)
Definition letterEscape (e : rune) : bool := existsb (Z.eqb e) (str "'abfnrtv").

(** An escape inside a string is read twice.  The range loop of [lexString]
    visits the escaped letter again after [getRune] has consumed the whole
    escape, so the letter is appended a second time and counted a second
    time in [Position]. *)
Lemma lexStringLoop_escape (e : rune) (tail sb : gostring) (l : Lex) :
  letterEscape e = true ->
  lexStringLoop (92 :: e :: tail) sb l =
  lexStringLoop tail (sb ++ [92; e; e])
    (mkLex (Content l) (Position l + 3) (Column l + 3) (Line l) (Errors l)).
Proof.
  intros He. unfold letterEscape in He. apply existsb_exists in He.
  destruct He as [x [Hin Hx]]. apply Z.eqb_eq in Hx. subst x.
  assert (Hcases : e = 39 \/ e = 97 \/ e = 98 \/ e = 102 \/ e = 110 \/ e = 114
                   \/ e = 116 \/ e = 118).
  { cbn in Hin. lia. }
  assert (Hm : escapeMatch (92 :: e :: tail) = [92; e])
    by (destruct Hcases as [-> | [-> | [-> | [-> | [-> | [-> | [-> | ->]]]]]]];
        reflexivity).
  assert (H10 : (e =? 10) = false /\ (e =? 92) = false /\ (e =? 34) = false)
    by (destruct Hcases as [-> | [-> | [-> | [-> | [-> | [-> | [-> | ->]]]]]]];
        repeat split; reflexivity).
  destruct H10 as [H10 [H92 H34]].
  cbn [lexStringLoop getRune]. replace (92 =? 10) with false by reflexivity.
  replace (92 =? 92) with true by reflexivity.
  unfold getEscapeSequence. rewrite Hm. cbn zeta.
  replace (gostring_eqb [92; e] [34]) with false by reflexivity.
  rewrite H10. cbn [getRune]. rewrite H92. cbn zeta.
  rewrite gostring_eqb_single, H34. rewrite <- app_assoc. cbn [app].
  f_equal. destruct l. lex_eq;
    rewrite !bytelen_cons; change (bytelen []) with 0;
    pose proof (utf8len_pos e);
    assert (utf8len e = 1)
      by (destruct Hcases as [-> | [-> | [-> | [-> | [-> | [-> | [-> | ->]]]]]]];
          reflexivity);
    change (utf8len 92) with 1; lia.
Qed.

(** X9: A string literal with one such escape among plain code points: the
    value returned holds the escaped letter twice, and the position ends
    one rune behind the end of the literal, so the rune that follows the
    closing quote is never lexed. *)
Theorem lexString_escape_read_twice (l : Lex) (cs1 cs2 rest : gostring) (e : rune) :
  forallb (plainRune 34) cs1 = true ->
  forallb (plainRune 34) cs2 = true ->
  letterEscape e = true ->
  lexString l (34 :: cs1 ++ 92 :: e :: cs2 ++ 34 :: rest) =
  Some (34 :: cs1 ++ 92 :: e :: e :: cs2 ++ [34],
        mkLex (Content l)
              (Position l + len (34 :: cs1 ++ 92 :: e :: cs2 ++ [34]) + 1)
              (Column l + bytelen cs1 + bytelen cs2 + 5) (Line l) (Errors l)).
Proof.
  intros H1 H2 He. unfold lexString. cbn [tl].
  rewrite (lexStringLoop_plain cs1 _ H1), (lexStringLoop_escape e _ _ _ He),
    (lexStringLoop_plain cs2 _ H2), lexStringLoop_close.
  cbn [Content Position Column Line Errors].
  rewrite <- !app_assoc. cbn [app].
  unfold len. cbn [List.length]. rewrite !length_app. cbn [List.length].
  rewrite !length_app. cbn [List.length]. lex_eq.
Qed.

(** The loop of [lexLineComment] up to the first newline. *)
Lemma lineCommentLoop_newline (body rest : list rune) :
  forallb notNewline body = true ->
  forall l,
    lineCommentLoop (body ++ 10 :: rest) l =
    mkLex (Content l) (Position l + len body + 1) 1 (Line l + 1) (Errors l).
Proof.
  induction body as [|b body IH]; intros Hbody l.
  - cbn. destruct l. lex_eq.
  - cbn [forallb] in Hbody. apply andb_true_iff in Hbody. destruct Hbody as [Hb Hbody].
    unfold notNewline in Hb. apply negb_true_iff in Hb.
    cbn [app lineCommentLoop]. rewrite Hb, (IH Hbody).
    unfold len. cbn [List.length]. destruct l. lex_eq.
Qed.

(** The loop of [lexLineComment] when no newline follows. *)
Lemma lineCommentLoop_end (body : list rune) :
  forallb notNewline body = true ->
  forall l,
    lineCommentLoop body l =
    mkLex (Content l) (Position l + len body) (Column l) (Line l) (Errors l).
Proof.
  induction body as [|b body IH]; intros Hbody l.
  - cbn. destruct l. lex_eq.
  - cbn [forallb] in Hbody. apply andb_true_iff in Hbody. destruct Hbody as [Hb Hbody].
    unfold notNewline in Hb. apply negb_true_iff in Hb.
    cbn [lineCommentLoop]. rewrite Hb, (IH Hbody).
    unfold len. cbn [List.length]. destruct l. lex_eq.
Qed.

(** X10: A line comment gives no token and no diagnostic.  With the lexer on
    [//], [Token] returns the [NA] token and leaves the position behind the
    first newline that follows, on a new line at column 1. *)
Theorem Token_line_comment (l : Lex) (pre body rest : list rune) :
  Content l = pre ++ 47 :: 47 :: body ++ 10 :: rest ->
  Position l = len pre ->
  forallb notNewline body = true ->
  Token l = Some (mkToken NA [] (Column l) (Line l),
                  mkLex (Content l) (len pre + len body + 3) 1 (Line l + 1) (Errors l)).
Proof.
  intros Hc Hp Hbody. unfold Lex.Token.
  rewrite (resume_at l pre (47 :: 47 :: body ++ 10 :: rest) Hc Hp).
  cbn [resumeLoop]. replace (isSpace 47) with false by reflexivity.
  cbn [toString map]. change (sanitize 47) with 47.
  match goal with
  | |- context [firstCase isPunct ?c punctuationCases] =>
      replace (firstCase isPunct c punctuationCases) with (@None SwitchCase)
        by reflexivity
  end.
  replace (47 =? 39) with false by reflexivity.
  replace (47 =? 34) with false by reflexivity.
  match goal with
  | |- context [hasPrefix ?c (str "//")] =>
      replace (hasPrefix c (str "//")) with true by reflexivity
  end.
  assert (Hskip : skipn (Z.to_nat (Position l + 2)) (Content l) = body ++ 10 :: rest).
  { rewrite Hc, Hp.
    replace (len pre + 2) with (len (pre ++ [47; 47]))
      by (rewrite len_app; reflexivity).
    replace (pre ++ 47 :: 47 :: body ++ 10 :: rest)
      with ((pre ++ [47; 47]) ++ body ++ 10 :: rest)
      by (rewrite <- app_assoc; reflexivity).
    apply skipn_len_app. }
  unfold lexLineComment. cbn [Content Position setPosition].
  rewrite Hskip, (lineCommentLoop_newline body rest Hbody).
  cbn [Content Position Column Line Errors]. rewrite Hp. lex_eq.
Qed.

(** When no newline follows, the comment runs to the end of the content. *)
Theorem Token_line_comment_at_end (l : Lex) (pre body : list rune) :
  Content l = pre ++ 47 :: 47 :: body ->
  Position l = len pre ->
  forallb notNewline body = true ->
  Token l = Some (mkToken NA [] (Column l) (Line l),
                  mkLex (Content l) (len (Content l)) (Column l) (Line l) (Errors l)).
Proof.
  intros Hc Hp Hbody. unfold Lex.Token.
  rewrite (resume_at l pre (47 :: 47 :: body) Hc Hp).
  cbn [resumeLoop]. replace (isSpace 47) with false by reflexivity.
  cbn [toString map]. change (sanitize 47) with 47.
  match goal with
  | |- context [firstCase isPunct ?c punctuationCases] =>
      replace (firstCase isPunct c punctuationCases) with (@None SwitchCase)
        by reflexivity
  end.
  replace (47 =? 39) with false by reflexivity.
  replace (47 =? 34) with false by reflexivity.
  match goal with
  | |- context [hasPrefix ?c (str "//")] =>
      replace (hasPrefix c (str "//")) with true by reflexivity
  end.
  assert (Hskip : skipn (Z.to_nat (Position l + 2)) (Content l) = body).
  { rewrite Hc, Hp.
    replace (len pre + 2) with (len (pre ++ [47; 47]))
      by (rewrite len_app; reflexivity).
    replace (pre ++ 47 :: 47 :: body) with ((pre ++ [47; 47]) ++ body)
      by (rewrite <- app_assoc; reflexivity).
    apply skipn_len_app. }
  unfold lexLineComment. cbn [Content Position setPosition].
  rewrite Hskip, (lineCommentLoop_end body Hbody).
  cbn [Content Position Column Line Errors]. rewrite Hp. lex_eq.
  rewrite Hc, len_app. unfold len. cbn [List.length]. lia.
Qed.

(** No [*/] inside [body]. *)
Fixpoint noCloser (body : list rune) : bool :=
  match body with
  | [] => true
  | a :: t =>
      negb ((a =? 42) && match t with b :: _ => b =? 47 | [] => false end)
      && noCloser t
  end.

(** The newlines of [body]. *)
Definition newlines (body : list rune) : Z := len (filter (Z.eqb 10) body).

Lemma sanitize_eqb (a k : rune) :
  0 <= k < 128 -> (sanitize a =? k) = (a =? k).
Proof.
  intros Hk. unfold sanitize, validRune.
  destruct (((0 <=? a) && (a <? 55296)) || ((57343 <? a) && (a <=? 1114111))) eqn:Ha;
    [reflexivity|].
  destruct (a =? k) eqn:E.
  - apply Z.eqb_eq in E. subst a.
    replace (0 <=? k) with true in Ha by (symmetry; apply Z.leb_le; lia).
    replace (k <? 55296) with true in Ha by (symmetry; apply Z.ltb_lt; lia).
    discriminate.
  - apply Z.eqb_neq. lia.
Qed.

(** The loop of [lexBlockComment] up to the first [*/]. *)
Lemma blockCommentLoop_closed (rest : list rune) (body : list rune) :
  noCloser body = true ->
  forall l,
    exists col,
      blockCommentLoop (body ++ 42 :: 47 :: rest) l =
      mkLex (Content l) (Position l + len body + 2) col
            (Line l + newlines body) (Errors l).
Proof.
  induction body as [|a body IH]; intros Hno l.
  - exists (Column l + 3). cbn [app blockCommentLoop].
    replace (42 =? 10) with false by reflexivity.
    replace (hasPrefix (toString (42 :: 47 :: rest)) (str "*/")) with true
      by reflexivity.
    change (utf8len (sanitize 42)) with 1. change (len []) with 0.
    unfold newlines. cbn [filter]. change (len []) with 0.
    destruct l. cbn [setColumn setPosition Content Position Column Line Errors].
    lex_eq.
  - cbn [noCloser] in Hno. apply andb_true_iff in Hno. destruct Hno as [Ha Hno].
    apply negb_true_iff in Ha.
    cbn [app blockCommentLoop]. destruct (a =? 10) eqn:H10.
    + match goal with
      | |- context [blockCommentLoop _ ?l1] => destruct (IH Hno l1) as [col Hcol]
      end.
      exists col. rewrite Hcol. apply Z.eqb_eq in H10. subst a.
      unfold newlines, len. cbn [filter Z.eqb Pos.eqb List.length].
      destruct l. lex_eq.
    + assert (Hpre : hasPrefix (toString (a :: body ++ 42 :: 47 :: rest)) (str "*/")
                     = false).
      { change (str "*/") with [42; 47]. cbn [toString map hasPrefix].
        rewrite (sanitize_eqb a 42) by lia.
        destruct body as [|b body]; cbn [app map].
        - change (sanitize 42 =? 47) with false. rewrite andb_false_r. reflexivity.
        - rewrite (sanitize_eqb b 47) by lia. rewrite andb_true_r. exact Ha. }
      rewrite Hpre.
      match goal with
      | |- context [blockCommentLoop _ ?l1] => destruct (IH Hno l1) as [col Hcol]
      end.
      exists col. rewrite Hcol.
      unfold newlines, len. cbn [filter List.length]. rewrite Z.eqb_sym, H10.
      destruct l. lex_eq.
Qed.

(** The loop of [lexBlockComment] when no [*/] follows. *)
Lemma blockCommentLoop_open (body : list rune) :
  noCloser body = true ->
  forall l,
    exists col,
      blockCommentLoop body l =
      mkLex (Content l) (Position l + len body) col (Line l + newlines body)
            (Errors l ++ [mkError (Line l + newlines body) col "missing_block_comment"]).
Proof.
  induction body as [|a body IH]; intros Hno l.
  - exists (Column l). destruct l. unfold newlines, pushError, len.
    cbn [filter List.length blockCommentLoop Content Position Column Line Errors].
    lex_eq.
  - cbn [noCloser] in Hno. apply andb_true_iff in Hno. destruct Hno as [Ha Hno].
    apply negb_true_iff in Ha.
    cbn [blockCommentLoop]. destruct (a =? 10) eqn:H10.
    + match goal with
      | |- context [blockCommentLoop _ ?l1] => destruct (IH Hno l1) as [col Hcol]
      end.
      exists col. rewrite Hcol. apply Z.eqb_eq in H10. subst a.
      unfold newlines, len. cbn [filter Z.eqb Pos.eqb List.length].
      destruct l. lex_eq.
    + assert (Hpre : hasPrefix (toString (a :: body)) (str "*/") = false).
      { change (str "*/") with [42; 47]. cbn [toString map hasPrefix].
        rewrite (sanitize_eqb a 42) by lia.
        destruct body as [|b body]; cbn [map].
        - apply andb_false_r.
        - rewrite (sanitize_eqb b 47) by lia. rewrite andb_true_r. exact Ha. }
      rewrite Hpre.
      match goal with
      | |- context [blockCommentLoop _ ?l1] => destruct (IH Hno l1) as [col Hcol]
      end.
      exists col. rewrite Hcol.
      unfold newlines, len. cbn [filter List.length]. rewrite Z.eqb_sym, H10.
      destruct l. lex_eq.
Qed.

(** Only the head of the content decides which case of [Token] a comment
    takes. *)
Lemma Token_on_block_comment (l : Lex) (pre tail : list rune) :
  Content l = pre ++ 47 :: 42 :: tail ->
  Position l = len pre ->
  Token l = Some (mkToken NA [] (Column l) (Line l),
                  blockCommentLoop tail (setPosition l (Position l + 2))).
Proof.
  intros Hc Hp. unfold Lex.Token.
  rewrite (resume_at l pre (47 :: 42 :: tail) Hc Hp).
  cbn [resumeLoop]. replace (isSpace 47) with false by reflexivity.
  cbn [toString map]. change (sanitize 47) with 47. change (sanitize 42) with 42.
  match goal with
  | |- context [firstCase isPunct ?c punctuationCases] =>
      replace (firstCase isPunct c punctuationCases) with (@None SwitchCase)
        by reflexivity
  end.
  replace (47 =? 39) with false by reflexivity.
  replace (47 =? 34) with false by reflexivity.
  match goal with
  | |- context [hasPrefix ?c (str "//")] =>
      replace (hasPrefix c (str "//")) with false by reflexivity
  end.
  match goal with
  | |- context [hasPrefix ?c (str "/*")] =>
      replace (hasPrefix c (str "/*")) with true by reflexivity
  end.
  unfold lexBlockComment. cbn [Content Position setPosition].
  do 3 f_equal. rewrite Hc, Hp.
  replace (len pre + 2) with (len (pre ++ [47; 42]))
    by (rewrite len_app; reflexivity).
  replace (pre ++ 47 :: 42 :: tail) with ((pre ++ [47; 42]) ++ tail)
    by (rewrite <- app_assoc; reflexivity).
  apply skipn_len_app.
Qed.

(** X11: A block comment gives no token and no diagnostic: [Token] returns the
    [NA] token with the position behind the first [*/] after the opening
    and the line count advanced by the newlines of the comment. *)
Theorem Token_block_comment (l : Lex) (pre body rest : list rune) :
  Content l = pre ++ 47 :: 42 :: body ++ 42 :: 47 :: rest ->
  Position l = len pre ->
  noCloser body = true ->
  exists col,
    Token l = Some (mkToken NA [] (Column l) (Line l),
                    mkLex (Content l) (len pre + len body + 4) col
                          (Line l + newlines body) (Errors l)).
Proof.
  intros Hc Hp Hno.
  rewrite (Token_on_block_comment l pre (body ++ 42 :: 47 :: rest) Hc Hp).
  destruct (blockCommentLoop_closed rest body Hno (setPosition l (Position l + 2)))
    as [col Hcol].
  exists col. rewrite Hcol. cbn [Content Position Column Line Errors setPosition].
  rewrite Hp. lex_eq.
Qed.

(** X12: A block comment that is never closed runs to the end of the content
    and pushes [missing_block_comment], once, at the place the lexer has
    reached; the loop of [Tokenize] then ends. *)
Theorem Token_block_comment_open (l : Lex) (pre body : list rune) :
  Content l = pre ++ 47 :: 42 :: body ->
  Position l = len pre ->
  noCloser body = true ->
  exists col,
    Token l = Some (mkToken NA [] (Column l) (Line l),
                    mkLex (Content l) (len (Content l)) col (Line l + newlines body)
                          (Errors l ++ [mkError (Line l + newlines body) col
                                                "missing_block_comment"])).
Proof.
  intros Hc Hp Hno.
  rewrite (Token_on_block_comment l pre body Hc Hp).
  destruct (blockCommentLoop_open body Hno (setPosition l (Position l + 2)))
    as [col Hcol].
  exists col. rewrite Hcol. cbn [Content Position Column Line Errors setPosition].
  rewrite Hp. lex_eq. rewrite Hc, len_app. unfold len. cbn [List.length]. lia.
Qed.

(** [resume] over spaces that are followed by another rune. *)
Lemma resumeLoop_spaces (ws : list rune) (r : rune) (rest : list rune) :
  forallb isSpace ws = true -> isSpace r = false ->
  forall l,
    exists l',
      resumeLoop (ws ++ r :: rest) l = (toString (r :: rest), l') /\
      Content l' = Content l /\ Position l' = Position l + len ws /\
      Errors l' = Errors l.
Proof.
  intros Hws Hr. induction ws as [|w ws IH]; intros l.
  - exists l. cbn [app resumeLoop]. rewrite Hr. cbn. repeat split. lia.
  - cbn [forallb] in Hws. apply andb_true_iff in Hws. destruct Hws as [Hw Hws].
    cbn [app resumeLoop]. rewrite Hw.
    match goal with
    | |- context [resumeLoop _ ?l1] => destruct (IH Hws l1) as [l' [H1 [H2 [H3 H4]]]]
    end.
    exists l'. rewrite H1. split; [reflexivity|].
    rewrite H2, H3, H4. unfold len.
    destruct (w =? 10); destruct l; cbn; repeat split; lia.
Qed.

(** A call of [Token] with only spaces between the lexer's position and a
    quote that is the last rune of the content: [lexRune] and [lexString]
    cut the quote off, find nothing to loop over and return with the
    position on the quote. *)
Lemma Token_on_final_quote (l : Lex) (pre ws : list rune) (q : rune) :
  q = 39 \/ q = 34 -> forallb isSpace ws = true ->
  Content l = pre ++ ws ++ [q] -> Position l = len pre ->
  exists tok l',
    Token l = Some (tok, l') /\ TType tok = Value /\ TValue tok = [q] /\
    Content l' = Content l /\ Position l' = len (pre ++ ws).
Proof.
  intros Hq Hws Hc Hp. unfold Lex.Token.
  rewrite (resume_at l pre (ws ++ [q]) Hc Hp).
  assert (Hsp : isSpace q = false) by (destruct Hq as [-> | ->]; reflexivity).
  destruct (resumeLoop_spaces ws q [] Hws Hsp l) as [l1 [H1 [H2 [H3 H4]]]].
  rewrite H1. rewrite len_app, <- Hp, <- H3, <- H2.
  destruct l1 as [content position column line errors].
  destruct Hq as [-> | ->]; cbn; eexists _, _; repeat split.
Qed.

(** The loop of [Tokenize] from such a state. *)
Lemma TokenizeLoop_hangs (q : rune) :
  q = 39 \/ q = 34 ->
  forall fuel pre ws l tokens,
    forallb isSpace ws = true ->
    Content l = pre ++ ws ++ [q] -> Position l = len pre ->
    TokenizeLoop fuel tokens l = OutOfFuel.
Proof.
  intros Hq. induction fuel as [|n IH]; intros pre ws l tokens Hws Hc Hp;
    cbn [Lex.TokenizeLoop]; rewrite Hp, Hc, !len_app;
    replace (len pre <? len pre + (len ws + len [q])) with true
      by (symmetry; apply Z.ltb_lt; pose proof (len_nonneg ws); cbn; lia);
    cbn [negb]; [reflexivity|].
  destruct (Token_on_final_quote l pre ws q Hq Hws Hc Hp)
    as [tok [l' [Htok [_ [_ [Hc' Hp']]]]]].
  rewrite Htok. apply (IH (pre ++ ws) []); [reflexivity| |exact Hp'].
  rewrite Hc', Hc, <- app_assoc. reflexivity.
Qed.

(** X4: A source whose last rune is a quote that opens a literal is never
    tokenized.  When only spaces separate the lexer's position from a final
    ['] or double quote, [Token] returns a token and leaves [Position] on
    the quote, below the length of the content, so the loop of [Tokenize]
    goes round for ever: for no number of iterations has it returned. *)
Theorem Tokenize_hangs_on_final_quote (pre ws : list rune) (q : rune) (l : Lex) :
  q = 39 \/ q = 34 ->
  forallb isSpace ws = true ->
  Content l = pre ++ ws ++ [q] -> Position l = len pre ->
  forall fuel, Tokenize fuel l = OutOfFuel.
Proof.
  intros Hq Hws Hc Hp fuel. unfold Lex.Tokenize.
  apply (TokenizeLoop_hangs q Hq fuel pre ws); assumption.
Qed.

(** C9: [Tokenize] does not terminate on every source.  On the source that
    is one single quote, [Token], called with the position before the end
    of the content, pushes [rune_empty], returns a value token and leaves
    the position where it was: [lexRune] cuts the opening quote off without
    counting it and finds nothing to loop over.  So the loop of [Tokenize]
    has not returned after any number of iterations. *)
Theorem Tokenize_lone_quote_never_returns :
  Token (newLex (str "'")) =
    Some (mkToken Value (str "'") 1 1,
          mkLex (str "'") 0 2 1 [mkError 1 2 "rune_empty"]) /\
  Position (newLex (str "'")) < len (Content (newLex (str "'"))) /\
  forall fuel, Tokenize fuel (newLex (str "'")) = OutOfFuel.
Proof.
  split; [reflexivity|]. split; [reflexivity|].
  intros fuel. unfold Lex.Tokenize.
  apply (TokenizeLoop_hangs 39 (or_introl eq_refl) fuel [] []); reflexivity.
Qed.

End Facts.

(** The source [x = '], once [x] and [=] are lexed, is in such a state; so
    is the source ['] from the start. *)
Lemma Tokenize_hangs_on_final_quote_witness :
  Tokenize (fun _ => false) (fun _ => false) 1000
    (mkLex (str "x = '") 3 4 1 []) = OutOfFuel.
Proof.
  apply (Tokenize_hangs_on_final_quote (fun _ => false) (fun _ => false)
           (str "x =") (str " ") 39);
    [left; reflexivity | reflexivity | reflexivity | reflexivity].
Defined.

Lemma Tokenize_returns_witness :
  exists tokens l',
    Tokenize (fun _ => false) (fun _ => false)
      (Z.to_nat (len (Content (newLex (str "x = 'a'; // end"))) -
                 Position (newLex (str "x = 'a'; // end"))))
      (newLex (str "x = 'a'; // end")) = Returned (tokens, l') /\
    Content l' = Content (newLex (str "x = 'a'; // end")) /\
    len (Content (newLex (str "x = 'a'; // end"))) <= Position l'.
Proof.
  apply (Tokenize_returns (fun _ => false) (fun _ => false)
           (newLex (str "x = 'a'; // end"))); [cbn; lia | reflexivity | reflexivity].
Defined.

Lemma Token_advances_witness :
  exists tok l',
    Token (fun _ => false) (fun _ => false) (newLex (str "'a' + 1")) = Some (tok, l') /\
    Content l' = Content (newLex (str "'a' + 1")) /\
    Position (newLex (str "'a' + 1")) < Position l'.
Proof.
  apply (Token_advances (fun _ => false) (fun _ => false) (newLex (str "'a' + 1")));
    [cbn; lia | reflexivity].
Defined.

Lemma lexRune_plain_witness :
  lexRune (newLex (str "'ab' + 1")) (str "'ab' + 1") =
  Some (str "'ab'",
        mkLex (str "'ab' + 1") 4 5 1 [mkError 1 5 "rune_overflow"]).
Proof.
  apply (lexRune_plain (newLex (str "'ab' + 1")) (str "ab") (str " + 1")).
  reflexivity.
Defined.

Lemma Token_unterminated_rune_witness :
  exists l',
    Token (fun _ => false) (fun _ => false)
      (mkLex (39 :: 97 :: 10 :: str "x") 0 1 1 []) =
      Some (mkToken Value [] 1 1, l') /\
    Position l' = 2 /\
    index (Content l') (Position l') = Some 10 /\
    Line l' = 2 /\
    Errors l' = [mkError 1 3 "missing_rune_end"].
Proof.
  apply (Token_unterminated_rune (fun _ => false) (fun _ => false)
           (mkLex (39 :: 97 :: 10 :: str "x") 0 1 1 []) [] [97] (str "x"));
    reflexivity.
Defined.

Lemma lexString_plain_witness :
  lexString (newLex (34 :: str "hi" ++ 34 :: str ";")) (34 :: str "hi" ++ 34 :: str ";") =
  Some (34 :: str "hi" ++ [34],
        mkLex (34 :: str "hi" ++ 34 :: str ";") 4 5 1 []).
Proof.
  apply (lexString_plain (newLex (34 :: str "hi" ++ 34 :: str ";")) (str "hi") (str ";")).
  reflexivity.
Defined.

Lemma lexString_escape_read_twice_witness :
  lexString (newLex (34 :: str "a\nb" ++ 34 :: str ";"))
            (34 :: str "a" ++ 92 :: 110 :: str "b" ++ 34 :: str ";") =
  Some (34 :: str "a\nnb" ++ [34],
        mkLex (34 :: str "a\nb" ++ 34 :: str ";") 7 8 1 []).
Proof.
  apply (lexString_escape_read_twice (newLex (34 :: str "a\nb" ++ 34 :: str ";"))
           (str "a") (str "b") (str ";") 110); reflexivity.
Defined.

Lemma Token_line_comment_witness :
  Token (fun _ => false) (fun _ => false)
    (mkLex (str "x // c" ++ 10 :: str "y") 2 3 1 []) =
  Some (mkToken NA [] 3 1, mkLex (str "x // c" ++ 10 :: str "y") 7 1 2 []).
Proof.
  apply (Token_line_comment (fun _ => false) (fun _ => false)
           (mkLex (str "x // c" ++ 10 :: str "y") 2 3 1 [])
           (str "x ") (str " c") (str "y")); reflexivity.
Defined.

Lemma Token_line_comment_at_end_witness :
  Token (fun _ => false) (fun _ => false) (mkLex (str "x // c") 2 3 1 []) =
  Some (mkToken NA [] 3 1, mkLex (str "x // c") 6 3 1 []).
Proof.
  apply (Token_line_comment_at_end (fun _ => false) (fun _ => false)
           (mkLex (str "x // c") 2 3 1 []) (str "x ") (str " c")); reflexivity.
Defined.

Lemma Token_block_comment_witness :
  exists col,
    Token (fun _ => false) (fun _ => false)
      (mkLex (str "x /* a" ++ 10 :: str "b **/ y") 2 3 1 []) =
    Some (mkToken NA [] 3 1,
          mkLex (str "x /* a" ++ 10 :: str "b **/ y") 12 col 2 []).
Proof.
  apply (Token_block_comment (fun _ => false) (fun _ => false)
           (mkLex (str "x /* a" ++ 10 :: str "b **/ y") 2 3 1 [])
           (str "x ") (str " a" ++ 10 :: str "b *") (str " y")); reflexivity.
Defined.

Lemma Token_block_comment_open_witness :
  exists col,
    Token (fun _ => false) (fun _ => false)
      (mkLex (str "x /* a" ++ 10 :: str "b *") 2 3 1 []) =
    Some (mkToken NA [] 3 1,
          mkLex (str "x /* a" ++ 10 :: str "b *") 10 col 2
                [mkError 2 col "missing_block_comment"]).
Proof.
  apply (Token_block_comment_open (fun _ => false) (fun _ => false)
           (mkLex (str "x /* a" ++ 10 :: str "b *") 2 3 1 [])
           (str "x ") (str " a" ++ 10 :: str "b *")); reflexivity.
Defined.

End LexFacts.

(** * Token ranges of [parser.go]: [getRange] and [buildEnumerableParts] *)
Module ParserRanges.
Import Ast Parser.

(** Go's [s[lo:hi]] on a slice; [None] is the panic.  [hi] is compared with
    the length: in the functions below it never exceeds it, so that the
    capacity of the slice plays no part. *)
Definition slice {A : Type} (l : list A) (lo hi : Z) : option (list A) :=
  if (lo <? 0) || (hi <? lo) || (len l <? hi) then None
  else Some (firstn (Z.to_nat (hi - lo)) (skipn (Z.to_nat lo) l)).

(** *** [getRange] (parser.go:1734) *)

(** The loop [for index, token := range tokens]: the index at which it
    returns, [None] when it runs to the end. *)
Fixpoint getRangeLoop (open close : string) (index braceCount : Z)
    (tokens : list Token) : option Z :=
  match tokens with
  | [] => None
  | token :: rest =>
      if negb (TokenId_eqb (TId token) Brace) then
        getRangeLoop open close (index + 1) braceCount rest
      else
        let braceCount' :=
          if String.eqb (Kind token) open then braceCount + 1
          else if String.eqb (Kind token) close then braceCount - 1
          else braceCount in
        if 0 <? braceCount' then getRangeLoop open close (index + 1) braceCount' rest
        else Some index
  end.

(** [getRange]: [None] is the result [nil, false], [Some r] the result
    [r, true]. *)
Definition getRange (open close : string) (tokens : list Token)
  : Outcome (option (list Token)) :=
  match tokens with
  | [] => Panicked
  | first :: _ =>
      if negb (TokenId_eqb (TId first) Brace) then Returned None
      else
        match getRangeLoop open close 0 0 tokens with
        | Some index =>
            match slice tokens 1 index with
            | Some r => Returned (Some r)
            | None => Panicked
            end
        | None => Returned None
        end
  end.

(** *** [buildEnumerableParts] (parser.go:1579) *)

(** The brace counting shared by [buildEnumerableParts] and
    [retChecker.checkepxrs]: an opening brace counts up, every other brace
    token counts down. *)
Definition countBrace (token : Token) (braceCount : Z) : Z :=
  if TokenId_eqb (TId token) Brace then
    if oneOf (Kind token) ["{"; "["; "("] then braceCount + 1 else braceCount - 1
  else braceCount.

(** The local variables of [buildEnumerableParts] and the parser's logs. *)
Record PartsState : Type := mkParts {
  braceCount : Z;
  lastComma : Z;
  parts : list (list Token);
  partLogs : list CompilerLog
}.

(** The loop [for index, token := range tokens], from [index] on. *)
Fixpoint buildPartsLoop (tokens : list Token) (index : Z) (rest : list Token)
    (st : PartsState) : Outcome PartsState :=
  match rest with
  | [] => Returned st
  | token :: rest' =>
      let count := countBrace token (braceCount st) in
      if 0 <? count then
        buildPartsLoop tokens (index + 1) rest'
          (mkParts count (lastComma st) (parts st) (partLogs st))
      else if TokenId_eqb (TId token) Comma then
        if index - lastComma st - 1 =? 0 then
          buildPartsLoop tokens (index + 1) rest'
            (mkParts count index (parts st)
                     (pusherrtok (partLogs st) token "missing_expression"))
        else
          match slice tokens (lastComma st + 1) index with
          | Some part =>
              buildPartsLoop tokens (index + 1) rest'
                (mkParts count index (parts st ++ [part]) (partLogs st))
          | None => Panicked
          end
      else
        buildPartsLoop tokens (index + 1) rest'
          (mkParts count (lastComma st) (parts st) (partLogs st))
  end.

(** The statements after the loop. *)
Definition buildPartsEnd (tokens : list Token) (o : Outcome PartsState)
  : Outcome (list (list Token) * list CompilerLog) :=
  match o with
  | Returned st =>
      if lastComma st + 1 <? len tokens then
        match slice tokens (lastComma st + 1) (len tokens) with
        | Some part => Returned (parts st ++ [part], partLogs st)
        | None => Panicked
        end
      else Returned (parts st, partLogs st)
  | Panicked => Panicked
  | OutOfFuel => OutOfFuel
  end.

(** [buildEnumerableParts]: the parts and the parser's logs afterwards. *)
Definition buildEnumerableParts (logs : list CompilerLog) (tokens : list Token)
  : Outcome (list (list Token) * list CompilerLog) :=
  match slice tokens 1 (len tokens - 1) with
  | None => Panicked
  | Some inner =>
      buildPartsEnd inner (buildPartsLoop inner 0 inner (mkParts 0 (-1) [] logs))
  end.

End ParserRanges.

(** * Facts on the token ranges *)
Module ParserRangesFacts.
Import Ast Parser ParserRanges.

(** The brace count of [getRange] after [ts], from [d], provided it stays
    positive on the way. *)
Fixpoint insideRange (open close : string) (d : Z) (ts : list Token) : option Z :=
  match ts with
  | [] => Some d
  | token :: rest =>
      let d' :=
        if negb (TokenId_eqb (TId token) Brace) then d
        else if String.eqb (Kind token) open then d + 1
        else if String.eqb (Kind token) close then d - 1
        else d in
      if 0 <? d' then insideRange open close d' rest else None
  end.

(** The brace count of [buildEnumerableParts] after [ts], from [d], provided
    no comma is met while the count is not positive. *)
Fixpoint segmentDepth (d : Z) (ts : list Token) : option Z :=
  match ts with
  | [] => Some d
  | token :: rest =>
      let d' := countBrace token d in
      if 0 <? d' then segmentDepth d' rest
      else if TokenId_eqb (TId token) Comma then None
      else segmentDepth d' rest
  end.

(** One expression of an enumeration: not empty, balanced, and with its
    commas inside braces. *)
Definition isSegment (seg : list Token) : Prop :=
  seg <> [] /\ segmentDepth 0 seg = Some 0.

(** A separator and the expression behind it. *)
Definition separated (cs : Token * list Token) : list Token := fst cs :: snd cs.

Lemma slice_middle {A : Type} (a b c : list A) :
  slice (a ++ b ++ c) (len a) (len a + len b) = Some b.
Proof.
  unfold slice.
  pose proof (len_nonneg a). pose proof (len_nonneg b). pose proof (len_nonneg c).
  rewrite !len_app.
  replace (len a <? 0) with false by (symmetry; apply Z.ltb_ge; lia).
  replace (len a + len b <? len a) with false by (symmetry; apply Z.ltb_ge; lia).
  replace (len a + (len b + len c) <? len a + len b) with false
    by (symmetry; apply Z.ltb_ge; lia).
  cbn [orb]. f_equal.
  replace (Z.to_nat (len a)) with (List.length a) by (unfold len; lia).
  replace (Z.to_nat (len a + len b - len a)) with (List.length b) by (unfold len; lia).
  rewrite skipn_app, skipn_all, Nat.sub_diag. cbn [skipn app].
  rewrite firstn_app, firstn_all, Nat.sub_diag. cbn [firstn]. apply app_nil_r.
Qed.

Lemma getRangeLoop_closes (open close : string) (closer : Token) (rest : list Token) :
  TId closer = Brace -> Kind closer = close -> close <> open ->
  forall r i d,
    insideRange open close d r = Some 1 ->
    0 < d ->
    getRangeLoop open close i d (r ++ closer :: rest) = Some (i + len r).
Proof.
  intros Hid Hkind Hne.
  induction r as [|token r IH]; intros i d Hin Hd.
  - cbn in Hin. injection Hin as ->. cbn [app getRangeLoop].
    rewrite Hid, Hkind. cbn [TokenId_eqb negb].
    replace (String.eqb close open) with false
      by (symmetry; apply String.eqb_neq; exact Hne).
    rewrite String.eqb_refl. cbn. f_equal. unfold len. cbn. lia.
  - cbn [app getRangeLoop]. cbn [insideRange] in Hin.
    replace (len (token :: r)) with (1 + len r) by (unfold len; cbn [List.length]; lia).
    destruct (negb (TokenId_eqb (TId token) Brace)).
    + replace (0 <? d) with true in Hin by (symmetry; apply Z.ltb_lt; lia).
      rewrite (IH (i + 1) d Hin Hd). f_equal. lia.
    + cbv zeta in Hin |- *.
      destruct (0 <? _) eqn:Hpos; [|discriminate].
      apply Z.ltb_lt in Hpos. rewrite (IH (i + 1) _ Hin Hpos). f_equal. lia.
Qed.

Lemma getRangeLoop_shape (open close : string) :
  forall ts i d k,
    getRangeLoop open close i d ts = Some k ->
    0 < d ->
    exists r closer rest,
      ts = r ++ closer :: rest /\ k = i + len r /\
      insideRange open close d r = Some 1 /\
      TId closer = Brace /\ Kind closer = close /\ close <> open.
Proof.
  induction ts as [|token ts IH]; intros i d k Hloop Hd; [discriminate|].
  cbn [getRangeLoop] in Hloop.
  destruct (negb (TokenId_eqb (TId token) Brace)) eqn:Hbrace.
  - destruct (IH _ _ _ Hloop Hd) as (r & closer & rest & -> & -> & Hin & Hc).
    exists (token :: r), closer, rest. split; [reflexivity|]. split.
    + unfold len. cbn [List.length]. lia.
    + split; [|exact Hc]. cbn [insideRange]. rewrite Hbrace.
      replace (0 <? d) with true by (symmetry; apply Z.ltb_lt; lia). exact Hin.
  - cbv zeta in Hloop. destruct (0 <? _) eqn:Hpos.
    + apply Z.ltb_lt in Hpos.
      destruct (IH _ _ _ Hloop Hpos) as (r & closer & rest & -> & -> & Hin & Hc).
      exists (token :: r), closer, rest. split; [reflexivity|]. split.
      * unfold len. cbn [List.length]. lia.
      * split; [|exact Hc]. cbn [insideRange]. rewrite Hbrace. cbv zeta.
        replace (0 <? _) with true by (symmetry; apply Z.ltb_lt; exact Hpos).
        exact Hin.
    + injection Hloop as <-. apply Z.ltb_ge in Hpos.
      exists [], token, ts. split; [reflexivity|]. split; [unfold len; cbn; lia|].
      destruct (String.eqb (Kind token) open) eqn:Hopen; [lia|].
      destruct (String.eqb (Kind token) close) eqn:Hclose; [|lia].
      apply String.eqb_eq in Hclose. apply String.eqb_neq in Hopen.
      split; [cbn; f_equal; lia|]. split.
      * destruct (TId token); try discriminate. reflexivity.
      * split; [exact Hclose | congruence].
Qed.

Lemma slice_tail {A : Type} (first : A) (r rest : list A) :
  slice (first :: r ++ rest) 1 (1 + len r) = Some r.
Proof.
  exact (slice_middle [first] r rest).
Qed.

(** X13: [getRange] returns the tokens between the first token and the brace
    that closes it: when the tokens start with the opening brace, the count
    stays positive over [r] and comes back to one, and a closing brace
    follows, the result is [r]. *)
Theorem getRange_matching (open close : string) (first closer : Token)
    (r rest : list Token) :
  TId first = Brace -> Kind first = open ->
  insideRange open close 1 r = Some 1 ->
  TId closer = Brace -> Kind closer = close -> close <> open ->
  getRange open close (first :: r ++ closer :: rest) = Returned (Some r).
Proof.
  intros Hfid Hfkind Hin Hcid Hckind Hne.
  unfold getRange. rewrite Hfid. cbn [TokenId_eqb negb].
  cbn [getRangeLoop]. rewrite Hfid, Hfkind, String.eqb_refl. cbn [TokenId_eqb negb].
  cbv zeta. replace (0 <? 0 + 1) with true by reflexivity.
  rewrite (getRangeLoop_closes open close closer rest Hcid Hckind Hne r (0 + 1) (0 + 1))
    by (try exact Hin; lia).
  replace (0 + 1 + len r) with (1 + len r) by lia.
  rewrite (slice_tail first r (closer :: rest)). reflexivity.
Qed.

(** X14: Whenever [getRange] returns a range, the tokens are the opening brace,
    the range, the closing brace and a rest, the brace count stays positive
    over the range, and [close] differs from [open]. *)
Theorem getRange_shape (open close : string) (tokens r : list Token) :
  getRange open close tokens = Returned (Some r) ->
  exists first closer rest,
    tokens = first :: r ++ closer :: rest /\
    TId first = Brace /\ Kind first = open /\
    insideRange open close 1 r = Some 1 /\
    TId closer = Brace /\ Kind closer = close /\ close <> open.
Proof.
  unfold getRange. destruct tokens as [|first ts]; [discriminate|].
  destruct (negb (TokenId_eqb (TId first) Brace)) eqn:Hbrace; [discriminate|].
  cbn [getRangeLoop]. rewrite Hbrace. cbv zeta.
  assert (Hfid : TId first = Brace)
    by (destruct (TId first); try discriminate; reflexivity).
  destruct (String.eqb (Kind first) open) eqn:Hopen.
  - replace (0 <? 0 + 1) with true by reflexivity.
    destruct (getRangeLoop open close (0 + 1) (0 + 1) ts) as [k|] eqn:Hloop;
      [|discriminate].
    destruct (getRangeLoop_shape open close ts _ _ _ Hloop ltac:(lia))
      as (r' & closer & rest & -> & -> & Hin & Hc).
    replace (0 + 1 + len r') with (1 + len r') by lia.
    rewrite (slice_tail first r' (closer :: rest)).
    intros H. injection H as <-.
    exists first, closer, rest. apply String.eqb_eq in Hopen.
    split; [reflexivity|]. split; [exact Hfid|]. split; [exact Hopen|].
    split; [exact Hin | exact Hc].
  - assert (Hret : forall c, (0 <? c) = false ->
                     (if 0 <? c then getRangeLoop open close (0 + 1) c ts else Some 0)
                     = Some 0) by (intros c ->; reflexivity).
    destruct (String.eqb (Kind first) close);
      rewrite Hret by reflexivity; cbn; discriminate.
Qed.

(** [getRange] panics when the first token is a brace other than [open]:
    the loop stops at index 0 and the range [tokens[1:0]] is taken. *)
Theorem getRange_foreign_brace (open close : string) (first : Token)
    (rest : list Token) :
  TId first = Brace -> Kind first <> open ->
  getRange open close (first :: rest) = Panicked.
Proof.
  intros Hfid Hkind. unfold getRange. rewrite Hfid. cbn [TokenId_eqb negb].
  cbn [getRangeLoop]. rewrite Hfid. cbn [TokenId_eqb negb]. cbv zeta.
  replace (String.eqb (Kind first) open) with false
    by (symmetry; apply String.eqb_neq; exact Hkind).
  destruct (String.eqb (Kind first) close); reflexivity.
Qed.

(** The loop of [buildEnumerableParts] over one expression. *)
Lemma buildPartsLoop_segment (tokens : list Token) :
  forall seg d d' index tail lc ps lg,
    segmentDepth d seg = Some d' ->
    buildPartsLoop tokens index (seg ++ tail) (mkParts d lc ps lg) =
    buildPartsLoop tokens (index + len seg) tail (mkParts d' lc ps lg).
Proof.
  induction seg as [|token seg IH]; intros d d' index tail lc ps lg Hseg.
  - cbn in Hseg. injection Hseg as ->. cbn [app]. do 2 f_equal.
    unfold len. cbn. lia.
  - cbn [segmentDepth] in Hseg. cbv zeta in Hseg.
    cbn [app buildPartsLoop braceCount lastComma parts partLogs]. cbv zeta.
    replace (index + len (token :: seg)) with (index + 1 + len seg)
      by (unfold len; cbn [List.length]; lia).
    destruct (0 <? countBrace token d).
    + apply IH. exact Hseg.
    + destruct (TokenId_eqb (TId token) Comma); [discriminate|].
      apply IH. exact Hseg.
Qed.

Lemma countBrace_comma (c : Token) (d : Z) : TId c = Comma -> countBrace c d = d.
Proof. intros H. unfold countBrace. rewrite H. reflexivity. Qed.

Lemma len_cons {A : Type} (a : A) (l : list A) : len (a :: l) = 1 + len l.
Proof. unfold len. cbn [List.length]. lia. Qed.

Lemma len_pos {A : Type} (l : list A) : l <> [] -> 0 < len l.
Proof. destruct l; [congruence|]. intros _. rewrite len_cons. pose proof (len_nonneg l). lia. Qed.

Lemma buildParts_segments :
  forall more pre seg ps lg,
    isSegment seg ->
    Forall (fun cs => TId (fst cs) = Comma /\ isSegment (snd cs)) more ->
    buildPartsEnd (pre ++ seg ++ List.concat (map separated more))
      (buildPartsLoop (pre ++ seg ++ List.concat (map separated more)) (len pre)
         (seg ++ List.concat (map separated more)) (mkParts 0 (len pre - 1) ps lg))
    = Returned (ps ++ seg :: map snd more, lg).
Proof.
  induction more as [|[c s] more IH]; intros pre seg ps lg [Hne Hseg] Hmore.
  - cbn [map List.concat]. rewrite (buildPartsLoop_segment _ seg 0 0 _ [] _ _ _ Hseg).
    cbn [buildPartsLoop buildPartsEnd lastComma parts partLogs].
    pose proof (len_pos seg Hne) as Hpos.
    rewrite app_nil_r, len_app.
    replace (len pre - 1 + 1 <? len pre + len seg) with true
      by (symmetry; apply Z.ltb_lt; lia).
    replace (len pre - 1 + 1) with (len pre) by lia.
    pose proof (slice_middle pre seg []) as Hs. rewrite app_nil_r in Hs. rewrite Hs.
    reflexivity.
  - inversion Hmore as [|? ? [Hc Hs] Hmore']; subst. cbn [fst snd] in Hc, Hs.
    cbn [map List.concat separated fst snd].
    rewrite (buildPartsLoop_segment _ seg 0 0 _ _ _ _ _ Hseg).
    change (separated (c, s)) with (c :: s).
    cbn [app buildPartsLoop braceCount lastComma parts partLogs]. cbv zeta.
    rewrite (countBrace_comma c 0 Hc). replace (0 <? 0) with false by reflexivity.
    rewrite Hc. cbn [TokenId_eqb].
    pose proof (len_pos seg Hne) as Hpos.
    replace (len pre + len seg - (len pre - 1) - 1 =? 0) with false
      by (symmetry; apply Z.eqb_neq; lia).
    replace (len pre - 1 + 1) with (len pre) by lia.
    rewrite (slice_middle pre seg (c :: s ++ List.concat (map separated more))).
    specialize (IH (pre ++ seg ++ [c]) s (ps ++ [seg]) lg Hs Hmore').
    replace (len (pre ++ seg ++ [c])) with (len pre + len seg + 1) in IH
      by (rewrite !len_app; unfold len; cbn [List.length]; lia).
    replace (len pre + len seg + 1 - 1) with (len pre + len seg) in IH by lia.
    replace ((pre ++ seg ++ [c]) ++ s ++ List.concat (map separated more))
      with (pre ++ seg ++ (c :: s) ++ List.concat (map separated more)) in IH
      by (rewrite <- !app_assoc; reflexivity).
    cbn [app] in IH |- *. rewrite IH. rewrite <- app_assoc. reflexivity.
Qed.

(** X15: [buildEnumerableParts] gives back the expressions of an enumeration:
    for tokens made of an opening token, expressions separated by commas
    and a closing token, the parts are the expressions, in order, and no
    diagnostic is pushed. *)
Theorem buildEnumerableParts_splits (logs : list CompilerLog) (open close : Token)
    (first : list Token) (more : list (Token * list Token)) :
  isSegment first ->
  Forall (fun cs => TId (fst cs) = Comma /\ isSegment (snd cs)) more ->
  buildEnumerableParts logs
    (open :: (first ++ List.concat (map separated more)) ++ [close])
  = Returned (first :: map snd more, logs).
Proof.
  intros Hfirst Hmore. unfold buildEnumerableParts.
  set (inner := first ++ List.concat (map separated more)).
  replace (len (open :: inner ++ [close]) - 1) with (len [open] + len inner)
    by (rewrite !len_cons, len_app; unfold len; cbn [List.length]; lia).
  change (slice (open :: inner ++ [close]) 1 (len [open] + len inner))
    with (slice ([open] ++ inner ++ [close]) (len [open]) (len [open] + len inner)).
  rewrite (slice_middle [open] inner [close]).
  exact (buildParts_segments more [] first [] logs Hfirst Hmore).
Qed.

Lemma slice_nonempty {A : Type} (l : list A) (lo hi : Z) :
  0 <= lo -> lo < hi -> hi <= len l ->
  exists part, slice l lo hi = Some part /\ part <> [].
Proof.
  intros Hlo Hlt Hhi. unfold slice.
  replace (lo <? 0) with false by (symmetry; apply Z.ltb_ge; lia).
  replace (hi <? lo) with false by (symmetry; apply Z.ltb_ge; lia).
  replace (len l <? hi) with false by (symmetry; apply Z.ltb_ge; lia).
  cbn [orb]. eexists. split; [reflexivity|].
  intros Hnil. apply (f_equal (@List.length A)) in Hnil.
  rewrite length_firstn, length_skipn in Hnil. cbn [List.length] in Hnil.
  unfold len in Hhi. lia.
Qed.

Lemma buildPartsLoop_invariant (tokens : list Token) :
  forall rest pre st,
    tokens = pre ++ rest ->
    -1 <= lastComma st < len pre ->
    Forall (fun part => part <> []) (parts st) ->
    exists st' extra,
      buildPartsLoop tokens (len pre) rest st = Returned st' /\
      -1 <= lastComma st' < len tokens /\
      Forall (fun part => part <> []) (parts st') /\
      partLogs st' = partLogs st ++ extra /\
      Forall (fun l => LogKey l = "missing_expression") extra.
Proof.
  induction rest as [|token rest IH]; intros pre st Htok Hlc Hparts.
  - exists st, []. rewrite app_nil_r in Htok. subst pre.
    repeat split; try lia; try assumption; [symmetry; apply app_nil_r | constructor].
  - assert (Htok' : tokens = (pre ++ [token]) ++ rest)
      by (rewrite <- app_assoc; exact Htok).
    assert (Hlen : len (pre ++ [token]) = len pre + 1)
      by (rewrite len_app; reflexivity).
    assert (Hnext : forall st1 extra1,
               -1 <= lastComma st1 < len pre + 1 ->
               Forall (fun part => part <> []) (parts st1) ->
               partLogs st1 = partLogs st ++ extra1 ->
               Forall (fun l => LogKey l = "missing_expression") extra1 ->
               exists st' extra,
                 buildPartsLoop tokens (len pre + 1) rest st1 = Returned st' /\
                 -1 <= lastComma st' < len tokens /\
                 Forall (fun part => part <> []) (parts st') /\
                 partLogs st' = partLogs st ++ extra /\
                 Forall (fun l => LogKey l = "missing_expression") extra).
    { intros st1 extra1 Hlc1 Hparts1 Hlogs1 Hextra1.
      destruct (IH (pre ++ [token]) st1 Htok')
        as (st' & extra & Hrun & Hlc' & Hparts' & Hlogs & Hextra);
        [rewrite Hlen; exact Hlc1 | exact Hparts1 |].
      rewrite Hlen in Hrun.
      exists st', (extra1 ++ extra).
      split; [exact Hrun|]. split; [exact Hlc'|]. split; [exact Hparts'|]. split.
      - rewrite Hlogs, Hlogs1. symmetry. apply app_assoc.
      - apply Forall_app. split; assumption. }
    cbn [buildPartsLoop]. cbv zeta.
    destruct (0 <? countBrace token (braceCount st)).
    + apply (Hnext _ []); cbn [lastComma parts partLogs];
        [lia | exact Hparts | symmetry; apply app_nil_r | constructor].
    + destruct (TokenId_eqb (TId token) Comma).
      * destruct (len pre - lastComma st - 1 =? 0) eqn:Hz.
        -- apply (Hnext _ [mkLog (Row token) (Column token) "missing_expression"]);
             cbn [lastComma parts partLogs];
             [lia | exact Hparts | reflexivity | constructor; [reflexivity | constructor]].
        -- apply Z.eqb_neq in Hz.
           destruct (slice_nonempty tokens (lastComma st + 1) (len pre))
             as (part & Hslice & Hne); try lia.
           { rewrite Htok, len_app. pose proof (len_nonneg (token :: rest)). lia. }
           rewrite Hslice.
           apply (Hnext _ []); cbn [lastComma parts partLogs];
             [lia | | symmetry; apply app_nil_r | constructor].
           apply Forall_app. split; [exact Hparts | constructor; [exact Hne | constructor]].
      * apply (Hnext _ []); cbn [lastComma parts partLogs];
          [lia | exact Hparts | symmetry; apply app_nil_r | constructor].
Qed.

(** X16: On any token list of at least two tokens [buildEnumerableParts]
    returns; none of its parts is empty, and the only diagnostics it adds
    are [missing_expression]. *)
Theorem buildEnumerableParts_parts (logs : list CompilerLog) (tokens : list Token) :
  2 <= len tokens ->
  exists ps extra,
    buildEnumerableParts logs tokens = Returned (ps, logs ++ extra) /\
    Forall (fun part => part <> []) ps /\
    Forall (fun l => LogKey l = "missing_expression") extra.
Proof.
  intros Hlen. unfold buildEnumerableParts.
  destruct (slice tokens 1 (len tokens - 1)) as [inner|] eqn:Hinner.
  2:{ unfold slice in Hinner.
      replace (1 <? 0) with false in Hinner by reflexivity.
      replace (len tokens - 1 <? 1) with false in Hinner
        by (symmetry; apply Z.ltb_ge; lia).
      replace (len tokens <? len tokens - 1) with false in Hinner
        by (symmetry; apply Z.ltb_ge; lia).
      discriminate. }
  destruct (buildPartsLoop_invariant inner inner [] (mkParts 0 (-1) [] logs))
    as (st' & extra & Hrun & Hlc & Hparts & Hlogs & Hextra);
    cbn [lastComma parts]; [reflexivity | unfold len; cbn; lia | constructor |].
  change (len []) with 0 in Hrun. rewrite Hrun. cbn [buildPartsEnd].
  cbn [partLogs] in Hlogs. rewrite Hlogs.
  destruct (lastComma st' + 1 <? len inner) eqn:Hlast.
  - apply Z.ltb_lt in Hlast.
    destruct (slice_nonempty inner (lastComma st' + 1) (len inner))
      as (part & Hslice & Hne); try lia.
    rewrite Hslice. exists (parts st' ++ [part]), extra.
    split; [reflexivity|]. split; [|exact Hextra].
    apply Forall_app. split; [exact Hparts | constructor; [exact Hne | constructor]].
  - exists (parts st'), extra. split; [reflexivity|]. split; assumption.
Qed.

(** Tokens for the examples. *)
Definition brace (kind : string) : Token := mkToken Brace kind 1 1.
Definition ident (name : string) : Token := mkToken Id name 1 1.
Definition comma : Token := mkToken Comma "," 1 1.

(** [(a (b)) c] *)
Lemma getRange_matching_witness :
  getRange "(" ")"
    [brace "("; ident "a"; brace "("; ident "b"; brace ")"; brace ")"; ident "c"]
  = Returned (Some [ident "a"; brace "("; ident "b"; brace ")"]).
Proof.
  apply (getRange_matching "(" ")" (brace "(") (brace ")")
           [ident "a"; brace "("; ident "b"; brace ")"] [ident "c"]);
    try reflexivity.
  discriminate.
Defined.

(** [([a]) b] *)
Lemma getRange_shape_witness :
  exists first closer rest,
    [brace "("; brace "["; ident "a"; brace "]"; brace ")"; ident "b"] =
      first :: [brace "["; ident "a"; brace "]"] ++ closer :: rest /\
    TId first = Brace /\ Kind first = "(" /\
    insideRange "(" ")" 1 [brace "["; ident "a"; brace "]"] = Some 1 /\
    TId closer = Brace /\ Kind closer = ")" /\ ")" <> "(".
Proof.
  apply (getRange_shape "(" ")"
           [brace "("; brace "["; ident "a"; brace "]"; brace ")"; ident "b"]
           [brace "["; ident "a"; brace "]"]).
  reflexivity.
Defined.

(** [[a] b] read as a range of parentheses. *)
Lemma getRange_foreign_brace_witness :
  getRange "(" ")" [brace "["; ident "a"; brace "]"; ident "b"] = Panicked.
Proof.
  apply (getRange_foreign_brace "(" ")" (brace "[") [ident "a"; brace "]"; ident "b"]);
    [reflexivity | discriminate].
Defined.

(** [[a, f(b, c)]] *)
Lemma buildEnumerableParts_splits_witness :
  buildEnumerableParts []
    [brace "["; ident "a"; comma;
     ident "f"; brace "("; ident "b"; comma; ident "c"; brace ")"; brace "]"]
  = Returned ([[ident "a"];
               [ident "f"; brace "("; ident "b"; comma; ident "c"; brace ")"]], []).
Proof.
  apply (buildEnumerableParts_splits [] (brace "[") (brace "]") [ident "a"]
           [(comma, [ident "f"; brace "("; ident "b"; comma; ident "c"; brace ")"])]).
  - split; [discriminate | reflexivity].
  - constructor; [|constructor].
    split; [reflexivity | split; [discriminate | reflexivity]].
Defined.

(** [[, a, , b, ]] *)
Lemma buildEnumerableParts_parts_witness :
  exists ps extra,
    buildEnumerableParts []
      [brace "["; comma; ident "a"; comma; comma; ident "b"; comma; brace "]"]
    = Returned (ps, [] ++ extra) /\
    Forall (fun part => part <> []) ps /\
    Forall (fun l => LogKey l = "missing_expression") extra.
Proof.
  apply (buildEnumerableParts_parts []
           [brace "["; comma; ident "a"; comma; comma; ident "b"; comma; brace "]"]).
  unfold len. cbn. lia.
Defined.

End ParserRangesFacts.

(** * The return checker of [parser.go]: [retChecker] *)
Module ParserReturns.
Import Ast Parser ParserRanges.

Section RetChecker.

(** The parser's [value] and [exprModel] of an evaluated expression. *)
Variables value exprModel : Type.

(** [Parser.evalTokens], for the parser state the checker runs in: the
    value, the model and the diagnostics the evaluation pushes. *)
Variable evalTokens : list Token -> value * exprModel * list CompilerLog.

(** [typeIsVoidRet]; its file is not part of the sources. *)
Variable typeIsVoidRet : DataType -> bool.

(** What [checkExprTypes] stores in [retAST.Expr.Model]: the first model,
    or the [multiRetExpr] of all of them. *)
Inductive RetModel : Type :=
| SingleModel (m : exprModel)
| MultiModel (models : list exprModel).

(** [rc.expModel.models], [rc.values] and the parser's logs. *)
Record RetState : Type := mkRet {
  rcModels : list exprModel;
  rcValues : list value;
  rcLogs : list CompilerLog
}.

(** What a check leaves behind: the model stored in the statement, the
    parser's logs, and the [assignChecker]s started, as the declared type
    and the value each one compares. *)
Record RetResult : Type := mkResult {
  resModel : option RetModel;
  resLogs : list CompilerLog;
  resChecks : list (DataType * value)
}.

(** [retChecker.pushval] (parser.go:1810). *)
Definition pushval (tokens : list Token) (st : RetState) (last current : Z)
    (errTk : Token) : Outcome RetState :=
  if current - last =? 0 then
    Returned (mkRet (rcModels st) (rcValues st)
                    (pusherrtok (rcLogs st) errTk "missing_value"))
  else
    match slice tokens last current with
    | None => Panicked
    | Some part =>
        let '(v, m, pushed) := evalTokens part in
        Returned (mkRet (rcModels st ++ [m]) (rcValues st ++ [v]) (rcLogs st ++ pushed))
    end.

(** The loop of [retChecker.checkepxrs] (parser.go:1821), from [index] on;
    the result carries the local [last]. *)
Fixpoint checkepxrsLoop (tokens : list Token) (index : Z) (rest : list Token)
    (braceCount last : Z) (st : RetState) : Outcome (Z * RetState) :=
  match rest with
  | [] => Returned (last, st)
  | token :: rest' =>
      let count := countBrace token braceCount in
      if (0 <? count) || negb (TokenId_eqb (TId token) Comma) then
        checkepxrsLoop tokens (index + 1) rest' count last st
      else
        match pushval tokens st last index token with
        | Returned st' => checkepxrsLoop tokens (index + 1) rest' count (index + 1) st'
        | Panicked => Panicked
        | OutOfFuel => OutOfFuel
        end
  end.

(** The statements of [checkepxrs] between the loop and the call of
    [checkExprTypes]. *)
Definition checkepxrsEnd (retToken : Token) (tokens : list Token)
    (o : Outcome (Z * RetState)) : Outcome RetState :=
  match o with
  | Returned (last, st) =>
      if last <? len tokens then
        if last =? 0 then pushval tokens st 0 (len tokens) retToken
        else
          match index tokens (last - 1) with
          | Some errTk => pushval tokens st last (len tokens) errTk
          | None => Panicked
          end
      else Returned st
  | Panicked => Panicked
  | OutOfFuel => OutOfFuel
  end.

(** The loop [for index, t := range types] of [checkExprTypes]: one check
    per declared type, until the values run out. *)
Fixpoint retChecks (types : list DataType) (values : list value)
  : list (DataType * value) :=
  match types, values with
  | t :: types', v :: values' => (t, v) :: retChecks types' values'
  | _, _ => []
  end.

(** [retChecker.checkExprTypes] (parser.go:1852). *)
Definition checkExprTypes (retToken : Token) (retType : DataType) (st : RetState)
  : Outcome RetResult :=
  let valLength := len (rcValues st) in
  if negb (MultiTyped retType) then
    match rcModels st with
    | [] => Panicked
    | m :: _ =>
        let logs :=
          if 1 <? valLength then pusherrtok (rcLogs st) retToken "overflow_return"
          else rcLogs st in
        match rcValues st with
        | [] => Panicked
        | v :: _ => Returned (mkResult (Some (SingleModel m)) logs [(retType, v)])
        end
    end
  else
    match Tag retType with
    | TagTypes types =>
        let logs :=
          if valLength =? 1 then pusherrtok (rcLogs st) retToken "missing_multi_return"
          else if len types <? valLength then
            pusherrtok (rcLogs st) retToken "overflow_return"
          else rcLogs st in
        Returned (mkResult (Some (MultiModel (rcModels st))) logs
                           (retChecks types (rcValues st)))
    | _ => Panicked
    end.

(** [retChecker.checkepxrs] (parser.go:1821). *)
Definition checkepxrs (logs : list CompilerLog) (retToken : Token)
    (retType : DataType) (tokens : list Token) : Outcome RetResult :=
  match checkepxrsEnd retToken tokens
          (checkepxrsLoop tokens 0 tokens 0 0 (mkRet [] [] logs)) with
  | Returned st =>
      if negb (typeIsVoidRet retType) then checkExprTypes retToken retType st
      else Returned (mkResult None (rcLogs st) [])
  | Panicked => Panicked
  | OutOfFuel => OutOfFuel
  end.

(** [retChecker.check] (parser.go:1894), for a [ret] statement at
    [retToken] with the expression [tokens] in a function returning
    [retType]. *)
Definition check (logs : list CompilerLog) (retToken : Token)
    (retType : DataType) (tokens : list Token) : Outcome RetResult :=
  if (len tokens =? 0) && negb (typeIsVoidRet retType) then
    Returned (mkResult None (pusherrtok logs retToken "require_return_value") [])
  else
    checkepxrs
      (if (0 <? len tokens) && typeIsVoidRet retType then
         pusherrtok logs retToken "void_function_return_value"
       else logs)
      retToken retType tokens.

End RetChecker.

Arguments SingleModel {exprModel} m.
Arguments MultiModel {exprModel} models.
Arguments mkRet {value exprModel} rcModels rcValues rcLogs.
Arguments rcModels {value exprModel} r.
Arguments rcValues {value exprModel} r.
Arguments rcLogs {value exprModel} r.
Arguments mkResult {value exprModel} resModel resLogs resChecks.
Arguments resModel {value exprModel} r.
Arguments resLogs {value exprModel} r.
Arguments resChecks {value exprModel} r.
Arguments retChecks {value} types values.
Arguments checkExprTypes {value exprModel} retToken retType st.

End ParserReturns.

(** * Facts on the return checker *)
Module ParserReturnsFacts.
Import Ast Parser ParserRanges ParserRangesFacts ParserReturns.

Section Facts.

Variables value exprModel : Type.
Variable evalTokens : list Token -> value * exprModel * list CompilerLog.
Variable typeIsVoidRet : DataType -> bool.

#[local] Abbreviation RetState := (ParserReturns.RetState value exprModel).
#[local] Abbreviation pushval := (ParserReturns.pushval value exprModel evalTokens).
#[local] Abbreviation checkepxrsLoop :=
  (ParserReturns.checkepxrsLoop value exprModel evalTokens).
#[local] Abbreviation checkepxrsEnd :=
  (ParserReturns.checkepxrsEnd value exprModel evalTokens).
#[local] Abbreviation checkepxrs :=
  (ParserReturns.checkepxrs value exprModel evalTokens typeIsVoidRet).
#[local] Abbreviation check :=
  (ParserReturns.check value exprModel evalTokens typeIsVoidRet).

(** The three results of evaluating one expression. *)
Definition valueOf (seg : list Token) : value := fst (fst (evalTokens seg)).
Definition modelOf (seg : list Token) : exprModel := snd (fst (evalTokens seg)).
Definition logsOf (seg : list Token) : list CompilerLog := snd (evalTokens seg).

(** The checker's state after the expressions [segs] have been pushed. *)
Definition pushed (st : RetState) (segs : list (list Token)) : RetState :=
  mkRet (rcModels st ++ map modelOf segs) (rcValues st ++ map valueOf segs)
        (rcLogs st ++ List.concat (map logsOf segs)).

Lemma pushval_segment (pre seg rest : list Token) (st : RetState) (errTk : Token) :
  seg <> [] ->
  pushval (pre ++ seg ++ rest) st (len pre) (len pre + len seg) errTk
  = Returned (pushed st [seg]).
Proof.
  intros Hne. unfold ParserReturns.pushval. pose proof (len_pos seg Hne).
  replace (len pre + len seg - len pre =? 0) with false
    by (symmetry; apply Z.eqb_neq; lia).
  rewrite slice_middle. unfold pushed. cbn [map List.concat].
  unfold modelOf, valueOf, logsOf.
  destruct (evalTokens seg) as [[v m] lg]. cbn. rewrite app_nil_r. reflexivity.
Qed.

Lemma pushed_app (st : RetState) (a b : list (list Token)) :
  pushed (pushed st a) b = pushed st (a ++ b).
Proof.
  unfold pushed. cbn [rcModels rcValues rcLogs].
  rewrite !map_app, concat_app, <- !app_assoc. reflexivity.
Qed.

(** The loop of [checkepxrs] over one expression. *)
Lemma checkepxrsLoop_segment (tokens : list Token) :
  forall seg d d' index tail last st,
    segmentDepth d seg = Some d' ->
    checkepxrsLoop tokens index (seg ++ tail) d last st =
    checkepxrsLoop tokens (index + len seg) tail d' last st.
Proof.
  induction seg as [|token seg IH]; intros d d' index tail last st Hseg.
  - cbn in Hseg. injection Hseg as ->. cbn [app]. f_equal. unfold len. cbn. lia.
  - cbn [segmentDepth] in Hseg. cbv zeta in Hseg.
    cbn [app ParserReturns.checkepxrsLoop]. cbv zeta.
    rewrite len_cons. replace (index + (1 + len seg)) with (index + 1 + len seg) by lia.
    destruct (0 <? countBrace token d).
    + cbn [orb]. apply IH. exact Hseg.
    + destruct (TokenId_eqb (TId token) Comma); [discriminate|].
      cbn [orb negb]. apply IH. exact Hseg.
Qed.

Lemma index_in_range {A : Type} (l : list A) (i : Z) :
  0 <= i < len l -> exists a, index l i = Some a.
Proof.
  intros Hi. unfold index.
  replace (i <? 0) with false by (symmetry; apply Z.ltb_ge; lia).
  destruct (nth_error l (Z.to_nat i)) as [a|] eqn:Hn; [exists a; reflexivity|].
  apply nth_error_None in Hn. unfold len in Hi. lia.
Qed.

Lemma checkepxrs_segments (retToken : Token) :
  forall more pre seg st,
    isSegment seg ->
    Forall (fun cs => TId (fst cs) = Comma /\ isSegment (snd cs)) more ->
    checkepxrsEnd retToken (pre ++ seg ++ List.concat (map separated more))
      (checkepxrsLoop (pre ++ seg ++ List.concat (map separated more)) (len pre)
         (seg ++ List.concat (map separated more)) 0 (len pre) st)
    = Returned (pushed st (seg :: map snd more)).
Proof.
  induction more as [|[c s] more IH]; intros pre seg st [Hne Hseg] Hmore.
  - cbn [map List.concat].
    rewrite (checkepxrsLoop_segment _ seg 0 0 _ [] _ _ Hseg).
    cbn [ParserReturns.checkepxrsLoop ParserReturns.checkepxrsEnd].
    pose proof (len_pos seg Hne) as Hpos. pose proof (len_nonneg pre) as Hpre.
    rewrite app_nil_r. rewrite len_app.
    replace (len pre <? len pre + len seg) with true by (symmetry; apply Z.ltb_lt; lia).
    pose proof (pushval_segment pre seg [] st) as Hpush.
    rewrite app_nil_r in Hpush.
    destruct (len pre =? 0) eqn:Hz.
    + apply Z.eqb_eq in Hz. specialize (Hpush retToken Hne).
      rewrite Hz in Hpush. rewrite Hz. exact Hpush.
    + apply Z.eqb_neq in Hz.
      destruct (index_in_range (pre ++ seg) (len pre - 1)) as [errTk Herr];
        [rewrite len_app; lia|].
      rewrite Herr. apply Hpush. exact Hne.
  - inversion Hmore as [|? ? [Hc Hs] Hmore']; subst. cbn [fst snd] in Hc, Hs.
    cbn [map List.concat fst snd]. change (separated (c, s)) with (c :: s).
    rewrite (checkepxrsLoop_segment _ seg 0 0 _ _ _ _ Hseg).
    cbn [app ParserReturns.checkepxrsLoop]. cbv zeta.
    rewrite (countBrace_comma c 0 Hc). replace (0 <? 0) with false by reflexivity.
    rewrite Hc. cbn [TokenId_eqb negb orb].
    rewrite (pushval_segment pre seg (c :: s ++ List.concat (map separated more)) st c Hne).
    specialize (IH (pre ++ seg ++ [c]) s (pushed st [seg]) Hs Hmore').
    replace (len (pre ++ seg ++ [c])) with (len pre + len seg + 1) in IH
      by (rewrite !len_app; unfold len; cbn [List.length]; lia).
    replace ((pre ++ seg ++ [c]) ++ s ++ List.concat (map separated more))
      with (pre ++ seg ++ c :: s ++ List.concat (map separated more)) in IH
      by (rewrite <- !app_assoc; reflexivity).
    rewrite IH. rewrite pushed_app. reflexivity.
Qed.

Lemma len_map {A B : Type} (f : A -> B) (l : list A) : len (map f l) = len l.
Proof. unfold len. rewrite length_map. reflexivity. Qed.

(** The expressions of a [ret] statement, pushed by [checkepxrs]. *)
Lemma checkepxrs_pushes (logs : list CompilerLog) (retToken : Token)
    (first : list Token) (more : list (Token * list Token)) :
  isSegment first ->
  Forall (fun cs => TId (fst cs) = Comma /\ isSegment (snd cs)) more ->
  checkepxrsEnd retToken (first ++ List.concat (map separated more))
    (checkepxrsLoop (first ++ List.concat (map separated more)) 0
       (first ++ List.concat (map separated more)) 0 0 (mkRet [] [] logs))
  = Returned (mkRet (map modelOf (first :: map snd more))
                    (map valueOf (first :: map snd more))
                    (logs ++ List.concat (map logsOf (first :: map snd more)))).
Proof.
  intros Hfirst Hmore.
  exact (checkepxrs_segments retToken more [] first (mkRet [] [] logs) Hfirst Hmore).
Qed.

Lemma segments_nonempty (first : list Token) (more : list (Token * list Token)) :
  isSegment first -> 0 < len (first ++ List.concat (map separated more)).
Proof.
  intros [Hne _]. rewrite len_app. pose proof (len_pos first Hne).
  pose proof (len_nonneg (List.concat (map separated more))). lia.
Qed.

(** X17: A [ret] statement of [n] expressions in a function with a multi-typed
    result of the types [types]: every expression is evaluated, in order;
    the only diagnostic of the checker itself is [missing_multi_return] for
    [n = 1] (whatever the number of types), [overflow_return] for
    [n > len types], and none otherwise, also when values are missing;
    type checks are started for the first [min n (len types)] pairs; the
    statement's model is the list of all models. *)
Theorem check_multi_typed (logs : list CompilerLog) (retToken : Token)
    (retType : DataType) (types : list DataType)
    (first : list Token) (more : list (Token * list Token)) :
  typeIsVoidRet retType = false ->
  MultiTyped retType = true ->
  Tag retType = TagTypes types ->
  isSegment first ->
  Forall (fun cs => TId (fst cs) = Comma /\ isSegment (snd cs)) more ->
  check logs retToken retType (first ++ List.concat (map separated more)) =
  Returned
    (mkResult
       (Some (MultiModel (map modelOf (first :: map snd more))))
       ((logs ++ List.concat (map logsOf (first :: map snd more))) ++
        (if len more =? 0 then [mkLog (Row retToken) (Column retToken) "missing_multi_return"]
         else if len types <? 1 + len more then
           [mkLog (Row retToken) (Column retToken) "overflow_return"]
         else []))
       (retChecks types (map valueOf (first :: map snd more)))).
Proof.
  intros Hvoid Hmulti Htag Hfirst Hmore.
  pose proof (segments_nonempty first more Hfirst) as Hpos.
  unfold ParserReturns.check, ParserReturns.checkepxrs. rewrite Hvoid.
  replace (len (first ++ List.concat (map separated more)) =? 0) with false
    by (symmetry; apply Z.eqb_neq; lia).
  rewrite andb_false_r. cbn [andb negb].
  rewrite (checkepxrs_pushes logs retToken first more Hfirst Hmore).
  unfold checkExprTypes. cbn [rcModels rcValues rcLogs]. rewrite Hmulti, Htag.
  cbn [negb]. rewrite len_map, len_cons, len_map. pose proof (len_nonneg more).
  do 2 f_equal. unfold pusherrtok.
  destruct (len more =? 0) eqn:Hz.
  - apply Z.eqb_eq in Hz. rewrite Hz. reflexivity.
  - apply Z.eqb_neq in Hz.
    replace (1 + len more =? 1) with false by (symmetry; apply Z.eqb_neq; lia).
    destruct (len types <? 1 + len more); [reflexivity|].
    symmetry. apply app_nil_r.
Qed.

(** X18: A [ret] statement of [n] expressions in a function with a single,
    non-void result type: all expressions are evaluated, [overflow_return]
    is pushed exactly when [n > 1], only the first value is type checked,
    and the statement's model is the first model. *)
Theorem check_single_typed (logs : list CompilerLog) (retToken : Token)
    (retType : DataType) (first : list Token) (more : list (Token * list Token)) :
  typeIsVoidRet retType = false ->
  MultiTyped retType = false ->
  isSegment first ->
  Forall (fun cs => TId (fst cs) = Comma /\ isSegment (snd cs)) more ->
  check logs retToken retType (first ++ List.concat (map separated more)) =
  Returned
    (mkResult
       (Some (SingleModel (modelOf first)))
       ((logs ++ List.concat (map logsOf (first :: map snd more))) ++
        (if len more =? 0 then []
         else [mkLog (Row retToken) (Column retToken) "overflow_return"]))
       [(retType, valueOf first)]).
Proof.
  intros Hvoid Hmulti Hfirst Hmore.
  pose proof (segments_nonempty first more Hfirst) as Hpos.
  unfold ParserReturns.check, ParserReturns.checkepxrs. rewrite Hvoid.
  replace (len (first ++ List.concat (map separated more)) =? 0) with false
    by (symmetry; apply Z.eqb_neq; lia).
  rewrite andb_false_r. cbn [andb negb].
  rewrite (checkepxrs_pushes logs retToken first more Hfirst Hmore).
  unfold checkExprTypes. cbn [rcModels rcValues rcLogs map]. rewrite Hmulti.
  cbn [negb]. rewrite len_cons, !len_map. pose proof (len_nonneg more).
  do 2 f_equal. unfold pusherrtok.
  destruct (len more =? 0) eqn:Hz.
  - apply Z.eqb_eq in Hz. rewrite Hz. cbn. symmetry. apply app_nil_r.
  - apply Z.eqb_neq in Hz.
    replace (1 <? 1 + len more) with true by (symmetry; apply Z.ltb_lt; lia).
    reflexivity.
Qed.


Lemma checkepxrsLoop_commas (tokens : list Token) :
  forall (rest pre : list Token) (st : RetState),
    Forall (fun t => TId t = Comma) rest ->
    rcModels st = [] ->
    exists st',
      checkepxrsLoop tokens (len pre) rest 0 (len pre) st
      = Returned (len pre + len rest, st') /\
      rcModels st' = [].
Proof.
  induction rest as [|token rest IH]; intros pre st Hall Hmodels.
  - exists st. split; [|exact Hmodels]. cbn. do 2 f_equal. unfold len. cbn. lia.
  - inversion Hall as [|? ? Hc Hrest]; subst.
    cbn [ParserReturns.checkepxrsLoop]. cbv zeta.
    rewrite (countBrace_comma token 0 Hc), Hc.
    replace (0 <? 0) with false by reflexivity. cbn [TokenId_eqb negb orb].
    unfold ParserReturns.pushval. rewrite Z.sub_diag. cbn [Z.eqb].
    destruct (IH (pre ++ [token])
                 (mkRet (rcModels st) (rcValues st)
                        (pusherrtok (rcLogs st) token "missing_value")) Hrest Hmodels)
      as (st' & Hrun & Hmodels').
    replace (len (pre ++ [token])) with (len pre + 1) in Hrun
      by (rewrite len_app; reflexivity).
    exists st'. split; [|exact Hmodels']. rewrite Hrun. do 2 f_equal.
    rewrite len_cons. lia.
Qed.

(** X19: A [ret] statement made of commas only, in a function with a single,
    non-void result type, makes the checker panic: no value is pushed, and
    [checkExprTypes] reads [models[0]]. *)
Theorem check_only_commas_panics (logs : list CompilerLog) (retToken : Token)
    (retType : DataType) (tokens : list Token) :
  tokens <> [] ->
  Forall (fun t => TId t = Comma) tokens ->
  typeIsVoidRet retType = false ->
  MultiTyped retType = false ->
  check logs retToken retType tokens = Panicked.
Proof.
  intros Hne Hall Hvoid Hmulti. pose proof (len_pos tokens Hne) as Hpos.
  unfold ParserReturns.check, ParserReturns.checkepxrs. rewrite Hvoid.
  replace (len tokens =? 0) with false by (symmetry; apply Z.eqb_neq; lia).
  rewrite andb_false_r. cbn [andb negb].
  destruct (checkepxrsLoop_commas tokens tokens [] (mkRet [] [] logs) Hall eq_refl)
    as (st' & Hrun & Hmodels).
  change (len (@nil Token)) with 0 in Hrun. rewrite Hrun.
  cbn [ParserReturns.checkepxrsEnd].
  replace (0 + len tokens <? len tokens) with false by (symmetry; apply Z.ltb_ge; lia).
  unfold checkExprTypes. rewrite Hmulti, Hmodels. reflexivity.
Qed.

(** In a function without result a [ret] statement with expressions gets
    [void_function_return_value]; its expressions are evaluated all the
    same, no type check is started and no model is stored. *)
Theorem check_void_with_values (logs : list CompilerLog) (retToken : Token)
    (retType : DataType) (first : list Token) (more : list (Token * list Token)) :
  typeIsVoidRet retType = true ->
  isSegment first ->
  Forall (fun cs => TId (fst cs) = Comma /\ isSegment (snd cs)) more ->
  check logs retToken retType (first ++ List.concat (map separated more)) =
  Returned
    (mkResult None
       ((logs ++ [mkLog (Row retToken) (Column retToken) "void_function_return_value"])
        ++ List.concat (map logsOf (first :: map snd more)))
       []).
Proof.
  intros Hvoid Hfirst Hmore.
  pose proof (segments_nonempty first more Hfirst) as Hpos.
  unfold ParserReturns.check, ParserReturns.checkepxrs. rewrite Hvoid.
  replace (len (first ++ List.concat (map separated more)) =? 0) with false
    by (symmetry; apply Z.eqb_neq; lia).
  replace (0 <? len (first ++ List.concat (map separated more))) with true
    by (symmetry; apply Z.ltb_lt; lia).
  cbn [andb negb].
  rewrite (checkepxrs_pushes _ retToken first more Hfirst Hmore).
  reflexivity.
Qed.

End Facts.

(** The examples evaluate an expression to its own tokens, without a
    diagnostic, and take [typeIsVoidReturn] of types.go for [typeIsVoidRet]. *)
Definition evalSelf (tokens : list Token) : list Token * list Token * list CompilerLog :=
  (tokens, tokens, []).

Definition i32 : DataType := mkDataType noToken I32 "i32" false TagNil.
Definition pairOfI32 : DataType := mkDataType noToken Void "" true (TagTypes [i32; i32]).
Definition voidType : DataType := mkDataType noToken Void "" false TagNil.
Definition retTok : Token := mkToken OtherId "ret" 3 5.

(** [ret a, b, c] in a function returning [(i32, i32)]. *)
Lemma check_multi_typed_witness :
  ParserReturns.check (list Token) (list Token) evalSelf Types.typeIsVoidReturn
    [] retTok pairOfI32 [ident "a"; comma; ident "b"; comma; ident "c"]
  = Returned
      (mkResult (Some (MultiModel [[ident "a"]; [ident "b"]; [ident "c"]]))
                [mkLog 3 5 "overflow_return"]
                [(i32, [ident "a"]); (i32, [ident "b"])]).
Proof.
  apply (check_multi_typed (list Token) (list Token) evalSelf Types.typeIsVoidReturn
           [] retTok pairOfI32 [i32; i32] [ident "a"]
           [(comma, [ident "b"]); (comma, [ident "c"])]);
    try reflexivity.
  - split; [discriminate | reflexivity].
  - repeat constructor; discriminate.
Defined.

(** [ret a, f(b, c)] in a function returning [i32]. *)
Lemma check_single_typed_witness :
  ParserReturns.check (list Token) (list Token) evalSelf Types.typeIsVoidReturn
    [] retTok i32
    [ident "a"; comma; ident "f"; brace "("; ident "b"; comma; ident "c"; brace ")"]
  = Returned
      (mkResult (Some (SingleModel [ident "a"]))
                [mkLog 3 5 "overflow_return"]
                [(i32, [ident "a"])]).
Proof.
  apply (check_single_typed (list Token) (list Token) evalSelf Types.typeIsVoidReturn
           [] retTok i32 [ident "a"]
           [(comma, [ident "f"; brace "("; ident "b"; comma; ident "c"; brace ")"])]);
    try reflexivity.
  - split; [discriminate | reflexivity].
  - repeat constructor; discriminate.
Defined.

(** [ret ,] in a function returning [i32]. *)
Lemma check_only_commas_panics_witness :
  ParserReturns.check (list Token) (list Token) evalSelf Types.typeIsVoidReturn
    [] retTok i32 [comma] = Panicked.
Proof.
  apply (check_only_commas_panics (list Token) (list Token) evalSelf
           Types.typeIsVoidReturn [] retTok i32 [comma]);
    [discriminate | repeat constructor | reflexivity | reflexivity].
Defined.

(** [ret a] in a function without result. *)
Lemma check_void_with_values_witness :
  ParserReturns.check (list Token) (list Token) evalSelf Types.typeIsVoidReturn
    [] retTok voidType [ident "a"]
  = Returned (mkResult None [mkLog 3 5 "void_function_return_value"] []).
Proof.
  apply (check_void_with_values (list Token) (list Token) evalSelf
           Types.typeIsVoidReturn [] retTok voidType [ident "a"] []);
    [reflexivity | split; [discriminate | reflexivity] | constructor].
Defined.


(** A multi-typed result that declares no type: [ret a] supplies one value,
    which is more than the declared types, and [missing_multi_return] is
    all the checker pushes. *)
Definition noTypes : DataType := mkDataType noToken Void "" true (TagTypes []).


End ParserReturnsFacts.

(** * Declarations and identifiers of [parser.go] *)
Module ParserScope.
Import Ast Parser.

(** The fields of [ast.Parameter]. *)
Definition PToken (p : Param) : Token := let (t, _, _, _, _, _) := p in t.
Definition PId (p : Param) : string := let (_, i, _, _, _, _) := p in i.
Definition PConst (p : Param) : bool := let (_, _, c, _, _, _) := p in c.
Definition PVolatile (p : Param) : bool := let (_, _, _, v, _, _) := p in v.
Definition PVariadic (p : Param) : bool := let (_, _, _, _, v, _) := p in v.

(** [ast.Var], with the fields the functions below read or write. *)
Record Var : Type := mkVar {
  VarId : string;
  IdToken : Token;
  VarType : DataType;
  Const : bool;
  Volatile : bool
}.

(** [ast.Attribute]. *)
Record Attribute : Type := mkAttribute {
  AttrToken : Token;
  AttrTag : Token
}.

(** [function]: a function with its attributes and documentation. *)
Record function : Type := mkFunction {
  FuncAst : FuncSig;
  Attributes : list Attribute;
  Description : string
}.

(** [value] (parser.go:514); [vData], [vType] and [vToken] are the fields
    of its [ast.Value]. *)
Record value : Type := mkValue {
  vData : string;
  vType : DataType;
  vToken : Token;
  constant : bool;
  volatile : bool;
  lvalue : bool;
  variadic : bool
}.

(** The zero [value]. *)
Definition zeroValue : value :=
  mkValue "" zeroDataType noToken false false false false.

(** [Parser] (parser.go:15): the fields the functions below read or write;
    [Logs] is [p.PFI.Logs], [docText] the content of the builder. *)
Record ParserState : Type := mkParser {
  attributes : list Attribute;
  docText : string;
  Funcs : list function;
  GlobalVars : list Var;
  Types : list TypeDecl;
  waitingGlobalVars : list Var;
  BlockVars : list Var;
  Logs : list CompilerLog
}.

Definition setLogs (p : ParserState) (logs : list CompilerLog) : ParserState :=
  mkParser (attributes p) (docText p) (Funcs p) (GlobalVars p) (Types p)
           (waitingGlobalVars p) (BlockVars p) logs.

(** [pusherrtok] on the parser. *)
Definition pusherr (p : ParserState) (token : Token) (key : string) : ParserState :=
  setLogs p (pusherrtok (Logs p) token key).

Section Scope.

(** [builtinFuncs] and [xapi.IsIgnoreId], which are not part of the
    sources, and [ast.Func.DataTypeString]. *)
Variable builtinFuncs : list function.
Variable IsIgnoreId : string -> bool.
Variable DataTypeString : FuncSig -> string.

(** The first variable of [vars] with the identifier [id]. *)
Definition findVar (vars : list Var) (id : string) : option Var :=
  find (fun v => String.eqb (VarId v) id) vars.

Definition findFunc (funcs : list function) (id : string) : option function :=
  find (fun f => String.eqb (FId (FuncAst f)) id) funcs.

(** [FuncById] (parser.go:403). *)
Definition FuncById (p : ParserState) (id : string) : option function :=
  match findFunc builtinFuncs id with
  | Some f => Some f
  | None => findFunc (Funcs p) id
  end.

(** [varById] (parser.go:417). *)
Definition varById (p : ParserState) (id : string) : option Var :=
  match findVar (BlockVars p) id with
  | Some v => Some v
  | None => findVar (GlobalVars p) id
  end.

(** [existIdf] (parser.go:431); [noToken] is [lex.Token{}]. *)
Definition existIdf (p : ParserState) (id : string) (exceptGlobals : bool) : Token :=
  match typeById (Types p) id with
  | Some t => TypeToken t
  | None =>
      match FuncById p id with
      | Some f => FToken (FuncAst f)
      | None =>
          match findVar (BlockVars p) id with
          | Some v => IdToken v
          | None =>
              if negb exceptGlobals then
                match findVar (GlobalVars p) id with
                | Some v => IdToken v
                | None =>
                    match findVar (waitingGlobalVars p) id with
                    | Some v => IdToken v
                    | None => noToken
                    end
                end
              else noToken
          end
      end
  end.

(** [existName] (parser.go:460). *)
Definition existName (p : ParserState) (name : string) : Token := existIdf p name false.

(** [valueEvaluator.id] (parser.go:737): the value, [ok] and the parser
    afterwards.  The node appended to the expression builder is left out. *)
Definition id (p : ParserState) (token : Token) : value * bool * ParserState :=
  match varById p (Kind token) with
  | Some variable =>
      (mkValue (Kind token) (VarType variable) (IdToken variable)
               (Const variable) (Volatile variable) true false, true, p)
  | None =>
      match FuncById p (Kind token) with
      | Some f =>
          (mkValue (Kind token)
                   (mkDataType noToken Func (DataTypeString (FuncAst f)) false
                               (TagFunc (FuncAst f)))
                   (FToken (FuncAst f)) false false false false, true, p)
      | None => (zeroValue, false, pusherr p token "id_noexist")
      end
  end.

(** [checkAssignment] (parser.go:1937). *)
Definition checkAssignment (p : ParserState) (selected : value) (errtok : Token)
  : bool * ParserState :=
  let (state1, p1) :=
    if negb (lvalue selected) then (false, pusherr p errtok "assign_nonlvalue")
    else (true, p) in
  let (state2, p2) :=
    if constant selected then (false, pusherr p1 errtok "assign_const")
    else (state1, p1) in
  match Tag (vType selected) with
  | TagFunc _ =>
      match FuncById p2 (Kind (vToken selected)) with
      | Some _ => (false, pusherr p2 errtok "assign_type_not_support_value")
      | None => (state2, p2)
      end
  | _ => (state2, p2)
  end.

(** [checkVarStatement] (parser.go:1927), over [Parser.Var] for the case
    [!noParse]. *)
Definition checkVarStatement (parseVar : ParserState -> Var -> Var * ParserState)
    (p : ParserState) (varAST : Var) (noParse : bool) : Var * ParserState :=
  let p1 :=
    if negb (TokenId_eqb (TId (existIdf p (VarId varAST) true)) NA) then
      pusherr p (IdToken varAST) "exist_id"
    else p in
  let (varAST', p2) := if negb noParse then parseVar p1 varAST else (varAST, p1) in
  (varAST',
   mkParser (attributes p2) (docText p2) (Funcs p2) (GlobalVars p2) (Types p2)
            (waitingGlobalVars p2) (BlockVars p2 ++ [varAST']) (Logs p2)).

(** [PushAttribute] (parser.go:248). *)
Definition PushAttribute (p : ParserState) (attribute : Attribute) : ParserState :=
  let p1 :=
    if String.eqb (Kind (AttrTag attribute)) "inline" then p
    else pusherr p (AttrTag attribute) "undefined_tag" in
  if existsb (fun attr => String.eqb (Kind (AttrTag attr)) (Kind (AttrTag attribute)))
             (attributes p1) then
    pusherr p1 (AttrTag attribute) "attribute_repeat"
  else
    mkParser (attributes p1 ++ [attribute]) (docText p1) (Funcs p1) (GlobalVars p1)
             (Types p1) (waitingGlobalVars p1) (BlockVars p1) (Logs p1).

(** [checkFuncAttributes] (parser.go:359). *)
Fixpoint checkFuncAttributes (p : ParserState) (attrs : list Attribute) : ParserState :=
  match attrs with
  | [] => p
  | attribute :: rest =>
      checkFuncAttributes
        (if String.eqb (Kind (AttrTag attribute)) "inline" then p
         else pusherr p (AttrToken attribute) "invalid_attribute")
        rest
  end.

(** [Func] (parser.go:276). *)
Definition ParseFunc (p : ParserState) (fast : FuncSig) : ParserState :=
  let p1 :=
    if negb (TokenId_eqb (TId (existName p (FId fast))) NA) then
      pusherr p (FToken fast) "exist_id"
    else if IsIgnoreId (FId fast) then pusherr p (FToken fast) "ignore_id"
    else p in
  let f := mkFunction fast (attributes p1) (docText p1) in
  let p2 := mkParser [] "" (Funcs p1) (GlobalVars p1) (Types p1)
                     (waitingGlobalVars p1) (BlockVars p1) (Logs p1) in
  let p3 := checkFuncAttributes p2 (Attributes f) in
  mkParser (attributes p3) (docText p3) (Funcs p3 ++ [f]) (GlobalVars p3) (Types p3)
           (waitingGlobalVars p3) (BlockVars p3) (Logs p3).

(** [Type] (parser.go:216); the description of the declaration is left out. *)
Definition ParseType (p : ParserState) (t : TypeDecl) : ParserState :=
  if negb (TokenId_eqb (TId (existName p (TypeId t))) NA) then
    pusherr p (TypeToken t) "exist_id"
  else if IsIgnoreId (TypeId t) then pusherr p (TypeToken t) "ignore_id"
  else
    mkParser (attributes p) "" (Funcs p) (GlobalVars p) (Types p ++ [t])
             (waitingGlobalVars p) (BlockVars p) (Logs p).

(** The loop of [varsFromParams] (parser.go:369), from [index] on. *)
Fixpoint varsFromParamsLoop (length index : Z) (params : list Param)
    (vars : list Var) (logs : list CompilerLog) : list Var * list CompilerLog :=
  match params with
  | [] => (vars, logs)
  | param :: rest =>
      let logs' :=
        if PVariadic param && (1 <? length - index) then
          pusherrtok logs (PToken param) "variadic_parameter_notlast"
        else logs in
      let type :=
        if PVariadic param then
          setValue (PType param) (String.append "[]" (TValue (PType param)))
        else PType param in
      varsFromParamsLoop length (index + 1) rest
        (vars ++ [mkVar (PId param) (PToken param) type (PConst param) (PVolatile param)])
        logs'
  end.

(** [varsFromParams]: the variables and the parser's logs afterwards. *)
Definition varsFromParams (logs : list CompilerLog) (params : list Param)
  : list Var * list CompilerLog :=
  varsFromParamsLoop (len params) 0 params [] logs.

End Scope.

End ParserScope.

(** * Facts on declarations and identifiers *)
Module ParserScopeFacts.
Import Ast Parser Types ParserScope.

Lemma find_app_first {A : Type} (f : A -> bool) (l l' : list A) :
  find f (l ++ l') = match find f l with Some x => Some x | None => find f l' end.
Proof.
  induction l as [|a l IH]; [reflexivity|]. cbn. destruct (f a); [reflexivity | exact IH].
Qed.

Lemma find_none_not_in {A B : Type} (key : A -> B) (eqb : B -> B -> bool)
    (eqb_eq : forall x y, eqb x y = true <-> x = y) (l : list A) (k : B) :
  find (fun a => eqb (key a) k) l = None -> ~ In k (map key l).
Proof.
  induction l as [|a l IH]; cbn; [intros _ H; exact H|].
  destruct (eqb (key a) k) eqn:E; [discriminate|].
  intros Hfind [Heq | Hin].
  - apply eqb_eq in Heq. congruence.
  - exact (IH Hfind Hin).
Qed.

Lemma NoDup_snoc {A : Type} (l : list A) (a : A) :
  NoDup l -> ~ In a l -> NoDup (l ++ [a]).
Proof.
  induction l as [|b l IH]; intros Hnd Hin.
  - constructor; [intros H; exact H | constructor].
  - inversion Hnd as [|? ? Hb Hl]; subst. cbn. constructor.
    + intros H. apply in_app_or in H. destruct H as [H | [H | H]].
      * exact (Hb H).
      * apply Hin. left. symmetry. exact H.
      * exact H.
    + apply IH; [exact Hl|]. intros H. apply Hin. right. exact H.
Qed.

Section Facts.

Variable builtinFuncs : list function.
Variable IsIgnoreId : string -> bool.
Variable DataTypeString : FuncSig -> string.

#[local] Abbreviation FuncById := (ParserScope.FuncById builtinFuncs).
#[local] Abbreviation existIdf := (ParserScope.existIdf builtinFuncs).
#[local] Abbreviation existName := (ParserScope.existName builtinFuncs).
#[local] Abbreviation id := (ParserScope.id builtinFuncs DataTypeString).
#[local] Abbreviation checkAssignment := (ParserScope.checkAssignment builtinFuncs).
#[local] Abbreviation checkVarStatement := (ParserScope.checkVarStatement builtinFuncs).
#[local] Abbreviation ParseFunc := (ParserScope.ParseFunc builtinFuncs IsIgnoreId).
#[local] Abbreviation ParseType := (ParserScope.ParseType builtinFuncs IsIgnoreId).


(** Whether a function has the name of the identifier token of [v], for a
    variable [v] of a function type: the test of the [switch] that ends
    [checkAssignment]. *)
Definition namedLikeFunc (p : ParserState) (v : Var) : bool :=
  match Tag (VarType v) with
  | TagFunc _ =>
      match FuncById p (Kind (IdToken v)) with
      | Some _ => true
      | None => false
      end
  | _ => false
  end.

(** X21: Assigning to a variable named by an identifier.  The evaluator makes
    every variable an lvalue, constant or not, so [assign_nonlvalue] is
    never pushed.  The assignment is refused when the variable is constant,
    with [assign_const], and when the variable has a function type and a
    function has the name of the variable's identifier token, with
    [assign_type_not_support_value]; both are pushed, in this order, when
    both hold, and nothing else is pushed. *)
Theorem assign_to_variable (p : ParserState) (token errtok : Token) (v : Var) :
  varById p (Kind token) = Some v ->
  lvalue (fst (fst (id p token))) = true /\
  constant (fst (fst (id p token))) = Const v /\
  checkAssignment (snd (id p token)) (fst (fst (id p token))) errtok =
  (negb (Const v) && negb (namedLikeFunc p v),
   let p1 := if Const v then pusherr p errtok "assign_const" else p in
   if namedLikeFunc p v then pusherr p1 errtok "assign_type_not_support_value"
   else p1).
Proof.
  intros Hvar. unfold ParserScope.id. rewrite Hvar. cbn [fst snd lvalue constant].
  split; [reflexivity|]. split; [reflexivity|].
  unfold ParserScope.checkAssignment, namedLikeFunc.
  cbn [lvalue constant vType vToken negb].
  destruct (Const v); cbn zeta; cbn [negb andb].
  - replace (ParserScope.FuncById builtinFuncs (pusherr p errtok "assign_const")
               (Kind (IdToken v)))
      with (FuncById p (Kind (IdToken v))) by reflexivity.
    destruct (Tag (VarType v)); try reflexivity.
    destruct (FuncById p (Kind (IdToken v))); reflexivity.
  - destruct (Tag (VarType v)); try reflexivity.
    destruct (FuncById p (Kind (IdToken v))); reflexivity.
Qed.

(** Assigning to a function named by an identifier is refused with two
    diagnostics, [assign_nonlvalue] and [assign_type_not_support_value]. *)
Theorem assign_to_function (p : ParserState) (token errtok : Token) (f : function) :
  varById p (Kind token) = None ->
  FuncById p (Kind token) = Some f ->
  Kind (FToken (FuncAst f)) = Kind token ->
  checkAssignment (snd (id p token)) (fst (fst (id p token))) errtok =
  (false, pusherr (pusherr p errtok "assign_nonlvalue") errtok
                  "assign_type_not_support_value").
Proof.
  intros Hvar Hfun Hkind. unfold ParserScope.id. rewrite Hvar, Hfun. cbn [fst snd].
  unfold ParserScope.checkAssignment. cbn [lvalue constant vType vToken negb Tag].
  rewrite Hkind.
  replace (ParserScope.FuncById builtinFuncs (pusherr p errtok "assign_nonlvalue")
             (Kind token))
    with (FuncById p (Kind token)) by reflexivity.
  rewrite Hfun. reflexivity.
Qed.

(** The tags of the pending attributes. *)
Definition tagKinds (p : ParserState) : list string :=
  map (fun attr => Kind (AttrTag attr)) (attributes p).

(** X22: [PushAttribute] keeps the pending attributes free of repeated tags. *)
Theorem PushAttribute_no_repeat (p : ParserState) (attribute : Attribute) :
  NoDup (tagKinds p) -> NoDup (tagKinds (PushAttribute p attribute)).
Proof.
  intros Hnd. unfold PushAttribute, tagKinds in *.
  set (p1 := if String.eqb (Kind (AttrTag attribute)) "inline" then p
             else pusherr p (AttrTag attribute) "undefined_tag").
  assert (Hattrs : attributes p1 = attributes p)
    by (unfold p1; destruct (String.eqb _ "inline"); reflexivity).
  rewrite Hattrs.
  destruct (existsb _ (attributes p)) eqn:Hex.
  - cbn [pusherr setLogs attributes]. rewrite Hattrs. exact Hnd.
  - cbn [attributes]. rewrite map_app. cbn [map].
    apply NoDup_snoc; [exact Hnd|].
    intros Hin. apply in_map_iff in Hin. destruct Hin as (attr & Hk & Hin).
    assert (Htrue : existsb (fun attr => String.eqb (Kind (AttrTag attr))
                                                    (Kind (AttrTag attribute)))
                            (attributes p) = true).
    { apply existsb_exists. exists attr. split; [exact Hin|].
      apply String.eqb_eq. exact Hk. }
    congruence.
Qed.

Lemma checkFuncAttributes_keeps (attrs : list Attribute) :
  forall p, Funcs (checkFuncAttributes p attrs) = Funcs p /\
            attributes (checkFuncAttributes p attrs) = attributes p.
Proof.
  induction attrs as [|a attrs IH]; intros p; [split; reflexivity|].
  cbn [checkFuncAttributes].
  destruct (IH (if String.eqb (Kind (AttrTag a)) "inline" then p
                else pusherr p (AttrToken a) "invalid_attribute")) as [HF HA].
  rewrite HF, HA. destruct (String.eqb _ "inline"); split; reflexivity.
Qed.

(** X23: [Func] registers every function it is given, also one whose identifier
    is taken, with all pending attributes, and leaves none pending; a later
    lookup of the identifier finds the function that had it first. *)
Theorem ParseFunc_lookup (p : ParserState) (fast : FuncSig) :
  Funcs (ParseFunc p fast) = Funcs p ++ [mkFunction fast (attributes p) (docText p)] /\
  attributes (ParseFunc p fast) = [] /\
  FuncById (ParseFunc p fast) (FId fast) =
  match FuncById p (FId fast) with
  | Some earlier => Some earlier
  | None => Some (mkFunction fast (attributes p) (docText p))
  end.
Proof.
  unfold ParserScope.ParseFunc.
  set (p1 := if negb (TokenId_eqb (TId (existName p (FId fast))) NA)
             then pusherr p (FToken fast) "exist_id"
             else if IsIgnoreId (FId fast) then pusherr p (FToken fast) "ignore_id"
             else p).
  assert (H1 : attributes p1 = attributes p /\ docText p1 = docText p /\
               Funcs p1 = Funcs p).
  { unfold p1. destruct (negb _); [repeat split|].
    destruct (IsIgnoreId _); repeat split. }
  destruct H1 as (HA & HD & HF). cbv zeta. cbn [Attributes].
  match goal with
  | |- context [checkFuncAttributes ?q ?attrs] =>
      destruct (checkFuncAttributes_keeps attrs q) as [HF' HA']
  end.
  cbn [Funcs attributes] in HF', HA'.
  unfold ParserScope.FuncById.
  cbn [Funcs attributes]. rewrite HF', HA'. rewrite HA, HD, HF.
  split; [reflexivity|]. split; [reflexivity|].
  destruct (findFunc builtinFuncs (FId fast)); [reflexivity|].
  unfold findFunc. rewrite find_app_first.
  destruct (find _ (Funcs p)); [reflexivity|].
  cbn [find FuncAst]. rewrite String.eqb_refl. reflexivity.
Qed.

(** The declared type aliases have distinct identifiers and tokens other
    than the zero token. *)
Definition typesDistinct (p : ParserState) : Prop :=
  NoDup (map TypeId (Types p)) /\
  Forall (fun t => TId (TypeToken t) <> NA) (Types p).

(** [Type] keeps the identifiers of the declared aliases distinct, as long
    as every declaration comes with a token that is not the zero token:
    [existName] reports a declaration by its token. *)
Theorem ParseType_distinct (p : ParserState) (t : TypeDecl) :
  typesDistinct p -> TId (TypeToken t) <> NA -> typesDistinct (ParseType p t).
Proof.
  intros [Hnd Hall] Htok. unfold ParserScope.ParseType.
  destruct (negb (TokenId_eqb (TId (existName p (TypeId t))) NA)) eqn:Hex;
    [split; assumption|].
  destruct (IsIgnoreId (TypeId t)); [split; assumption|].
  unfold typesDistinct. cbn [Types]. split.
  - rewrite map_app. cbn [map]. apply NoDup_snoc; [exact Hnd|].
    unfold ParserScope.existName, ParserScope.existIdf in Hex.
    destruct (typeById (Types p) (TypeId t)) as [t'|] eqn:Hfind.
    + exfalso. unfold typeById in Hfind. apply find_some in Hfind.
      destruct Hfind as [Hin _].
      rewrite Forall_forall in Hall. specialize (Hall t' Hin).
      apply negb_false_iff in Hex. destruct (TId (TypeToken t')); try discriminate.
      apply Hall. reflexivity.
    + unfold typeById in Hfind.
      exact (find_none_not_in TypeId String.eqb String.eqb_eq (Types p) (TypeId t) Hfind).
  - apply Forall_app. split; [exact Hall | constructor; [exact Htok | constructor]].
Qed.

End Facts.

(** The variable [varsFromParams] makes of one parameter. *)
Definition varOfParam (param : Param) : Var :=
  mkVar (PId param) (PToken param)
        (if PVariadic param then
           setValue (PType param) (String.append "[]" (TValue (PType param)))
         else PType param)
        (PConst param) (PVolatile param).

Lemma varsFromParamsLoop_vars (params : list Param) :
  forall length index vars logs,
    fst (varsFromParamsLoop length index params vars logs) = vars ++ map varOfParam params.
Proof.
  induction params as [|param params IH]; intros length index vars logs.
  - cbn. symmetry. apply app_nil_r.
  - cbn [varsFromParamsLoop map]. cbv zeta. rewrite IH, <- app_assoc. reflexivity.
Qed.

Lemma varsFromParamsLoop_logs (params : list Param) :
  forall length index vars logs,
    length = index + len params ->
    snd (varsFromParamsLoop length index params vars logs) =
    logs ++ map (fun param => mkLog (Row (PToken param)) (Column (PToken param))
                                    "variadic_parameter_notlast")
                (filter PVariadic (removelast params)).
Proof.
  induction params as [|param params IH]; intros length index vars logs Hlen.
  - cbn. symmetry. apply app_nil_r.
  - cbn [varsFromParamsLoop]. cbv zeta. rewrite ParserRangesFacts.len_cons in Hlen.
    rewrite IH by lia. pose proof (len_nonneg params) as Hnn.
    destruct params as [|next params].
    + change (len []) with 0 in Hlen.
      replace (1 <? length - index) with false by (symmetry; apply Z.ltb_ge; lia).
      rewrite andb_false_r. reflexivity.
    + rewrite ParserRangesFacts.len_cons in Hlen, Hnn. pose proof (len_nonneg params).
      replace (1 <? length - index) with true by (symmetry; apply Z.ltb_lt; lia).
      rewrite andb_true_r.
      change (removelast (param :: next :: params))
        with (param :: removelast (next :: params)).
      cbn [filter]. destruct (PVariadic param); [|reflexivity].
      unfold pusherrtok. cbn [map]. rewrite <- app_assoc. reflexivity.
Qed.

Lemma index_map {A B : Type} (f : A -> B) (l : list A) (i : Z) :
  index (map f l) i = option_map f (index l i).
Proof.
  unfold index. destruct (i <? 0); [reflexivity|]. apply nth_error_map.
Qed.

Lemma substring_all (s : string) : String.substring 0 (String.length s) s = s.
Proof. induction s as [|a s IH]; [reflexivity|]. cbn. rewrite IH. reflexivity. Qed.

Lemma sliceFrom_brackets (s : string) : sliceFrom (String.append "[]" s) 2 = Some s.
Proof.
  unfold sliceFrom, strlen. cbn [String.append String.length].
  replace (2 <? 0) with false by reflexivity.
  replace (Z.of_nat (S (S (String.length s))) <? 2) with false
    by (symmetry; apply Z.ltb_ge; lia).
  cbn [orb]. f_equal.
  replace (S (S (String.length s)) - Z.to_nat 2)%nat with (String.length s) by lia.
  change (Z.to_nat 2) with 2%nat. cbn [String.substring]. apply substring_all.
Qed.

(** X24: The variable made of a variadic parameter has an array type whose
    element type, as [typeOfArrayElements] computes it, is the declared
    type of the parameter. *)
Theorem varsFromParams_variadic_is_array (logs : list CompilerLog)
    (params : list Param) (i : Z) (param : Param) :
  index params i = Some param ->
  PVariadic param = true ->
  exists v,
    index (fst (varsFromParams logs params)) i = Some v /\
    VarId v = PId param /\
    typeIsArray (VarType v) = true /\
    typeOfArrayElements (VarType v) = Some (PType param).
Proof.
  intros Hi Hv. exists (varOfParam param).
  unfold varsFromParams. rewrite varsFromParamsLoop_vars. cbn [app].
  rewrite index_map, Hi. split; [reflexivity|]. split; [reflexivity|].
  unfold varOfParam. cbn [VarType]. rewrite Hv.
  unfold typeIsArray, typeOfArrayElements, setValue. cbn [TValue].
  split; [reflexivity|].
  rewrite sliceFrom_brackets. destruct (PType param). reflexivity.
Qed.

(** X25: [varsFromParams] pushes [variadic_parameter_notlast] once for every
    variadic parameter that is not the last one, in order, and nothing
    else. *)
Theorem varsFromParams_logs (logs : list CompilerLog) (params : list Param) :
  snd (varsFromParams logs params) =
  logs ++ map (fun param => mkLog (Row (PToken param)) (Column (PToken param))
                                  "variadic_parameter_notlast")
              (filter PVariadic (removelast params)).
Proof.
  unfold varsFromParams. apply varsFromParamsLoop_logs. lia.
Qed.

(** Declarations for the examples. *)
Definition tok (kind : string) (row : Z) : Token := mkToken Id kind row 1.
Definition i32 : DataType := mkDataType noToken I32 "i32" false TagNil.
Definition limit : Var := mkVar "limit" (tok "limit" 1) i32 true false.
Definition mainSig : FuncSig := mkFuncSig (tok "main" 2) "main" [] zeroDataType.
Definition scope : ParserState :=
  mkParser [] "" [mkFunction mainSig [] ""] [limit] [] [] [] [].
Definition noIgnore (name : string) : bool := String.eqb name "_".
Definition sigString (f : FuncSig) : string := "fn".

(** A block of [scope] that declares a constant [main] of the type of the
    function [main]. *)
Definition fnType : DataType := mkDataType noToken Func "fn" false (TagFunc mainSig).
Definition mainVar : Var := mkVar "main" (tok "main" 3) fnType true false.
Definition blockScope : ParserState :=
  mkParser [] "" [mkFunction mainSig [] ""] [limit] [] [] [mainVar] [].

(** [main = ...] for the constant [main] of a function type, where a
    function [main] exists. *)
Lemma assign_to_variable_witness :
  lvalue (fst (fst (ParserScope.id [] sigString blockScope (tok "main" 5)))) = true /\
  constant (fst (fst (ParserScope.id [] sigString blockScope (tok "main" 5)))) = true /\
  ParserScope.checkAssignment []
    (snd (ParserScope.id [] sigString blockScope (tok "main" 5)))
    (fst (fst (ParserScope.id [] sigString blockScope (tok "main" 5)))) (tok "=" 5)
  = (false, pusherr (pusherr blockScope (tok "=" 5) "assign_const") (tok "=" 5)
                    "assign_type_not_support_value").
Proof.
  apply (assign_to_variable [] sigString blockScope (tok "main" 5) (tok "=" 5) mainVar).
  reflexivity.
Defined.

(** A stand-in for [Var] that gives an untyped variable the type [i32] and
    reports a missing value. *)
Definition typeVar (q : ParserState) (v : Var) : Var * ParserState :=
  (mkVar (VarId v) (IdToken v) i32 (Const v) (Volatile v),
   pusherr q (IdToken v) "missing_autotype_value").


(** [main = ...] for the function [main]. *)
Lemma assign_to_function_witness :
  ParserScope.checkAssignment []
    (snd (ParserScope.id [] sigString scope (tok "main" 5)))
    (fst (fst (ParserScope.id [] sigString scope (tok "main" 5)))) (tok "=" 5)
  = (false, pusherr (pusherr scope (tok "=" 5) "assign_nonlvalue") (tok "=" 5)
                    "assign_type_not_support_value").
Proof.
  apply (assign_to_function [] sigString scope (tok "main" 5) (tok "=" 5)
           (mkFunction mainSig [] "")); reflexivity.
Defined.

Definition inlineAttr : Attribute := mkAttribute (tok "@" 1) (tok "inline" 1).

Lemma PushAttribute_no_repeat_witness :
  NoDup (tagKinds (PushAttribute (PushAttribute scope inlineAttr) inlineAttr)).
Proof.
  apply (PushAttribute_no_repeat (PushAttribute scope inlineAttr) inlineAttr).
  repeat constructor. intros H. exact H.
Defined.

Definition byteAlias : TypeDecl := mkTypeDecl (tok "byte" 1) "byte" i32.

Lemma ParseType_distinct_witness :
  typesDistinct (ParserScope.ParseType [] noIgnore scope byteAlias).
Proof.
  apply (ParseType_distinct [] noIgnore scope byteAlias).
  - split; constructor.
  - discriminate.
Defined.

(** [fn f(a i32, rest ...i32)] *)
Lemma varsFromParams_variadic_is_array_witness :
  exists v,
    index (fst (varsFromParams []
                  [mkParam (tok "a" 1) "a" false false false i32;
                   mkParam (tok "rest" 1) "rest" false false true i32])) 1 = Some v /\
    VarId v = "rest" /\
    typeIsArray (VarType v) = true /\
    typeOfArrayElements (VarType v) = Some i32.
Proof.
  apply (varsFromParams_variadic_is_array []
           [mkParam (tok "a" 1) "a" false false false i32;
            mkParam (tok "rest" 1) "rest" false false true i32] 1
           (mkParam (tok "rest" 1) "rest" false false true i32)); reflexivity.
Defined.

End ParserScopeFacts.

(** * More of [types.go]: [checkMultiType] and arrays in [typesAreCompatible] *)
Module TypesMore.
Import Ast Types.

Section CheckMultiType.

(** The parser, [PushErrorToken] on it, and [Parser.checkType], which
    [checkMultiType] calls for the element types. *)
Variable ParserState : Type.
Variable PushErrorToken : ParserState -> Token -> string -> ParserState.
Variable checkType : DataType -> DataType -> bool -> Token -> ParserState -> ParserState.

(** The loop [for index := 0; index < len(realTypes); index++] of
    [checkMultiType]; [checkTypes[index]] panics behind the end. *)
Fixpoint checkMultiTypeLoop (realTypes checkTypes : list DataType) (ignoreAny : bool)
    (errToken : Token) (p : ParserState) : Outcome ParserState :=
  match realTypes with
  | [] => Returned p
  | realType :: realTypes' =>
      match checkTypes with
      | [] => Panicked
      | checkType' :: checkTypes' =>
          checkMultiTypeLoop realTypes' checkTypes' ignoreAny errToken
            (checkType realType checkType' ignoreAny errToken p)
      end
  end.

(** [checkMultiType] (types.go:106).  Both [realTypes] and [checkTypes] are
    read from [real.Tag]. *)
Definition checkMultiType (real check : DataType) (ignoreAny : bool)
    (errToken : Token) (p : ParserState) : Outcome ParserState :=
  if negb (Bool.eqb (MultiTyped real) (MultiTyped check)) then
    Returned (PushErrorToken p errToken "incompatible_datatype")
  else
    match Tag real with
    | TagTypes realTypes =>
        match Tag real with
        | TagTypes checkTypes =>
            if negb (len realTypes =? len checkTypes) then
              Returned (PushErrorToken p errToken "incompatible_datatype")
            else checkMultiTypeLoop realTypes checkTypes ignoreAny errToken p
        | _ => Panicked
        end
    | _ => Panicked
    end.

Lemma checkMultiTypeLoop_same (ts : list DataType) (ignoreAny : bool) (errToken : Token) :
  forall p,
    checkMultiTypeLoop ts ts ignoreAny errToken p =
    Returned (fold_left (fun q t => checkType t t ignoreAny errToken q) ts p).
Proof.
  induction ts as [|t ts IH]; intros p; [reflexivity|]. cbn. apply IH.
Qed.

(** X26: [checkMultiType] never looks at the element types of [check]: when the
    two types agree on being multi-typed, every element type of [real] is
    checked against itself, and nothing else happens. *)
Theorem checkMultiType_checks_real_against_itself (real check : DataType)
    (ts : list DataType) (ignoreAny : bool) (errToken : Token) (p : ParserState) :
  MultiTyped real = MultiTyped check ->
  Tag real = TagTypes ts ->
  checkMultiType real check ignoreAny errToken p =
  Returned (fold_left (fun q t => checkType t t ignoreAny errToken q) ts p).
Proof.
  intros Hm Htag. unfold checkMultiType. rewrite Hm, Htag, Bool.eqb_reflx.
  cbn [negb]. rewrite Z.eqb_refl. cbn [negb]. apply checkMultiTypeLoop_same.
Qed.

End CheckMultiType.

Lemma firstByteIs_differ (s1 s2 : string) (c : ascii) :
  firstByteIs s1 c = true -> firstByteIs s2 c = false -> String.eqb s1 s2 = false.
Proof.
  destruct s1 as [|a1 s1]; [discriminate|]. destruct s2 as [|a2 s2]; [reflexivity|].
  cbn. intros H1 H2. apply Ascii.eqb_eq in H1. subst a1.
  rewrite Ascii.eqb_sym, H2. reflexivity.
Qed.

(** X27: An array type and a type that is not an array are compatible, in
    either order, exactly when the other type has the code [Nil]: the
    lexemes of the two can never be equal. *)
Theorem typesAreCompatible_array_with_other
    (xTypesAreCompatible : TypeCode -> TypeCode -> bool -> bool)
    (arr other : DataType) (ignoreany : bool) :
  typeIsArray arr = true ->
  typeIsArray other = false ->
  typesAreCompatible xTypesAreCompatible arr other ignoreany
    = TypeCode_eqb (Code other) Nil /\
  typesAreCompatible xTypesAreCompatible other arr ignoreany
    = TypeCode_eqb (Code other) Nil.
Proof.
  intros Harr Hother. unfold typesAreCompatible, checkArrayCompatiblity.
  rewrite Harr, Hother. cbn [orb].
  pose proof (firstByteIs_differ (TValue arr) (TValue other) "["%char Harr Hother) as Hne.
  rewrite Hne. split; destruct (TypeCode_eqb (Code other) Nil); reflexivity.
Qed.

(** [[]i32] against [i32] and against [nil]. *)
Lemma typesAreCompatible_array_with_other_witness :
  typesAreCompatible (fun _ _ _ => true)
    (mkDataType noToken I32 "[]i32" false TagNil)
    (mkDataType noToken I32 "i32" false TagNil) false = false /\
  typesAreCompatible (fun _ _ _ => true)
    (mkDataType noToken I32 "i32" false TagNil)
    (mkDataType noToken I32 "[]i32" false TagNil) false = false.
Proof.
  apply (typesAreCompatible_array_with_other (fun _ _ _ => true)
           (mkDataType noToken I32 "[]i32" false TagNil)
           (mkDataType noToken I32 "i32" false TagNil) false); reflexivity.
Defined.

(** A pair type checked against a pair of other types, with a [checkType]
    that records the lexemes it is given. *)
Lemma checkMultiType_checks_real_against_itself_witness :
  checkMultiType (list (string * string)) (fun p _ _ => p)
    (fun a b _ _ p => p ++ [(TValue a, TValue b)])
    (mkDataType noToken Void "" true
       (TagTypes [mkDataType noToken I32 "i32" false TagNil;
                  mkDataType noToken Str "str" false TagNil]))
    (mkDataType noToken Void "" true
       (TagTypes [mkDataType noToken Bool "bool" false TagNil]))
    false noToken []
  = Returned [("i32", "i32"); ("str", "str")].
Proof.
  apply (checkMultiType_checks_real_against_itself (list (string * string))
           (fun p _ _ => p) (fun a b _ _ p => p ++ [(TValue a, TValue b)])
           (mkDataType noToken Void "" true
              (TagTypes [mkDataType noToken I32 "i32" false TagNil;
                         mkDataType noToken Str "str" false TagNil]))
           (mkDataType noToken Void "" true
              (TagTypes [mkDataType noToken Bool "bool" false TagNil]))
           [mkDataType noToken I32 "i32" false TagNil;
            mkDataType noToken Str "str" false TagNil]
           false noToken []); reflexivity.
Defined.

End TypesMore.

(** * Package lit, [src/src/constant/lit/bytes.go] *)
Module Lit.
Import ParserRanges.

(** A [string] or [[]byte] as the list of its bytes, each in [0, 255]. *)
#[local] Abbreviation bytes := (list Z).

(** [Is_byte_lit] (bytes.go:15); an index expression out of range is the
    panic.  The cases of the [switch] are evaluated in order, each with the
    short-circuit [&&]. *)
Definition Is_byte_lit (kind : bytes) : Outcome (bytes * bool) :=
  if len kind <? 3 then Returned ([], false)
  else
    match slice kind 1 (len kind - 1) with
    | None => Panicked
    | Some kind =>
        let case1 : Outcome bool :=
          if len kind =? 1 then
            match index kind 0 with
            | Some b => Returned (b <=? 255)
            | None => Panicked
            end
          else Returned false in
        let case2 : Outcome bool :=
          match index kind 0 with
          | Some b0 =>
              if b0 =? 92 then
                match index kind 1 with
                | Some b1 => Returned (b1 =? 120)
                | None => Panicked
                end
              else Returned false
          | None => Panicked
          end in
        let case3 : Outcome bool :=
          match index kind 0 with
          | Some b0 =>
              if b0 =? 92 then
                match index kind 1 with
                | Some b1 => Returned ((48 <=? b1) && (b1 <=? 55))
                | None => Panicked
                end
              else Returned false
          | None => Panicked
          end in
        match case1 with
        | Returned true => Returned (kind, true)
        | Returned false =>
            match case2 with
            | Returned true => Returned (kind, true)
            | Returned false =>
                match case3 with
                | Returned is_byte => Returned (kind, is_byte)
                | Panicked => Panicked
                | OutOfFuel => OutOfFuel
                end
            | Panicked => Panicked
            | OutOfFuel => OutOfFuel
            end
        | Panicked => Panicked
        | OutOfFuel => OutOfFuel
        end
    end.

(** [try_btoa_common_esq] (bytes.go:60): the cases are the backslash, the
    two quotes and the letters a, b, f, n, r, t, v. *)
Definition try_btoa_common_esq (b : bytes) : Z * bool :=
  match b with
  | 92 :: c :: _ =>
      let seq :=
        if c =? 92 then 92
        else if c =? 39 then 39
        else if c =? 34 then 34
        else if c =? 97 then 7
        else if c =? 98 then 8
        else if c =? 102 then 12
        else if c =? 110 then 10
        else if c =? 114 then 13
        else if c =? 116 then 9
        else if c =? 118 then 11
        else 0 in
      (seq, negb (seq =? 0))
  | _ => (0, false)
  end.

(** The digit loop of [strconv.ParseUint] for a base from 2 to 36, on the
    value [n] read so far: a byte that is no digit of the base gives 0, a
    value above [maxVal] gives [maxVal]. *)
Fixpoint parseDigits (base maxVal n : Z) (s : bytes) : Z :=
  match s with
  | [] => n
  | c :: rest =>
      let lower := Z.lor c 32 in
      let d :=
        if (48 <=? c) && (c <=? 57) then Some (c - 48)
        else if (97 <=? lower) && (lower <=? 122) then Some (lower - 97 + 10)
        else None in
      match d with
      | None => 0
      | Some d =>
          if base <=? d then 0
          else if (18446744073709551615 / base + 1) <=? n then maxVal
          else
            let n1 := (n * base + d) mod 18446744073709551616 in
            if (n1 <? n * base) || (maxVal <? n1) then maxVal
            else parseDigits base maxVal n1 rest
      end
  end.

(** The value [strconv.ParseUint(s, base, bitSize)] returns, for a base
    from 2 to 36; the callers drop the error. *)
Definition ParseUint (s : bytes) (base bitSize : Z) : Z :=
  match s with
  | [] => 0
  | _ => parseDigits base (2 ^ bitSize - 1) 0 s
  end.

(** The conversion [rune(rc)] of a [uint64]. *)
Definition toRune (rc : Z) : Z :=
  let r := rc mod 4294967296 in
  if r <? 2147483648 then r else r - 4294967296.

(** [rune_from_esq_seq] (bytes.go:101): the rune and [*i] afterwards. *)
Definition rune_from_esq_seq (b : bytes) (i : Z) : Outcome (Z * Z) :=
  match slice b i (len b) with
  | None => Panicked
  | Some from =>
      let (seq, ok) := try_btoa_common_esq from in
      let i := i + 1 in
      if ok then Returned (seq, i)
      else
        match index b i with
        | None => Panicked
        | Some c =>
            if c =? 117 then
              match slice b (i + 1) (i + 5) with
              | Some digits => Returned (toRune (ParseUint digits 16 32), i + 4)
              | None => Panicked
              end
            else if c =? 85 then
              match slice b (i + 1) (i + 9) with
              | Some digits => Returned (toRune (ParseUint digits 16 32), i + 8)
              | None => Panicked
              end
            else if c =? 120 then
              match slice b i (i + 3) with
              | Some seq => Returned (toRune (ParseUint seq 16 8), i + 2)
              | None => Panicked
              end
            else
              match slice b i (i + 3) with
              | Some seq => Returned (toRune (ParseUint seq 8 8), i + 2)
              | None => Panicked
              end
        end
  end.

Section ToRune.

(** [utf8.DecodeRune] and [strconv.FormatInt(_, 16)]. *)
Variable DecodeRune : bytes -> Z.
Variable FormatHex : Z -> bytes.

(** [Rtoa] (bytes.go:58). *)
Definition Rtoa (r : Z) : bytes := [48; 120] ++ FormatHex r.

(** [To_rune] (bytes.go:41). *)
Definition To_rune (b : bytes) : Outcome bytes :=
  if len b =? 0 then Returned []
  else
    match index b 0 with
    | None => Panicked
    | Some b0 =>
        if (b0 =? 92) && (1 <? len b) then
          match rune_from_esq_seq b 0 with
          | Returned (r, _) => Returned (Rtoa r)
          | Panicked => Panicked
          | OutOfFuel => OutOfFuel
          end
        else Returned (Rtoa (DecodeRune b))
    end.

End ToRune.

End Lit.

(** * Facts on [bytes.go] *)
Module LitFacts.
Import ParserRanges ParserRangesFacts Lit.

Lemma slice_full {A : Type} (l : list A) : slice l 0 (len l) = Some l.
Proof.
  pose proof (slice_middle (@nil A) l []) as H.
  rewrite app_nil_r in H. exact H.
Qed.

Lemma slice_len {A : Type} (l part : list A) (lo hi : Z) :
  slice l lo hi = Some part -> len part = hi - lo /\ incl part l.
Proof.
  unfold slice. destruct ((lo <? 0) || (hi <? lo) || (len l <? hi)) eqn:Hb; [discriminate|].
  apply orb_false_iff in Hb. destruct Hb as [Hb Hhi].
  apply orb_false_iff in Hb. destruct Hb as [Hlo Hlt].
  apply Z.ltb_ge in Hhi, Hlo, Hlt.
  intros H. injection H as <-. split.
  - unfold len in *. rewrite length_firstn, length_skipn. lia.
  - intros a Ha.
    rewrite <- (firstn_skipn (Z.to_nat lo) l). apply in_or_app. right.
    rewrite <- (firstn_skipn (Z.to_nat (hi - lo)) (skipn (Z.to_nat lo) l)).
    apply in_or_app. left. exact Ha.
Qed.

Lemma index_head {A : Type} (l : list A) :
  0 < len l -> exists a, index l 0 = Some a /\ In a l.
Proof.
  destruct l as [|a l]; [unfold len; cbn; lia|]. intros _. exists a.
  split; [reflexivity | left; reflexivity].
Qed.

Lemma index_second {A : Type} (l : list A) :
  1 < len l -> exists a, index l 1 = Some a.
Proof.
  destruct l as [|a [|b l]]; try (unfold len; cbn; lia). intros _. exists b. reflexivity.
Qed.

(** X28: [Is_byte_lit] returns on every string; a literal of three bytes, that
    is with one byte between the quotes, is always a byte literal. *)
Theorem Is_byte_lit_returns (kind : list Z) :
  Forall (fun b => 0 <= b <= 255) kind ->
  exists inner is_byte,
    Is_byte_lit kind = Returned (inner, is_byte) /\
    (len kind = 3 -> is_byte = true).
Proof.
  intros Hbytes. unfold Is_byte_lit.
  destruct (len kind <? 3) eqn:Hlen.
  - apply Z.ltb_lt in Hlen. exists [], false. split; [reflexivity | lia].
  - apply Z.ltb_ge in Hlen.
    destruct (slice kind 1 (len kind - 1)) as [inner|] eqn:Hslice.
    2:{ unfold slice in Hslice.
        replace (1 <? 0) with false in Hslice by reflexivity.
        replace (len kind - 1 <? 1) with false in Hslice by (symmetry; apply Z.ltb_ge; lia).
        replace (len kind <? len kind - 1) with false in Hslice
          by (symmetry; apply Z.ltb_ge; lia).
        discriminate. }
    destruct (slice_len _ _ _ _ Hslice) as [Hinner Hincl].
    destruct (index_head inner ltac:(lia)) as (b0 & Hb0 & Hin0).
    assert (Hrange : 0 <= b0 <= 255).
    { rewrite Forall_forall in Hbytes. apply Hbytes, Hincl, Hin0. }
    cbv zeta. rewrite Hb0.
    destruct (len inner =? 1) eqn:Hone.
    + replace (b0 <=? 255) with true by (symmetry; apply Z.leb_le; lia).
      exists inner, true. split; reflexivity.
    + apply Z.eqb_neq in Hone.
      destruct (index_second inner ltac:(lia)) as (b1 & Hb1). rewrite Hb1.
      destruct (b0 =? 92).
      * destruct (b1 =? 120).
        -- exists inner, true. split; [reflexivity | lia].
        -- eexists inner, _. split; [reflexivity | lia].
      * exists inner, false. split; [reflexivity | lia].
Qed.

Section ToRune.

Variable DecodeRune : list Z -> Z.
Variable FormatHex : Z -> list Z.

(** X29: A hexadecimal escape is always read as the rune 0: the sequence handed
    to [strconv.ParseUint] starts with the letter x, which is no digit, and
    the error is dropped. *)
Theorem To_rune_hex_escape (h1 h2 : Z) (rest : list Z) :
  To_rune DecodeRune FormatHex (92 :: 120 :: h1 :: h2 :: rest)
  = Returned (Rtoa FormatHex 0).
Proof.
  unfold To_rune. set (b := 92 :: 120 :: h1 :: h2 :: rest).
  assert (Hlen : len b = 4 + len rest) by (unfold b; rewrite !len_cons; lia).
  pose proof (len_nonneg rest) as Hrest.
  replace (len b =? 0) with false by (symmetry; apply Z.eqb_neq; lia).
  change (index b 0) with (Some 92). cbn [Z.eqb Pos.eqb andb].
  replace (1 <? len b) with true by (symmetry; apply Z.ltb_lt; lia).
  unfold rune_from_esq_seq. rewrite slice_full.
  change (try_btoa_common_esq b) with (0, false).
  change (index b (0 + 1)) with (Some 120). cbn [Z.eqb Pos.eqb].
  change (slice b (0 + 1) (0 + 1 + 3))
    with (slice ([92] ++ [120; h1; h2] ++ rest) (len [92]) (len [92] + len [120; h1; h2])).
  rewrite slice_middle. reflexivity.
Qed.

End ToRune.

(** An octal escape of three digits is read as its value, cut at 255. *)
Theorem rune_from_esq_seq_octal (a b c : Z) (rest : list Z) :
  48 <= a <= 55 -> 48 <= b <= 55 -> 48 <= c <= 55 ->
  rune_from_esq_seq (92 :: a :: b :: c :: rest) 0
  = Returned (Z.min 255 (64 * (a - 48) + 8 * (b - 48) + (c - 48)), 3).
Proof.
  intros Ha Hb Hc. unfold rune_from_esq_seq. rewrite slice_full.
  assert (Hesc : try_btoa_common_esq (92 :: a :: b :: c :: rest) = (0, false)).
  { unfold try_btoa_common_esq.
    repeat match goal with
           | |- context [a =? ?k] =>
               replace (a =? k) with false by (symmetry; apply Z.eqb_neq; lia)
           end.
    reflexivity. }
  rewrite Hesc. change (index (92 :: a :: b :: c :: rest) (0 + 1)) with (Some a).
  repeat match goal with
         | |- context [a =? ?k] =>
             replace (a =? k) with false by (symmetry; apply Z.eqb_neq; lia)
         end.
  change (slice (92 :: a :: b :: c :: rest) (0 + 1) (0 + 1 + 3))
    with (slice ([92] ++ [a; b; c] ++ rest) (len [92]) (len [92] + len [a; b; c])).
  rewrite slice_middle. do 2 f_equal.
  assert (Hcases : forall d, 48 <= d <= 55 ->
            d = 48 \/ d = 49 \/ d = 50 \/ d = 51 \/ d = 52 \/ d = 53 \/ d = 54 \/ d = 55)
    by (intros d Hd; lia).
  destruct (Hcases a Ha) as [->|[->|[->|[->|[->|[->|[->| ->]]]]]]];
    destruct (Hcases b Hb) as [->|[->|[->|[->|[->|[->|[->| ->]]]]]]];
    destruct (Hcases c Hc) as [->|[->|[->|[->|[->|[->|[->| ->]]]]]]];
    vm_compute; reflexivity.
Qed.

(** The literal of the byte A. *)
Lemma Is_byte_lit_returns_witness :
  exists inner is_byte,
    Is_byte_lit [39; 65; 39] = Returned (inner, is_byte) /\
    (len [39; 65; 39] = 3 -> is_byte = true).
Proof.
  apply (Is_byte_lit_returns [39; 65; 39]). repeat constructor; lia.
Defined.

(** The escape of three sevens. *)
Lemma rune_from_esq_seq_octal_witness :
  rune_from_esq_seq [92; 55; 55; 55] 0 = Returned (255, 3).
Proof.
  apply (rune_from_esq_seq_octal 55 55 55 []); lia.
Defined.

End LitFacts.

(** * Package sema, [src/src/sema/eval.go]: identifiers and string indexing *)
Module Sema.
Import Ast.

(** [l[i] = a] on a slice; [None] when [i] is out of range. *)
Definition update {A : Type} (l : list A) (i : Z) (a : A) : option (list A) :=
  if (i <? 0) || (len l <=? i) then None
  else Some (firstn (Z.to_nat i) l ++ a :: skipn (S (Z.to_nat i)) l).

(** [Data] (eval.go:14).  [Kind] is a pointer to a [TypeKind]: the index of
    its cell in the store, [None] for the nil pointer. *)
Record Data : Type := mkData {
  Kind : option Z;
  Mutable : bool;
  Lvalue : bool;
  Variadiced : bool;
  Decl : bool;
  Constant : bool
}.

(** [Var], with the fields [eval_var] reads; [VarKind] is the pointer
    [v.Kind.Kind]. *)
Record Var : Type := mkVar {
  VarToken : Token;
  VarIdent : string;
  VarConstant : bool;
  VarMutable : bool;
  VarPublic : bool;
  VarKind : option Z
}.

Section Eval.

(** What the field [kind] of a [TypeKind] holds, and the expressions. *)
Variables kind Expr : Type.

(** [build_prim_type], [types.TypeKind_U8], the string of [d.Kind.Prim()]
    ([None] when it is nil) for a nil pointer or the content of a cell,
    [types.Is_int] and [_Sema.is_accessible_define]; none of them is part of
    the sources. *)
Variable build_prim_type : string -> kind.
Variable TypeKind_U8 : string.
Variable Prim_To_str : option (option kind) -> option string.
Variable Is_int : string -> bool.
Variable is_accessible_define : bool -> Token -> bool.

(** The evaluator with the store of [TypeKind] cells its [Data] point
    into: [cells] holds the field [kind] of each, [errors] is [e.s.errors]
    as token and key. *)
Record EvalState : Type := mkEval {
  cells : list (option kind);
  errors : list (Token * string);
  unsafety : bool
}.

(** [_Eval.eval_expr_kind], which the functions below call for the
    expressions inside an indexing. *)
Variable eval_expr_kind : Expr -> EvalState -> option Data * EvalState.

(** [push_err] (eval.go:96). *)
Definition push_err (e : EvalState) (token : Token) (key : string) : EvalState :=
  mkEval (cells e) (errors e ++ [(token, key)]) (unsafety e).

(** [*p] for a pointer to a [TypeKind]. *)
Definition deref (e : EvalState) (p : option Z) : option (option kind) :=
  match p with
  | None => None
  | Some l => index (cells e) l
  end.

(** [check_data_for_integer_indexing] (eval.go:72). *)
Definition check_data_for_integer_indexing (e : EvalState) (d : Data) : string :=
  match Prim_To_str (deref e (Kind d)) with
  | None => "invalid_expr"
  | Some s =>
      if negb (Is_int s) then "invalid_expr"
      else if Constant d && false then "overflow_limits"
      else ""
  end.

(** [check_integer_indexing_by_data] (eval.go:612). *)
Definition check_integer_indexing_by_data (e : EvalState) (d : Data) (token : Token)
  : EvalState :=
  let err_key := check_data_for_integer_indexing e d in
  if negb (String.eqb err_key "") then push_err e token err_key else e.

(** [eval_var] (eval.go:328); [None] is the nil result. *)
Definition eval_var (e : EvalState) (v : Var) (error_token : Token)
  : option Data * EvalState :=
  if negb (is_accessible_define (VarPublic v) (VarToken v)) then
    (None, push_err e error_token "ident_not_exist")
  else
    (Some (mkData (VarKind v) (VarMutable v) (negb (VarConstant v)) false false
                  (VarConstant v)), e).

(** [indexing_str] (eval.go:661) on the data [d] of the indexed expression:
    the data and the evaluator afterwards.  The first statement writes the
    field [kind] of the cell [d.Kind] points to. *)
Definition indexing_str (e : EvalState) (d : Data) (i_Index : Expr) (i_Token : Token)
  : Outcome (Data * EvalState) :=
  match Kind d with
  | None => Panicked
  | Some l =>
      match update (cells e) l (Some (build_prim_type TypeKind_U8)) with
      | None => Panicked
      | Some cells' =>
          let e1 := mkEval cells' (errors e) (unsafety e) in
          let (index, e2) := eval_expr_kind i_Index e1 in
          match index with
          | None => Returned (d, e2)
          | Some index =>
              let e3 := check_integer_indexing_by_data e2 index i_Token in
              if negb (Constant index) then
                Returned (mkData (Kind d) (Mutable d) (Lvalue d) (Variadiced d) (Decl d)
                                 false, e3)
              else Returned (d, e3)
          end
      end
  end.

End Eval.

End Sema.

(** * Facts on the evaluator of package sema *)
Module SemaFacts.
Import Ast Sema.

Lemma update_same {A : Type} (l l' : list A) (i : Z) (a : A) :
  update l i a = Some l' -> index l' i = Some a.
Proof.
  unfold update. destruct ((i <? 0) || (len l <=? i)) eqn:Hb; [discriminate|].
  apply orb_false_iff in Hb. destruct Hb as [Hlo Hhi].
  apply Z.ltb_ge in Hlo. apply Z.leb_gt in Hhi.
  intros H. injection H as <-. unfold index.
  replace (i <? 0) with false by (symmetry; apply Z.ltb_ge; lia).
  unfold len in Hhi.
  rewrite nth_error_app2 by (rewrite length_firstn; lia).
  rewrite length_firstn.
  replace (Z.to_nat i - Nat.min (Z.to_nat i) (List.length l))%nat with 0%nat by lia.
  reflexivity.
Qed.

Lemma update_in_range {A : Type} (l : list A) (i : Z) (a b : A) :
  index l i = Some b -> exists l', update l i a = Some l'.
Proof.
  intros Hi. apply index_Some_range in Hi. unfold update.
  replace (i <? 0) with false by (symmetry; apply Z.ltb_ge; lia).
  replace (len l <=? i) with false by (symmetry; apply Z.leb_gt; lia).
  eexists. reflexivity.
Qed.

Section Facts.

Variables kind Expr : Type.
Variable build_prim_type : string -> kind.
Variable TypeKind_U8 : string.
Variable Prim_To_str : option (option kind) -> option string.
Variable Is_int : string -> bool.
Variable is_accessible_define : bool -> Token -> bool.
Variable eval_expr_kind : Expr -> EvalState kind -> option Data * EvalState kind.

#[local] Abbreviation eval_var := (Sema.eval_var kind is_accessible_define).
#[local] Abbreviation indexing_str :=
  (Sema.indexing_str kind Expr build_prim_type TypeKind_U8 Prim_To_str Is_int
                     eval_expr_kind).

Lemma check_integer_indexing_by_data_cells (e : EvalState kind) (d : Data)
    (token : Token) :
  cells kind (check_integer_indexing_by_data kind Prim_To_str Is_int e d token)
  = cells kind e.
Proof.
  unfold check_integer_indexing_by_data. destruct (negb _); reflexivity.
Qed.

(** X30: Indexing a string variable rewrites the variable: the data [eval_var]
    gives for a variable points to the variable's own [TypeKind], and
    [indexing_str] writes the byte kind into that cell.  So after the
    indexing, provided the index expression leaves the cell alone, the
    cell of the variable holds the byte kind, whatever it held before, and
    this is the kind every later evaluation of the variable points to. *)
Theorem indexing_str_rewrites_variable (e : EvalState kind) (v : Var)
    (l : Z) (held : option kind) (token i_Token : Token) (i_Index : Expr) :
  VarKind v = Some l ->
  index (cells kind e) l = Some held ->
  is_accessible_define (VarPublic v) (VarToken v) = true ->
  (forall e0, index (cells kind (snd (eval_expr_kind i_Index e0))) l
              = index (cells kind e0) l) ->
  exists d d' e',
    eval_var e v token = (Some d, e) /\
    indexing_str e d i_Index i_Token = Returned (d', e') /\
    index (cells kind e') l = Some (Some (build_prim_type TypeKind_U8)) /\
    exists d2, eval_var e' v token = (Some d2, e') /\ Kind d2 = Some l.
Proof.
  intros Hkind Hcell Hacc Hkeep.
  unfold Sema.eval_var. rewrite Hacc. cbn [negb].
  exists (mkData (VarKind v) (VarMutable v) (negb (VarConstant v)) false false
                 (VarConstant v)).
  destruct (update_in_range (cells kind e) l (Some (build_prim_type TypeKind_U8)) held
              Hcell) as [cells' Hupd].
  pose proof (update_same _ _ _ _ Hupd) as Hsame.
  unfold Sema.indexing_str. cbn [Kind]. rewrite Hkind, Hupd.
  specialize (Hkeep (mkEval kind cells' (errors kind e) (unsafety kind e))).
  destruct (eval_expr_kind i_Index (mkEval kind cells' (errors kind e) (unsafety kind e)))
    as [idx e2].
  cbn [snd cells] in Hkeep.
  destruct idx as [idx|].
  - destruct (negb (Constant idx)); eexists _, _;
      (split; [reflexivity|]; split; [reflexivity|]; split;
       [rewrite check_integer_indexing_by_data_cells, Hkeep; exact Hsame|];
       eexists; split; reflexivity).
  - eexists _, _. split; [reflexivity|]. split; [reflexivity|]. split.
    + rewrite Hkeep. exact Hsame.
    + eexists. split; reflexivity.
Qed.

End Facts.

(** A string variable [s], whose kind is in cell 0, indexed by an
    expression that evaluates to a constant without touching the store. *)
Lemma indexing_str_rewrites_variable_witness :
  exists d d' e',
    Sema.eval_var string (fun _ _ => true) (mkEval string [Some "str"] [] false)
      (mkVar noToken "s" false true true (Some 0)) noToken = (Some d, mkEval string [Some "str"] [] false) /\
    Sema.indexing_str string unit (fun name => name) "u8" (fun _ => Some "int")
      (fun _ => true) (fun _ e0 => (Some (mkData None false false false false true), e0))
      (mkEval string [Some "str"] [] false) d tt noToken = Returned (d', e') /\
    index (cells string e') 0 = Some (Some "u8") /\
    exists d2,
      Sema.eval_var string (fun _ _ => true) e'
        (mkVar noToken "s" false true true (Some 0)) noToken = (Some d2, e') /\
      Kind d2 = Some 0.
Proof.
  apply (indexing_str_rewrites_variable string unit (fun name => name) "u8"
           (fun _ => Some "int") (fun _ => true) (fun _ _ => true)
           (fun _ e0 => (Some (mkData None false false false false true), e0))
           (mkEval string [Some "str"] [] false)
           (mkVar noToken "s" false true true (Some 0)) 0 (Some "str")
           noToken noToken tt); reflexivity.
Defined.

End SemaFacts.

(** * Constants and lvalues, in both evaluators *)
Module ConstantFacts.
Import Ast Parser.

Section Facts.

Variable kind : Type.
Variable is_accessible_define : bool -> Token -> bool.
Variable builtinFuncs : list ParserScope.function.
Variable DataTypeString : FuncSig -> string.

#[local] Abbreviation eval_var := (Sema.eval_var kind is_accessible_define).
#[local] Abbreviation id := (ParserScope.id builtinFuncs DataTypeString).
#[local] Abbreviation checkAssignment := (ParserScope.checkAssignment builtinFuncs).

(** C8: Of the two evaluators only the later one keeps constants apart from
    lvalues.  In package sema the data [eval_var] gives for a variable has
    [Lvalue] equal to the negation of [Constant], which is the variable's:
    a constant variable is no lvalue.  In the parser, [valueEvaluator.id]
    makes every variable an lvalue and carries the variable's constant flag
    beside it; an assignment to a constant is refused there all the same,
    by the test of the flag in [checkAssignment]. *)
Theorem constant_variable_by_evaluator :
  (forall (e e' : Sema.EvalState kind) (v : Sema.Var) (error_token : Token)
          (d : Sema.Data),
      eval_var e v error_token = (Some d, e') ->
      Sema.Constant d = Sema.VarConstant v /\
      Sema.Lvalue d = negb (Sema.Constant d) /\
      (Sema.Constant d = true -> Sema.Lvalue d = false)) /\
  (forall (p : ParserScope.ParserState) (token errtok : Token) (v : ParserScope.Var),
      ParserScope.varById p (Kind token) = Some v ->
      ParserScope.lvalue (fst (fst (id p token))) = true /\
      ParserScope.constant (fst (fst (id p token))) = ParserScope.Const v /\
      (ParserScope.Const v = true ->
       fst (checkAssignment (snd (id p token)) (fst (fst (id p token))) errtok) = false /\
       In (mkLog (Row errtok) (Column errtok) "assign_const")
          (ParserScope.Logs
             (snd (checkAssignment (snd (id p token)) (fst (fst (id p token))) errtok))))).
Proof.
  split.
  - intros e e' v error_token d. unfold Sema.eval_var.
    destruct (negb (is_accessible_define (Sema.VarPublic v) (Sema.VarToken v)));
      [discriminate|].
    intros H. injection H as <- _. cbn [Sema.Constant Sema.Lvalue].
    split; [reflexivity|]. split; [reflexivity|]. intros ->. reflexivity.
  - intros p token errtok v Hvar. unfold ParserScope.id. rewrite Hvar.
    cbn [fst snd ParserScope.lvalue ParserScope.constant].
    split; [reflexivity|]. split; [reflexivity|]. intros Hconst.
    unfold ParserScope.checkAssignment.
    cbn [ParserScope.lvalue ParserScope.constant ParserScope.vType ParserScope.vToken negb].
    rewrite Hconst.
    destruct (Tag (ParserScope.VarType v));
      try (split; [reflexivity|]; cbn; apply in_or_app; right; left; reflexivity).
    destruct (ParserScope.FuncById builtinFuncs _ _).
    + split; [reflexivity|]. cbn. apply in_or_app. left. apply in_or_app. right.
      left. reflexivity.
    + split; [reflexivity|]. cbn. apply in_or_app. right. left. reflexivity.
Qed.

End Facts.

(** The constant [limit] of [ParserScopeFacts.scope], named in an
    expression: the parser's value for it is constant and an lvalue. *)
Lemma id_constant_is_lvalue :
  ParserScope.constant
    (fst (fst (ParserScope.id [] ParserScopeFacts.sigString ParserScopeFacts.scope
                 (ParserScopeFacts.tok "limit" 5)))) = true /\
  ParserScope.lvalue
    (fst (fst (ParserScope.id [] ParserScopeFacts.sigString ParserScopeFacts.scope
                 (ParserScopeFacts.tok "limit" 5)))) = true.
Proof. split; reflexivity. Qed.

(** Both evaluators on a constant: [eval_var] on a constant variable of
    package sema, [id] and [checkAssignment] on [limit = ...]. *)
Lemma constant_variable_by_evaluator_witness :
  (Sema.Constant (Sema.mkData (Some 0) false false false false true) = true /\
   Sema.Lvalue (Sema.mkData (Some 0) false false false false true) = false) /\
  (ParserScope.lvalue
     (fst (fst (ParserScope.id [] ParserScopeFacts.sigString ParserScopeFacts.scope
                  (ParserScopeFacts.tok "limit" 5)))) = true /\
   fst (ParserScope.checkAssignment []
          (snd (ParserScope.id [] ParserScopeFacts.sigString ParserScopeFacts.scope
                  (ParserScopeFacts.tok "limit" 5)))
          (fst (fst (ParserScope.id [] ParserScopeFacts.sigString ParserScopeFacts.scope
                       (ParserScopeFacts.tok "limit" 5))))
          (ParserScopeFacts.tok "=" 5)) = false).
Proof.
  destruct (constant_variable_by_evaluator string (fun _ _ => true) []
              ParserScopeFacts.sigString) as [Hsema Hparser].
  split.
  - destruct (Hsema (Sema.mkEval string [Some "int"] [] false)
                    (Sema.mkEval string [Some "int"] [] false)
                    (Sema.mkVar noToken "max" true false true (Some 0)) noToken
                    (Sema.mkData (Some 0) false false false false true) eq_refl)
      as [Hc [_ Hl]].
    split; [reflexivity | exact (Hl eq_refl)].
  - destruct (Hparser ParserScopeFacts.scope (ParserScopeFacts.tok "limit" 5)
                      (ParserScopeFacts.tok "=" 5) ParserScopeFacts.limit eq_refl)
      as [Hl [_ Hrefuse]].
    split; [exact Hl | exact (proj1 (Hrefuse eq_refl))].
Defined.

End ConstantFacts.

(** * Indexing in the parser, [src/parser/parser.go] *)
Module ParserSelect.
Import Ast Parser Types ParserScope.

Section Select.

(** [x.IsIntegerType], of package [x], which is not part of the sources. *)
Variable IsIntegerType : TypeCode -> bool.

(** [v.lvalue = true] and [v.ast.Type = t] on a [value]. *)
Definition asLvalueOf (v : value) (t : DataType) : value :=
  mkValue (vData v) t (vToken v) (constant v) (volatile v) true (variadic v).

(** The test both selections make of the index. *)
Definition integerSelector (selectv : value) : bool :=
  typeIsSingle (vType selectv) && IsIntegerType (Code (vType selectv)).

(** [evalArraySelect] (parser.go:1560); [None] is the panic of
    [typeOfArrayElements]. *)
Definition evalArraySelect (p : ParserState) (arrv selectv : value) (errtok : Token)
  : option (value * ParserState) :=
  match typeOfArrayElements (vType arrv) with
  | None => None
  | Some t =>
      Some (asLvalueOf arrv t,
            if negb (typeIsSingle (vType selectv))
               || negb (IsIntegerType (Code (vType selectv)))
            then pusherr p errtok "notint_array_select" else p)
  end.

(** [evalStrSelect] (parser.go:1569). *)
Definition evalStrSelect (p : ParserState) (strv selectv : value) (errtok : Token)
  : value * ParserState :=
  (asLvalueOf strv (setCode (vType strv) Rune),
   if negb (typeIsSingle (vType selectv))
      || negb (IsIntegerType (Code (vType selectv)))
   then pusherr p errtok "notint_string_select" else p).

(** [evalEnumerableSelect] (parser.go:1549). *)
Definition evalEnumerableSelect (p : ParserState) (enumv selectv : value)
    (errtok : Token) : option (value * ParserState) :=
  if typeIsArray (vType enumv) then evalArraySelect p enumv selectv errtok
  else if typeIsSingle (vType enumv) then Some (evalStrSelect p enumv selectv errtok)
  else Some (zeroValue, pusherr p errtok "not_enumerable").

End Select.

End ParserSelect.

(** * Indexing a string, in both evaluators *)
Module IndexingFacts.
Import Ast Parser Types.

Section Facts.

Variable IsIntegerType : TypeCode -> bool.
Variables kind Expr : Type.
Variable build_prim_type : string -> kind.
Variable TypeKind_U8 : string.
Variable Prim_To_str : option (option kind) -> option string.
Variable Is_int : string -> bool.
Variable eval_expr_kind :
  Expr -> Sema.EvalState kind -> option Sema.Data * Sema.EvalState kind.

#[local] Abbreviation evalEnumerableSelect :=
  (ParserSelect.evalEnumerableSelect IsIntegerType).
#[local] Abbreviation indexing_str :=
  (Sema.indexing_str kind Expr build_prim_type TypeKind_U8 Prim_To_str Is_int
                     eval_expr_kind).

(** Whether the data of an index has an integer kind, as
    [check_data_for_integer_indexing] decides it. *)
Definition integerIndex (e : Sema.EvalState kind) (d : Sema.Data) : bool :=
  match Prim_To_str (Sema.deref kind e (Sema.Kind d)) with
  | Some s => Is_int s
  | None => false
  end.

Lemma check_integer_indexing_by_data_errors (e : Sema.EvalState kind) (d : Sema.Data)
    (token : Token) :
  Sema.errors kind (Sema.check_integer_indexing_by_data kind Prim_To_str Is_int e d token)
  = Sema.errors kind e ++ (if integerIndex e d then [] else [(token, "invalid_expr")]).
Proof.
  unfold Sema.check_integer_indexing_by_data, Sema.check_data_for_integer_indexing,
    integerIndex.
  destruct (Prim_To_str _) as [s|]; [|reflexivity].
  destruct (Is_int s); cbn [negb andb]; [|reflexivity].
  rewrite andb_false_r. cbn. rewrite app_nil_r. reflexivity.
Qed.


End Facts.

(** [s[i]] for a string [s] and an [i32] index [i], and [s[f]] for an
    [f64] index [f]. *)
Definition integerCodes (c : TypeCode) : bool :=
  match c with
  | I8 | I16 | I32 | I64 | U8 | U16 | U32 | U64 | Size => true
  | _ => false
  end.

Definition strValue : ParserScope.value :=
  ParserScope.mkValue "s" (mkDataType noToken Str "str" false TagNil)
                      (ParserScopeFacts.tok "s" 1) false false false false.

Definition i32Value : ParserScope.value :=
  ParserScope.mkValue "i" ParserScopeFacts.i32 (ParserScopeFacts.tok "i" 1)
                      false false false false.

Definition f64Value : ParserScope.value :=
  ParserScope.mkValue "f" (mkDataType noToken F64 "f64" false TagNil)
                      (ParserScopeFacts.tok "f" 1) false false false false.



End IndexingFacts.
